(** * The weather-enrichment pipeline of the WindBorne constellation tracker

    A shallow embedding of [src/services/weatherApi.ts] in two of its
    revisions:

    - [WeatherApi]: the revision stored under that name, without a cache
      and without deduplication;
    - [WeatherApiCached]: the later revision (part_002 of the unnamed
      sources) that adds the five-minute cache, the explicit branch for
      HTTP 429 and the deduplication of positions.

    The revision that defines [getRateLimitInfo], which App.tsx imports, is
    not among the sources; [RateLimit] models it from the specification.

    JavaScript numbers are kept abstract behind the class [JSNumber]; every
    theorem holds for whatever [toFixed] does.  Exceptions are explicit
    ([Completion]), the module-level cache, the clock and the network are
    an explicit world ([State], [Env]), maps are stdpp's [gmap]. *)

From stdpp Require Import base option list gmap strings fin_maps pretty sorting.
From Stdlib Require Import ZArith Lia Ascii.

Local Open Scope Z_scope.

(** ** JavaScript numbers

    The code uses three things of a number: the literal [0], its truthiness
    in [x || 0] (false exactly for zero and NaN) and [x.toFixed(2)]. *)
Class JSNumber (number : Type) := {
  num_zero : number;
  num_truthy : number → bool;
  toFixed : number → nat → string
}.

(** ** Errors and completions *)

Inductive JSError :=
| AbortError      (* the 3000 ms / 5000 ms timer called controller.abort() *)
| NetworkError    (* fetch() rejected for another reason *)
| SyntaxError     (* response.json() rejected: the body is not JSON *)
| TypeError.      (* property read on null or undefined *)

(** How an expression or an async function ends: with a value, or by
    throwing (for an async function: a rejected promise). *)
Inductive Completion (A : Type) :=
| Normal (a : A)
| Throw (e : JSError).
Arguments Normal {A} a.
Arguments Throw {A} e.

Global Instance completion_ret : MRet Completion := λ A a, Normal a.
Global Instance completion_bind : MBind Completion := λ A B f c,
  match c with
  | Normal a => f a
  | Throw e => Throw e
  end.

(** try { body } catch (error) { return fallback } *)
Definition tryCatch {A S : Type} (body : Completion A * S) (fallback : A)
  : Completion A * S :=
  match body with
  | (Normal a, s) => (Normal a, s)
  | (Throw _, s) => (Normal fallback, s)
  end.

(** One entry of the array [Promise.allSettled] resolves to. *)
Inductive Settled (A : Type) :=
| Fulfilled (value : A)
| Rejected (reason : JSError).
Arguments Fulfilled {A} value.
Arguments Rejected {A} reason.

Section JavaScript.
Context {number : Type} {NUM : JSNumber number}.

(** What [response.json()] can resolve to, and what a field of the
    untyped [current] object can hold. *)
Local Unset Elimination Schemes.
Inductive JSValue :=
| JUndefined
| JNull
| JBool (b : bool)
| JNum (n : number)
| JStr (s : string)
| JArr (items : list JSValue)
| JObj (fields : list (string * JSValue)).
Local Set Elimination Schemes.

(** ToBoolean *)
Definition truthy (v : JSValue) : bool :=
  match v with
  | JUndefined | JNull => false
  | JBool b => b
  | JNum n => num_truthy n
  | JStr s => negb (String.eqb s "")
  | JArr _ | JObj _ => true
  end.

(** The own property [name] of a parsed object, [undefined] when there is
    none.  A parsed object has each name once; of a list that repeats a
    name the first binding counts. *)
Fixpoint assoc (fields : list (string * JSValue)) (name : string) : JSValue :=
  match fields with
  | [] => JUndefined
  | (k, v) :: rest => if String.eqb k name then v else assoc rest name
  end.

(** [v.name] for the property names the code reads ([current],
    [temperature_2m], ...): none of them exists on a primitive wrapper or
    on an array, so only objects can answer; reading from [null] or
    [undefined] throws. *)
Definition member (v : JSValue) (name : string) : Completion JSValue :=
  match v with
  | JUndefined | JNull => Throw TypeError
  | JObj fields => Normal (assoc fields name)
  | _ => Normal JUndefined
  end.

(** [v || 0] *)
Definition orZero (v : JSValue) : JSValue :=
  if truthy v then v else JNum num_zero.

(** ** The data of weatherApi.ts *)

(** interface WeatherData.  The five measurements are whatever
    [current.x || 0] evaluates to; [timestamp] is optional and only set by
    the cached revision. *)
Record WeatherData := {
  latitude : number;
  longitude : number;
  temperature : JSValue;
  windSpeed : JSValue;
  windDirection : JSValue;
  humidity : JSValue;
  pressure : JSValue;
  timestamp : option Z
}.

(** { latitude: number; longitude: number } *)
Record Position := { pos_latitude : number; pos_longitude : number }.

(** `${latitude.toFixed(2)},${longitude.toFixed(2)}` *)
Definition positionKey (lat lon : number) : string :=
  toFixed lat 2 +:+ "," +:+ toFixed lon 2.

Definition keyOf (pos : Position) : string :=
  positionKey (pos_latitude pos) (pos_longitude pos).

(** The request URL is fixed up to the two interpolated coordinates. *)
Record Request := { req_latitude : number; req_longitude : number }.

Definition requestKey (r : Request) : string :=
  positionKey (req_latitude r) (req_longitude r).

(** A response as the code reads it: the status and what [json()] resolves
    to.  [retryAfter] and [remaining] are the rate-limit headers the proxy
    forwards; the two revisions modelled here never read them. *)
Record Response := {
  status : Z;
  json : Completion JSValue;
  retryAfter : option Z;
  remaining : option Z
}.

(** response.ok *)
Definition ok (r : Response) : bool := (200 <=? status r) && (status r <=? 299).

(** How [await fetch(url, { signal })] ends. *)
Inductive FetchOutcome :=
| FetchRejected (e : JSError)
| Responded (r : Response).

(** The request timed out or failed otherwise, or the response has a
    status outside 200..299. *)
Definition failed (o : FetchOutcome) : bool :=
  match o with
  | FetchRejected _ => true
  | Responded r => negb (ok r)
  end.

(** { data: WeatherData; expires: number } *)
Record CacheEntry := { data : WeatherData; expires : Z }.

(** ** The world

    The module-level [weatherCache], the number of [Date.now()] calls made
    so far and the requests issued so far.  The environment answers the
    n-th clock read and the n-th request; nothing is assumed of it, so
    every order in which responses arrive is covered by some
    environment. *)
Record State := {
  weatherCache : gmap string CacheEntry;
  ticks : nat;
  requests : list Request
}.

Record Env := {
  clock : nat → Z;
  upstream : nat → Request → FetchOutcome
}.

(** Date.now() *)
Definition dateNow (env : Env) (s : State) : Z * State :=
  (clock env (ticks s),
   {| weatherCache := weatherCache s; ticks := S (ticks s); requests := requests s |}).

(** fetch(url, ...): the request leaves at once; its outcome is what the
    task then waits for. *)
Definition fetch (env : Env) (url : Request) (s : State) : FetchOutcome * State :=
  (upstream env (length (requests s)) url,
   {| weatherCache := weatherCache s; ticks := ticks s; requests := requests s ++ [url] |}).

(** weatherCache.set(key, entry) *)
Definition cacheSet (key : string) (entry : CacheEntry) (s : State) : State :=
  {| weatherCache := <[key := entry]> (weatherCache s);
     ticks := ticks s; requests := requests s |}.

(** An async call of [fetchWeatherData] after its synchronous prefix:
    either it has returned already (cache hit) or it is suspended at
    [await fetch(...)]. *)
Inductive Task :=
| Returned (w : WeatherData)
| Awaiting (o : FetchOutcome).

(** The object literal both revisions build from [current]. *)
Definition buildWeather (lat lon : number) (current : JSValue) : Completion WeatherData :=
  t ← member current "temperature_2m";
  ws ← member current "wind_speed_10m";
  wd ← member current "wind_direction_10m";
  h ← member current "relative_humidity_2m";
  p ← member current "surface_pressure";
  mret {| latitude := lat; longitude := lon;
          temperature := orZero t; windSpeed := orZero ws;
          windDirection := orZero wd; humidity := orZero h;
          pressure := orZero p; timestamp := None |}.

(** The five measurements: the property read from [current] and the
    field of [WeatherData] it ends up in. *)
Definition measurements : list (string * (WeatherData → JSValue)) :=
  [("temperature_2m", temperature); ("wind_speed_10m", windSpeed);
   ("wind_direction_10m", windDirection); ("relative_humidity_2m", humidity);
   ("surface_pressure", pressure)].

Definition withTimestamp (w : WeatherData) (t : Z) : WeatherData :=
  {| latitude := latitude w; longitude := longitude w;
     temperature := temperature w; windSpeed := windSpeed w;
     windDirection := windDirection w; humidity := humidity w;
     pressure := pressure w; timestamp := Some t |}.
End JavaScript.

Arguments JSValue : clear implicits.
Arguments WeatherData : clear implicits.
Arguments Position : clear implicits.
Arguments Request : clear implicits.
Arguments Response : clear implicits.
Arguments FetchOutcome : clear implicits.
Arguments CacheEntry : clear implicits.
Arguments State : clear implicits.
Arguments Env : clear implicits.
Arguments Task : clear implicits.

(** ceil(n / m) for m > 0 *)
Definition ceilDiv (n m : nat) : nat := ((n + m - 1) / m)%nat.

(** ** The batch loop

    Both revisions run the same loop over a list of positions and differ in
    the list they hand to it and in the [fetchWeatherData] it calls; the
    loop is written once, over the two halves of that call.

    [batch.map(async ...)] runs every call up to its first [await] before
    any of them continues, so one turn of the loop first starts all tasks of
    the batch in order and then lets them finish.  They finish here in batch
    order.  Another order of arrival changes neither the requests issued nor
    the array [Promise.allSettled] resolves to; it permutes clock reads,
    which the arbitrary clock of [Env] covers, and cache writes, which in
    the cached revision go to pairwise distinct keys within a batch.

    [maxConcurrent] is a natural number.  [onBatchComplete] is modelled by
    what it is called with: a callback that returns normally can do no more
    to this code than receive its payloads. *)
Module Batch.
Section Loop.
Context {number : Type} {NUM : JSNumber number}.

(** [beginFetch] is [fetchWeatherData] up to its first [await],
    [resumeFetch] the rest of it. *)
Variable beginFetch : number → number → State number → Task number * State number.
Variable resumeFetch : number → number → Task number → State number →
                       Completion (option (WeatherData number)) * State number.

(** What one call of the arrow function given to [batch.map] went
    through: its position, the task of its [fetchWeatherData] call and the
    entry of [results] it settled to.  Kept for stating properties only;
    no definition reads it. *)
Record Lookup := {
  lk_position : Position number;
  lk_task : Task number;
  lk_result : Settled (option (string * WeatherData number))
}.

Record Progress := {
  weatherMap : gmap string (WeatherData number);
  delivered : list (gmap string (WeatherData number));
  settled : list Lookup;
  world : State number
}.

(** A state-threading map: the calls run in list order. *)
Fixpoint mapS {A B : Type} (f : A → State number → B * State number)
    (l : list A) (s : State number) : list B * State number :=
  match l with
  | [] => ([], s)
  | a :: rest =>
    let '(b, s1) := f a s in
    let '(bs, s2) := mapS f rest s1 in
    (b :: bs, s2)
  end.

(** array.slice(i, j) for 0 <= i <= j *)
Definition slice {A : Type} (l : list A) (i j : nat) : list A :=
  take (j - i) (drop i l).

(** [async (pos) => { const key = ...; const weather = await
    fetchWeatherData(...)]: the part that runs inside [batch.map]. *)
Definition startOne (pos : Position number) (s : State number)
  : (Position number * Task number) * State number :=
  let '(task, s1) := beginFetch (pos_latitude pos) (pos_longitude pos) s in
  ((pos, task), s1).

(** The rest of the arrow function: [return weather ? { key, weather } :
    null], or a rejection if [fetchWeatherData] threw. *)
Definition settle (key : string) (c : Completion (option (WeatherData number)))
  : Settled (option (string * WeatherData number)) :=
  match c with
  | Normal (Some weather) => Fulfilled (Some (key, weather))
  | Normal None => Fulfilled None
  | Throw e => Rejected e
  end.

Definition finishOne (started : Position number * Task number) (s : State number)
  : Lookup * State number :=
  let '(pos, task) := started in
  let key := keyOf pos in
  let '(c, s1) := resumeFetch (pos_latitude pos) (pos_longitude pos) task s in
  ({| lk_position := pos; lk_task := task; lk_result := settle key c |}, s1).

(** The body of [results.forEach] for one map:
    [if (result.status === 'fulfilled' && result.value) map.set(key, weather)] *)
Definition collect (m : gmap string (WeatherData number))
    (result : Settled (option (string * WeatherData number)))
  : gmap string (WeatherData number) :=
  match result with
  | Fulfilled (Some (key, weather)) => <[key := weather]> m
  | _ => m
  end.

(** The [batchMap] a list of lookups leads to. *)
Definition payload (chunk : list Lookup) : gmap string (WeatherData number) :=
  foldl collect ∅ (lk_result <$> chunk).

(** The observation a lookup found, if it found one. *)
Definition found (lk : Lookup) : option (WeatherData number) :=
  match lk_result lk with
  | Fulfilled (Some (_, weather)) => Some weather
  | _ => None
  end.

(** A lookup as the loop produces them: its task is what [beginFetch]
    gave for its position in some world, its result what [resumeFetch]
    made of that task in some world. *)
Definition genuine (lk : Lookup) : Prop :=
  let lat := pos_latitude (lk_position lk) in
  let lon := pos_longitude (lk_position lk) in
  (∃ s, lk_task lk = (beginFetch lat lon s).1) ∧
  (∃ s, lk_result lk
        = settle (keyOf (lk_position lk)) (resumeFetch lat lon (lk_task lk) s).1).

Section Run.
Variable list_ : list (Position number).
Variable maxConcurrent : nat.
Variable onBatchComplete : bool.

(** One turn of the for loop at index [i]. *)
Definition iteration (i : nat) (p : Progress) : Progress :=
  let batch := slice list_ i (i + maxConcurrent) in
  let '(tasks, s1) := mapS startOne batch (world p) in
  let '(lookups, s2) := mapS finishOne tasks s1 in
  let results := lk_result <$> lookups in
  let batchMap := foldl collect ∅ results in
  {| weatherMap := foldl collect (weatherMap p) results;
     delivered := if onBatchComplete then delivered p ++ [batchMap] else delivered p;
     settled := settled p ++ lookups;
     world := s2 |}.

(** for (let i = ...; i < list.length; i += maxConcurrent) { ... }
    [None] when the fuel runs out before the loop ends. *)
Fixpoint loop (fuel : nat) (i : nat) (p : Progress) : option Progress :=
  if bool_decide (i < length list_)%nat then
    match fuel with
    | O => None
    | S fuel' => loop fuel' (i + maxConcurrent)%nat (iteration i p)
    end
  else Some p.
End Run.
End Loop.
End Batch.

Arguments Batch.Lookup : clear implicits.
Arguments Batch.Progress : clear implicits.

(** What a call of [fetchWeatherForPositions] leaves behind: the map it
    resolves to, the payloads it handed to [onBatchComplete] (oldest
    first), the lookups it made and the world after it. *)
Record Outcome (number : Type) := {
  result : gmap string (WeatherData number);
  callbacks : list (gmap string (WeatherData number));
  lookups : list (Batch.Lookup number);
  final : State number
}.
Arguments result {number} _.
Arguments callbacks {number} _.
Arguments lookups {number} _.
Arguments final {number} _.

(** ** src/services/weatherApi.ts, the revision without a cache *)
Module WeatherApi.
Section Revision.
Context {number : Type} {NUM : JSNumber number}.
Variable env : Env number.

(** The try block from the point where [await fetch(...)] has ended. *)
Definition afterFetch (lat lon : number) (o : FetchOutcome number) (s : State number)
  : Completion (option (WeatherData number)) * State number :=
  match o with
  | FetchRejected e => (Throw e, s)
  | Responded response =>
    if negb (ok response) then (Normal None, s) else
    match json response with
    | Throw e => (Throw e, s)
    | Normal data =>
      match member data "current" with
      | Throw e => (Throw e, s)
      | Normal current =>
        if negb (truthy current) then (Normal None, s) else
        match buildWeather lat lon current with
        | Throw e => (Throw e, s)
        | Normal weather => (Normal (Some weather), s)
        end
      end
    end
  end.

Definition beginFetch (lat lon : number) (s : State number)
  : Task number * State number :=
  let '(o, s1) := fetch env {| req_latitude := lat; req_longitude := lon |} s in
  (Awaiting o, s1).

(** The catch block logs and returns null.  This revision never returns
    before its request, so [beginFetch] gives no [Returned] task; the case
    is there for the type the loop expects. *)
Definition resumeFetch (lat lon : number) (task : Task number) (s : State number)
  : Completion (option (WeatherData number)) * State number :=
  match task with
  | Returned w => (Normal (Some w), s)
  | Awaiting o => tryCatch (afterFetch lat lon o s) None
  end.

(** An awaited call of [fetchWeatherData(latitude, longitude)]. *)
Definition fetchWeatherData (lat lon : number) (s : State number)
  : Completion (option (WeatherData number)) * State number :=
  let '(task, s1) := beginFetch lat lon s in
  resumeFetch lat lon task s1.

(** [fetchWeatherForPositions(positions, maxConcurrent, onBatchComplete)].
    [onBatchComplete] says whether a callback was passed; what it is
    called with is kept in [callbacks].  The 50 ms pause between batches
    changes nothing that is modelled.  The loop makes at most
    [length positions] turns when [maxConcurrent] is positive and never
    ends when it is zero and the list is not empty: that is [None]. *)
Definition fetchWeatherForPositions (positions : list (Position number))
    (maxConcurrent : nat) (onBatchComplete : bool) (s : State number)
  : option (Outcome number) :=
  p ← Batch.loop beginFetch resumeFetch positions maxConcurrent onBatchComplete
        (length positions) 0
        {| Batch.weatherMap := ∅; Batch.delivered := []; Batch.settled := [];
           Batch.world := s |};
  Some {| result := Batch.weatherMap p; callbacks := Batch.delivered p;
          lookups := Batch.settled p; final := Batch.world p |}.
End Revision.
End WeatherApi.

(** ** The revision with the cache and the deduplication *)
Module WeatherApiCached.
Section Revision.
Context {number : Type} {NUM : JSNumber number}.
Variable env : Env number.

(** const CACHE_TTL = 5 * 60 * 1000 *)
Definition CACHE_TTL : Z := 5 * 60 * 1000.

(** The try block from the point where [await fetch(...)] has ended. *)
Definition afterFetch (lat lon : number) (o : FetchOutcome number) (s : State number)
  : Completion (option (WeatherData number)) * State number :=
  let cacheKey := positionKey lat lon in
  match o with
  | FetchRejected e => (Throw e, s)
  | Responded response =>
    if status response =? 429 then (Normal None, s) else
    if negb (ok response) then (Normal None, s) else
    match json response with
    | Throw e => (Throw e, s)
    | Normal data =>
      match member data "current" with
      | Throw e => (Throw e, s)
      | Normal current =>
        if negb (truthy current) then (Normal None, s) else
        match buildWeather lat lon current with
        | Throw e => (Throw e, s)
        | Normal fields =>
          let '(stamp, s1) := dateNow env s in
          let weather := withTimestamp fields stamp in
          let '(now, s2) := dateNow env s1 in
          (Normal (Some weather),
           cacheSet cacheKey {| data := weather; expires := now + CACHE_TTL |} s2)
        end
      end
    end
  end.

(** The cache check and, on a miss, the start of the request.
    [cached && cached.expires > Date.now()] reads the clock only when
    there is an entry. *)
Definition beginFetch (lat lon : number) (s : State number)
  : Task number * State number :=
  let cacheKey := positionKey lat lon in
  let request (s : State number) :=
    let '(o, s1) := fetch env {| req_latitude := lat; req_longitude := lon |} s in
    (Awaiting o, s1) in
  match weatherCache s !! cacheKey with
  | Some cached =>
    let '(now, s1) := dateNow env s in
    if bool_decide (now < expires cached) then (Returned (data cached), s1)
    else request s1
  | None => request s
  end.

Definition resumeFetch (lat lon : number) (task : Task number) (s : State number)
  : Completion (option (WeatherData number)) * State number :=
  match task with
  | Returned w => (Normal (Some w), s)
  | Awaiting o => tryCatch (afterFetch lat lon o s) None
  end.

(** An awaited call of [fetchWeatherData(latitude, longitude)]. *)
Definition fetchWeatherData (lat lon : number) (s : State number)
  : Completion (option (WeatherData number)) * State number :=
  let '(task, s1) := beginFetch lat lon s in
  resumeFetch lat lon task s1.

(** The call finds no live entry under its key: none at all, or one
    whose [expires] is not after the time of the call. *)
Definition missed (lat lon : number) (s : State number) : Prop :=
  ∀ entry, weatherCache s !! positionKey lat lon = Some entry →
           expires entry ≤ clock env (ticks s).

(** The body of the first [positions.forEach]; [uniquePositions] is kept
    in insertion order, as a JavaScript Map keeps it. *)
Definition remember (unique : list (string * Position number)) (pos : Position number)
  : list (string * Position number) :=
  let key := keyOf pos in
  if bool_decide (key ∈ unique.*1) then unique else unique ++ [(key, pos)].

Definition uniquePositions (positions : list (Position number))
  : list (string * Position number) :=
  foldl remember [] positions.

(** Array.from(uniquePositions.values()) *)
Definition deduplicated (positions : list (Position number)) : list (Position number) :=
  (uniquePositions positions).*2.

(** The body of the last [positions.forEach]. *)
Definition expand (weatherMap finalMap : gmap string (WeatherData number))
    (pos : Position number) : gmap string (WeatherData number) :=
  let key := keyOf pos in
  match weatherMap !! key with
  | Some weather => <[key := weather]> finalMap
  | None => finalMap
  end.

(** [fetchWeatherForPositions(positions, maxConcurrent, onBatchComplete)];
    [None] stands for the loop that never ends ([maxConcurrent] zero and a
    non-empty list). *)
Definition fetchWeatherForPositions (positions : list (Position number))
    (maxConcurrent : nat) (onBatchComplete : bool) (s : State number)
  : option (Outcome number) :=
  let unique := deduplicated positions in
  p ← Batch.loop beginFetch resumeFetch unique maxConcurrent onBatchComplete
        (length unique) 0
        {| Batch.weatherMap := ∅; Batch.delivered := []; Batch.settled := [];
           Batch.world := s |};
  Some {| result := foldl (expand (Batch.weatherMap p)) ∅ positions;
          callbacks := Batch.delivered p;
          lookups := Batch.settled p; final := Batch.world p |}.
End Revision.
End WeatherApiCached.

(** ** The rate-limit tracker *)
Module RateLimit.
Section Tracker.
Context {number : Type} {NUM : JSNumber number}.
Variable env : Env number.

(** Modelled from the spec: the number of seconds the tracker waits when
    the response names none, missing from the sources and from the spec.
    Section 5 lets a response carry no retry-after duration and section 3
    wants resetAt in the future whenever isLimited holds, so the tracker
    has a duration of its own for that case; the spec does not say which,
    and every positive one is covered. *)
Variable fallbackSeconds : positive.

(** Modelled from the spec: the state behind [getRateLimitInfo()], which
    App.tsx imports from weatherApi.ts but which no revision among the
    sources defines.  Spec, section 3: RateLimitState is
    {isLimited, retryAfterSeconds: optional, resetAt: optional}. *)
Record RateLimitState := {
  isLimited : bool;
  retryAfterSeconds : option Z;
  resetAt : option Z
}.

(** Modelled from the spec: what counts as the quota being exhausted is
    missing from the sources.  Spec, sections 4.2 and 4.3: a rate-limit
    status is recorded as such; otherwise the quota has recovered when no
    limiting signal is present or the remaining-quota counter is
    positive. *)
Definition quotaExhausted (r : Response number) : bool :=
  (status r =? 429) ||
  match remaining r with
  | Some quota => quota <=? 0
  | None => bool_decide (is_Some (retryAfter r))
  end.

(** Modelled from the spec: the retryAfterSeconds of an exhausted quota,
    missing from the sources.  Spec, sections 3 and 4.3: resetAt is
    now + retryAfterSeconds and lies in the future, so the duration the
    response names counts when it is positive and the tracker's own
    otherwise. *)
Definition cooldown (r : Response number) : Z :=
  match retryAfter r with
  | Some seconds => if 0 <? seconds then seconds else Z.pos fallbackSeconds
  | None => Z.pos fallbackSeconds
  end.

(** Modelled from the spec: [recordResponse], missing from the sources.
    Spec, section 4.3: exhausted quota gives isLimited = true with
    resetAt = now + retryAfterSeconds, recovered quota gives
    isLimited = false; the state is overwritten on every observation.
    Timestamps are in milliseconds, as [Date.now()] gives them. *)
Definition recordResponse (now : Z) (r : Response number) : RateLimitState :=
  if quotaExhausted r then
    {| isLimited := true;
       retryAfterSeconds := Some (cooldown r);
       resetAt := Some (now + 1000 * cooldown r) |}
  else {| isLimited := false; retryAfterSeconds := None; resetAt := None |}.

(** Modelled from the spec: [currentState()], missing from the sources;
    it reports the latest snapshot. *)
Definition currentState (t : RateLimitState) : RateLimitState := t.

(** Modelled from the spec: [fetchOne] of section 4.2 with the tracker of
    section 4.3, missing from the sources.  It is the cached revision's
    [fetchWeatherData] in which every upstream call that completes with a
    response is first recorded in the tracker. *)
Definition fetchOne (lat lon : number) (st : State number * RateLimitState)
  : Completion (option (WeatherData number)) * (State number * RateLimitState) :=
  let '(s, t) := st in
  let '(task, s1) := WeatherApiCached.beginFetch env lat lon s in
  match task with
  | Awaiting (Responded response) =>
    let '(now, s2) := dateNow env s1 in
    let '(w, s3) := WeatherApiCached.resumeFetch env lat lon task s2 in
    (w, (s3, recordResponse now response))
  | _ =>
    let '(w, s2) := WeatherApiCached.resumeFetch env lat lon task s1 in
    (w, (s2, t))
  end.
End Tracker.
End RateLimit.

Arguments RateLimit.RateLimitState : clear implicits.

(** ** Concrete numbers and inputs

    Decimal numbers with three fractional digits, enough to write
    coordinates such as 10.001: [Milli n] stands for n/1000.  On these
    [toFixed] rounds the magnitude half up and keeps the sign, so
    (-0.001).toFixed(2) is "-0.00" as in JavaScript.  JavaScript rounds the
    binary value of a number, which on a tie of the decimal notation (1.005)
    may fall on the other side; the inputs below are no ties. *)
Module Examples.
Inductive Decimal := Milli (n : Z).

Fixpoint digits (d : nat) (n : Z) : string :=
  match d with
  | O => ""
  | S d' => digits d' (n / 10) +:+ pretty (Z.to_N (n mod 10))
  end.

Definition decimalToFixed (x : Decimal) (d : nat) : string :=
  let 'Milli n := x in
  let a := Z.abs n in
  let scaled :=
    if (3 <=? d)%nat then a * 10 ^ Z.of_nat (d - 3)
    else (a + 5 * 10 ^ Z.of_nat (2 - d)) / 10 ^ Z.of_nat (3 - d) in
  (if n <? 0 then "-" else "") +:+
  pretty (Z.to_N (scaled / 10 ^ Z.of_nat d)) +:+
  (match d with O => "" | _ => "." +:+ digits d (scaled mod 10 ^ Z.of_nat d) end).

Global Instance decimal_number : JSNumber Decimal := {|
  num_zero := Milli 0;
  num_truthy := λ x, let 'Milli n := x in negb (n =? 0);
  toFixed := decimalToFixed
|}.

Definition emptyState : State Decimal :=
  {| weatherCache := ∅; ticks := 0; requests := [] |}.

(** {"current": {"temperature_2m": 21.5, "wind_speed_10m": 12,
     "wind_direction_10m": 270, "relative_humidity_2m": 40,
     "surface_pressure": 1013}} *)
Definition fullBody : JSValue Decimal :=
  JObj [("current",
         JObj [("temperature_2m", JNum (Milli 21500));
               ("wind_speed_10m", JNum (Milli 12000));
               ("wind_direction_10m", JNum (Milli 270000));
               ("relative_humidity_2m", JNum (Milli 40000));
               ("surface_pressure", JNum (Milli 1013000))])].

(** {"current": {"temperature_2m": "N/A", "wind_speed_10m": 12}} *)
Definition oddBody : JSValue Decimal :=
  JObj [("current",
         JObj [("temperature_2m", JStr "N/A");
               ("wind_speed_10m", JNum (Milli 12000))])].

(** {"latitude": 10, "longitude": 20} : a 200 answer without "current" *)
Definition bareBody : JSValue Decimal :=
  JObj [("latitude", JNum (Milli 10000)); ("longitude", JNum (Milli 20000))].

Definition respond (code : Z) (body : JSValue Decimal) : FetchOutcome Decimal :=
  Responded {| status := code; json := Normal body;
               retryAfter := None; remaining := None |}.

(** A clock that advances one second per read, from t = 1000000. *)
Definition steadyClock (n : nat) : Z := 1000000 + 1000 * Z.of_nat n.

(** Every request is answered 200 with [fullBody]. *)
Definition sunny : Env Decimal :=
  {| clock := steadyClock; upstream := λ _ _, respond 200 fullBody |}.

(** Every request is answered 200 with [oddBody]. *)
Definition odd : Env Decimal :=
  {| clock := steadyClock; upstream := λ _ _, respond 200 oddBody |}.

(** What fetchWeatherData(10.001, 20) returns under [odd] in the cached
    revision, on [emptyState]. *)
Definition oddObservation : WeatherData Decimal :=
  {| latitude := Milli 10001; longitude := Milli 20000;
     temperature := JStr "N/A"; windSpeed := JNum (Milli 12000);
     windDirection := JNum (Milli 0); humidity := JNum (Milli 0);
     pressure := JNum (Milli 0); timestamp := Some 1000000 |}.

(** Every request is answered 200 with [bareBody]. *)
Definition bare : Env Decimal :=
  {| clock := steadyClock; upstream := λ _ _, respond 200 bareBody |}.

(** Every request is answered 429 with Retry-After: 60. *)
Definition limited : Env Decimal :=
  {| clock := steadyClock;
     upstream := λ _ _, Responded {| status := 429; json := Throw SyntaxError;
                                      retryAfter := Some 60; remaining := None |} |}.

(** The first request times out, the others are answered 200. *)
Definition flaky : Env Decimal :=
  {| clock := steadyClock;
     upstream := λ n _, match n with
                        | O => FetchRejected AbortError
                        | _ => respond 200 fullBody
                        end |}.

(** The world after fetchWeatherData(10.001, 20) on [emptyState] under
    [sunny], and the entry that call stored. *)
Definition warmState : State Decimal :=
  (WeatherApiCached.fetchWeatherData sunny (Milli 10001) (Milli 20000) emptyState).2.

Definition warmEntry : CacheEntry Decimal :=
  {| data := {| latitude := Milli 10001; longitude := Milli 20000;
                temperature := JNum (Milli 21500); windSpeed := JNum (Milli 12000);
                windDirection := JNum (Milli 270000); humidity := JNum (Milli 40000);
                pressure := JNum (Milli 1013000); timestamp := Some 1000000 |};
     expires := 1301000 |}.

(** [warmState] ten minutes of clock reads later: the entry has expired. *)
Definition staleState : State Decimal :=
  {| weatherCache := weatherCache warmState; ticks := 600;
     requests := requests warmState |}.

Definition at_ (lat lon : Z) : Position Decimal :=
  {| pos_latitude := Milli lat; pos_longitude := Milli lon |}.

(** (10.001, 20), (10.004, 20), (30, 40): the first two share "10.00,20.00". *)
Definition threePositions : list (Position Decimal) :=
  [at_ 10001 20000; at_ 10004 20000; at_ 30000 40000].
End Examples.


(** ** The revision that looks up the first twenty positions only

    An earlier revision of weatherApi.ts (in part_001 of the unnamed
    sources): its [fetchWeatherData] is the uncached one above, its loop has
    no callback and runs over [positions.slice(0, 20)]. *)
Module WeatherApiLimited.
Section Revision.
Context {number : Type} {NUM : JSNumber number}.
Variable env : Env number.

Definition fetchWeatherForPositions (positions : list (Position number))
    (maxConcurrent : nat) (s : State number) : option (Outcome number) :=
  let limitedPositions := Batch.slice positions 0 20 in
  p ← Batch.loop (WeatherApi.beginFetch env) WeatherApi.resumeFetch limitedPositions
        maxConcurrent false (length limitedPositions) 0
        {| Batch.weatherMap := ∅; Batch.delivered := []; Batch.settled := [];
           Batch.world := s |};
  Some {| result := Batch.weatherMap p; callbacks := Batch.delivered p;
          lookups := Batch.settled p; final := Batch.world p |}.
End Revision.
End WeatherApiLimited.

(** ** Comparing numbers

    constellationApi.ts also asks whether a number is NaN and compares
    numbers with integer literals.  [num_leb a b] is [a <= b]; [a >= b] is
    [num_leb b a], as both are false when either side is NaN. *)
Class JSOrder (number : Type) := {
  num_isNaN : number → bool;
  num_leb : number → number → bool;
  num_ofZ : Z → number
}.

(** str.padStart(targetLength, pad) for a pad of one character *)
Definition padStart (targetLength : nat) (pad : Ascii.ascii) (str : string) : string :=
  String.string_of_list_ascii (replicate (targetLength - String.length str) pad) +:+ str.

(** A stable sort, as Array.prototype.sort is: [x] goes in front of the
    first element it does not compare greater than. *)
Fixpoint insertSorted {A : Type} (compare : A → A → Z) (x : A) (l : list A) : list A :=
  match l with
  | [] => [x]
  | y :: rest => if compare x y <=? 0 then x :: l else y :: insertSorted compare x rest
  end.

Definition sortBy {A : Type} (compare : A → A → Z) (l : list A) : list A :=
  foldr (insertSorted compare) [] l.

(** ** src/services/constellationApi.ts *)
Module ConstellationApi.
Section Client.
Context {number : Type} {NUM : JSNumber number} {ORD : JSOrder number}.

(** interface BalloonPosition; [timestamp] is a number of hours. *)
Record BalloonPosition := {
  latitude : number;
  longitude : number;
  altitude : number;
  timestamp : nat
}.

(** interface ConstellationData; [takenAt] is its [timestamp: Date], in
    milliseconds. *)
Record ConstellationData := {
  hour : nat;
  positions : list BalloonPosition;
  takenAt : Z
}.

(** typeof v === 'number' && !isNaN(v) && v >= lo && v <= hi *)
Definition within (v : JSValue number) (lo hi : Z) : bool :=
  match v with
  | JNum n => negb (num_isNaN n) && num_leb (num_ofZ lo) n && num_leb n (num_ofZ hi)
  | _ => false
  end.

Definition isValidPosition (arr : JSValue number) : bool :=
  match arr with
  | JArr items =>
    if negb (length items =? 3)%nat then false else
    match items with
    | [lat; lon; alt] =>
      within lat (-90) 90 && within lon (-180) 180 && within alt (-500) 50000
    | _ => false
    end
  | _ => false
  end.

(** The arrow function given to [map]: it destructures an array of three
    numbers; on anything else there is no BalloonPosition to build. *)
Definition toBalloon (hoursAgo : nat) (arr : JSValue number) : option BalloonPosition :=
  match arr with
  | JArr [JNum lat; JNum lon; JNum alt] =>
    Some {| latitude := lat; longitude := lon; altitude := alt; timestamp := hoursAgo |}
  | _ => None
  end.

Definition parseConstellationResponse (data : JSValue number) (hoursAgo : nat)
  : list BalloonPosition :=
  match data with
  | JArr items => omap (toBalloon hoursAgo) (filter (λ v, isValidPosition v = true) items)
  | _ => []
  end.

(** '/.netlify/functions/constellation?hour=' + hoursAgo *)
Definition proxyUrl (hoursAgo : nat) : string :=
  "/.netlify/functions/constellation?hour=" +:+ pretty hoursAgo.

(** `https://a.windbornesystems.com/treasure/${String(hoursAgo).padStart(2, '0')}.json` *)
Definition directUrl (hoursAgo : nat) : string :=
  "https://a.windbornesystems.com/treasure/" +:+ padStart 2 "0"%char (pretty hoursAgo)
  +:+ ".json".

(** The network and the clock as this module sees them.  A call of
    [fetchConstellationHour] or of [fetchConstellationHistory] asks for a
    URL at most once, so the answer is a function of the URL. *)
Record Web := {
  answerOf : string → FetchOutcome number;
  timeAt : nat → Z
}.

(** The URLs asked for so far and the number of clock reads so far. *)
Record Session := {
  asked : list string;
  reads : nat
}.

Definition ask (web : Web) (url : string) (st : Session)
  : FetchOutcome number * Session :=
  (answerOf web url, {| asked := asked st ++ [url]; reads := reads st |}).

(** What is left of the try block once a response is at hand. *)
Definition readPositions (hoursAgo : nat) (response : Response number)
  : Completion (list BalloonPosition) :=
  if negb (ok response) then Normal [] else
  data ← json response;
  Normal (parseConstellationResponse data hoursAgo).

(** The try block from the point where the first [await fetch(url)] has
    ended: a 404 from the proxy sends the call to the direct URL. *)
Definition afterProxy (web : Web) (hoursAgo : nat) (o : FetchOutcome number)
    (st : Session) : Completion (list BalloonPosition) * Session :=
  match o with
  | FetchRejected e => (Throw e, st)
  | Responded response =>
    if negb (ok response) && (status response =? 404) then
      let '(o2, st1) := ask web (directUrl hoursAgo) st in
      match o2 with
      | FetchRejected e => (Throw e, st1)
      | Responded response2 => (readPositions hoursAgo response2, st1)
      end
    else (readPositions hoursAgo response, st)
  end.

(** [fetchConstellationHour] up to its first [await] ... *)
Definition beginHour (web : Web) (hoursAgo : nat) (st : Session)
  : FetchOutcome number * Session :=
  ask web (proxyUrl hoursAgo) st.

(** ... and the rest of it; the catch block logs and returns []. *)
Definition resumeHour (web : Web) (hoursAgo : nat) (o : FetchOutcome number)
    (st : Session) : Completion (list BalloonPosition) * Session :=
  tryCatch (afterProxy web hoursAgo o st) [].

(** An awaited call of [fetchConstellationHour(hoursAgo)]. *)
Definition fetchConstellationHour (web : Web) (hoursAgo : nat) (st : Session)
  : Completion (list BalloonPosition) * Session :=
  let '(o, st1) := beginHour web hoursAgo st in
  resumeHour web hoursAgo o st1.

Fixpoint mapW {A B : Type} (f : A → Session → B * Session) (l : list A) (st : Session)
  : list B * Session :=
  match l with
  | [] => ([], st)
  | a :: rest =>
    let '(b, st1) := f a st in
    let '(bs, st2) := mapW f rest st1 in
    (b :: bs, st2)
  end.

(** The arrow function given to [hours.map], after its [await]: a
    rejection of [fetchConstellationHour] would reject the whole entry. *)
Definition finishHour (web : Web) (started : nat * FetchOutcome number) (st : Session)
  : Completion ConstellationData * Session :=
  let '(h, o) := started in
  let '(c, st1) := resumeHour web h o st in
  match c with
  | Throw e => (Throw e, st1)
  | Normal found =>
    (Normal {| hour := h; positions := found;
               takenAt := timeAt web (reads st1) - Z.of_nat h * 60 * 60 * 1000 |},
     {| asked := asked st1; reads := S (reads st1) |})
  end.

(** Promise.all: the first rejection in array order, or all values. *)
Fixpoint allOf {A : Type} (settled : list (Completion A)) : Completion (list A) :=
  match settled with
  | [] => Normal []
  | Normal a :: rest => rest' ← allOf rest; Normal (a :: rest')
  | Throw e :: _ => Throw e
  end.

(** [fetchConstellationHistory()].  All twenty-four calls start before any
    of them continues; they continue here in the order of their hours. *)
Definition fetchConstellationHistory (web : Web) (st : Session)
  : Completion (list ConstellationData) * Session :=
  let hours := seq 0 24 in
  let '(started, st1) := mapW (λ h st, let '(o, st') := beginHour web h st in ((h, o), st'))
                              hours st in
  let '(settled, st2) := mapW (finishHour web) started st1 in
  (results ← allOf settled;
   Normal (sortBy (λ a b, Z.of_nat (hour a) - Z.of_nat (hour b))
                  (filter (λ d, 0 < length (positions d))%nat results)),
   st2).
End Client.
End ConstellationApi.

Arguments ConstellationApi.BalloonPosition : clear implicits.
Arguments ConstellationApi.ConstellationData : clear implicits.
Arguments ConstellationApi.Web : clear implicits.

(** ** The Netlify functions (part_000 of the unnamed sources) *)
Module NetlifyFunctions.
Section Handlers.
Context {number : Type} {NUM : JSNumber number}.

(** parseInt(string, 10): the integer read, or [None] for NaN.  Only its
    comparison with 0 and 23 and, within that range, its decimal notation
    are used. *)
Variable parseInt : string → option Z.

(** The part of the event the handlers read. *)
Record Event := {
  httpMethod : string;
  queryStringParameters : option (gmap string string)
}.

(** A response body: JSON.stringify of an error object or of the data
    relayed, or the empty string. *)
Inductive Body :=
| ErrorBody (error : string)
| DataBody (data : JSValue number)
| EmptyBody.

(** What a handler returns; [headers] is empty where the code gives none. *)
Record Reply := {
  statusCode : Z;
  headers : gmap string string;
  body : Body
}.

(** The upstream response as a handler reads it. *)
Record Upstream := {
  up_status : Z;
  up_json : Completion (JSValue number);
  up_header : string → option string
}.

Inductive UpstreamOutcome :=
| UpstreamRejected (e : JSError)
| UpstreamResponded (r : Upstream).

(** response.ok *)
Definition up_ok (r : Upstream) : bool := (200 <=? up_status r) && (up_status r <=? 299).

(** event.queryStringParameters?.name, as a JavaScript value that is a
    string or undefined *)
Definition param (event : Event) (name : string) : option string :=
  params ← queryStringParameters event; params !! name.

(** ToBoolean of a string or undefined *)
Definition present (v : option string) : bool :=
  match v with
  | Some s => negb (String.eqb s "")
  | None => false
  end.

Definition corsJson : gmap string string :=
  <["Content-Type" := "application/json"]>
    (<["Access-Control-Allow-Origin" := "*"]> ∅).

(** netlify/functions/constellation.js.  The handler makes at most one
    request; the second component is its URL when it makes one. *)
Definition constellationHandler (fetch : string → UpstreamOutcome) (event : Event)
  : Reply * option string :=
  if negb (String.eqb (httpMethod event) "GET") then
    ({| statusCode := 405; headers := ∅; body := ErrorBody "Method not allowed" |}, None)
  else
    let hour := if present (param event "hour") then default "00" (param event "hour")
                else "00" in
    match parseInt hour with
    | None =>
      ({| statusCode := 400; headers := corsJson;
          body := ErrorBody "Invalid hour. Must be 0-23" |}, None)
    | Some hourNum =>
      if (hourNum <? 0) || (23 <? hourNum) then
        ({| statusCode := 400; headers := corsJson;
            body := ErrorBody "Invalid hour. Must be 0-23" |}, None)
      else
        let url := "https://a.windbornesystems.com/treasure/"
                   +:+ padStart 2 "0"%char (pretty hourNum) +:+ ".json" in
        (match fetch url with
         | UpstreamRejected _ =>
           {| statusCode := 500; headers := corsJson;
              body := ErrorBody "Internal server error" |}
         | UpstreamResponded response =>
           if negb (up_ok response) then
             {| statusCode := up_status response; headers := corsJson;
                body := ErrorBody "Failed to fetch constellation data" |}
           else
             match up_json response with
             | Throw _ =>
               {| statusCode := 500; headers := corsJson;
                  body := ErrorBody "Internal server error" |}
             | Normal data =>
               {| statusCode := 200; headers := corsJson; body := DataBody data |}
             end
         end, Some url)
    end.

(** if (response.headers.get(name)) headers[name] = response.headers.get(name) *)
Definition forward (response : Upstream) (name : string) (headers : gmap string string)
  : gmap string string :=
  if present (up_header response name)
  then <[name := default "" (up_header response name)]> headers
  else headers.

Definition weatherUrl (latitude longitude : string) : string :=
  "https://api.open-meteo.com/v1/forecast?latitude=" +:+ latitude +:+ "&longitude="
  +:+ longitude
  +:+ "&current=temperature_2m,relative_humidity_2m,wind_speed_10m,wind_direction_10m,surface_pressure&timezone=auto".

(** netlify/functions/weather.js *)
Definition weatherHandler (fetch : string → UpstreamOutcome) (event : Event)
  : Reply * option string :=
  if String.eqb (httpMethod event) "OPTIONS" then
    ({| statusCode := 200;
        headers := <["Access-Control-Allow-Methods" := "GET, OPTIONS"]>
                     (<["Access-Control-Allow-Headers" := "Content-Type"]>
                        (<["Access-Control-Allow-Origin" := "*"]> ∅));
        body := EmptyBody |}, None)
  else if negb (String.eqb (httpMethod event) "GET") then
    ({| statusCode := 405; headers := <["Access-Control-Allow-Origin" := "*"]> ∅;
        body := ErrorBody "Method not allowed" |}, None)
  else
    let latitude := param event "latitude" in
    let longitude := param event "longitude" in
    if negb (present latitude) || negb (present longitude) then
      ({| statusCode := 400; headers := <["Access-Control-Allow-Origin" := "*"]> ∅;
          body := ErrorBody "Missing latitude or longitude" |}, None)
    else
      let url := weatherUrl (default "" latitude) (default "" longitude) in
      let failure :=
        {| statusCode := 500; headers := <["Access-Control-Allow-Origin" := "*"]> ∅;
           body := ErrorBody "Failed to fetch weather data" |} in
      (match fetch url with
       | UpstreamRejected _ => failure
       | UpstreamResponded response =>
         match up_json response with
         | Throw _ => failure
         | Normal data =>
           {| statusCode := up_status response;
              headers := forward response "X-RateLimit-Reset"
                           (forward response "X-RateLimit-Remaining"
                              (forward response "Retry-After" corsJson));
              body := DataBody data |}
         end
       end, Some url).
End Handlers.
End NetlifyFunctions.

Arguments NetlifyFunctions.Reply : clear implicits.
Arguments NetlifyFunctions.Body : clear implicits.
Arguments NetlifyFunctions.Upstream : clear implicits.
Arguments NetlifyFunctions.UpstreamOutcome : clear implicits.

(** ** src/App.tsx, the revision with the rate-limit popup (the first of
    the two stored under that name): the effect that loads the weather.
    Its [getWeather] goes on to a nearest-match search over the keys of the
    map, which is arithmetic on parsed floating-point numbers in the
    iteration order of a Map; it is not embedded. *)
Module App.
Section Component.
Context {number : Type} {NUM : JSNumber number}.

(** The updater given to [setWeatherData] in the callback:
    [new Map(prev)] followed by [batchData.forEach((value, key) =>
    updated.set(key, value))]. *)
Definition mergeBatch (prev batchData : gmap string (WeatherData number))
  : gmap string (WeatherData number) :=
  map_fold (λ key value updated, <[key := value]> updated) prev batchData.

(** [loadWeather] of the effect on [currentData]: the state is reset to an
    empty map, then every payload of the callback is merged into it, in the
    order of the calls.  [None] if fetchWeatherForPositions never
    returns. *)
Definition loadWeather (env : Env number)
    (positions : list (ConstellationApi.BalloonPosition number)) (s : State number)
  : option (gmap string (WeatherData number) * State number) :=
  out ← WeatherApiCached.fetchWeatherForPositions env
          ((λ p, {| pos_latitude := ConstellationApi.latitude p;
                    pos_longitude := ConstellationApi.longitude p |}) <$> positions)
          20 true s;
  Some (foldl mergeBatch ∅ (callbacks out), final out).

End Component.
End App.

(** ** src/App.tsx, the revision without the rate-limit popup (the second
    stored under that name): [loadWeather] asks for batches of ten and
    [getWeather] looks up the exact key only.  The sources do not say which
    revision of weatherApi.ts this one was written against, so the imported
    [fetchWeatherForPositions] is a parameter. *)
Module AppExact.
Section Component.
Context {number : Type} {NUM : JSNumber number}.
Variable fetchWeatherForPositions :
  list (Position number) → nat → bool → State number → option (Outcome number).

(** [loadWeather]: the same effect as in the other revision but for the
    batch size; the updater given to [setWeatherData] is the same text. *)
Definition loadWeather (positions : list (ConstellationApi.BalloonPosition number))
    (s : State number) : option (gmap string (WeatherData number) * State number) :=
  out ← fetchWeatherForPositions
          ((λ p, {| pos_latitude := ConstellationApi.latitude p;
                    pos_longitude := ConstellationApi.longitude p |}) <$> positions)
          10 true s;
  Some (foldl App.mergeBatch ∅ (callbacks out), final out).

(** [getWeather]: [weatherData.get(key) || null]; an observation is an
    object and so truthy. *)
Definition getWeather (weatherData : gmap string (WeatherData number))
    (position : ConstellationApi.BalloonPosition number) : option (WeatherData number) :=
  weatherData !! positionKey (ConstellationApi.latitude position)
                             (ConstellationApi.longitude position).
End Component.
End AppExact.

(** ** More concrete inputs *)
Module MoreExamples.
Import Examples.

Global Instance decimal_order : JSOrder Decimal := {|
  num_isNaN := λ _, false;
  num_leb := λ x y, let 'Milli a := x in let 'Milli b := y in a <=? b;
  num_ofZ := λ n, Milli (1000 * n)
|}.

(** [[10.5, 20.25, 12000], [95, 0, 100], "x", [30, 40, 50000]] *)
Definition treasure : JSValue Decimal :=
  JArr [JArr [JNum (Milli 10500); JNum (Milli 20250); JNum (Milli 12000000)];
        JArr [JNum (Milli 95000); JNum (Milli 0); JNum (Milli 100000)];
        JStr "x";
        JArr [JNum (Milli 30000); JNum (Milli 40000); JNum (Milli 50000000)]].

Definition answer (code : Z) (body : JSValue Decimal) : FetchOutcome Decimal :=
  Responded {| status := code; json := Normal body;
               retryAfter := None; remaining := None |}.

(** The proxy knows hour 0 only; the direct URL knows hour 1 as well. *)
Definition patchy : ConstellationApi.Web Decimal :=
  {| ConstellationApi.answerOf := λ url,
       if String.eqb url "/.netlify/functions/constellation?hour=0"
       then answer 200 treasure
       else if String.eqb url "https://a.windbornesystems.com/treasure/01.json"
       then answer 200 treasure
       else answer 404 JNull;
     ConstellationApi.timeAt := steadyClock |}.

Definition freshSession : ConstellationApi.Session :=
  {| ConstellationApi.asked := []; ConstellationApi.reads := 0 |}.

(** A decimal parseInt for strings of ASCII digits, NaN on anything else. *)
Fixpoint digitsValue (acc : Z) (s : string) : option Z :=
  match s with
  | EmptyString => Some acc
  | String c rest =>
    let code := Z.of_nat (Ascii.nat_of_ascii c) in
    if (48 <=? code) && (code <=? 57) then digitsValue (10 * acc + (code - 48)) rest
    else None
  end.

Definition parseDigits (s : string) : option Z :=
  match s with
  | EmptyString => None
  | _ => digitsValue 0 s
  end.

Definition getEvent (params : list (string * string)) : NetlifyFunctions.Event :=
  {| NetlifyFunctions.httpMethod := "GET";
     NetlifyFunctions.queryStringParameters := Some (list_to_map params) |}.

(** An upstream that answers 429 with Retry-After: 60 and an empty
    X-RateLimit-Remaining. *)
Definition throttled (url : string) : NetlifyFunctions.UpstreamOutcome Decimal :=
  NetlifyFunctions.UpstreamResponded
    {| NetlifyFunctions.up_status := 429;
       NetlifyFunctions.up_json := Normal (JObj [("error", JBool true)]);
       NetlifyFunctions.up_header := λ name,
         if String.eqb name "Retry-After" then Some "60"
         else if String.eqb name "X-RateLimit-Remaining" then Some ""
         else None |}.
End MoreExamples.

(** ** Notions used in the statements below *)
Section Notions.
Context {number : Type} {NUM : JSNumber number}.

(** The request [fetchWeatherData] makes for a position. *)
Definition requestOf (pos : Position number) : Request number :=
  {| req_latitude := pos_latitude pos; req_longitude := pos_longitude pos |}.

(** Every entry of the cache lies under the key of the coordinates of its
    own observation. *)
Definition wellKeyed (cache : gmap string (CacheEntry number)) : Prop :=
  ∀ key entry, cache !! key = Some entry →
    positionKey (latitude (data entry)) (longitude (data entry)) = key.

(** The [current] of an answer on which fetchWeatherData builds an
    observation: the response has a success status, its body can be read
    and the [current] of the body is truthy.  [None] for every other
    answer. *)
Definition success (o : FetchOutcome number) : option (JSValue number) :=
  match o with
  | Responded r =>
    if ok r then
      match json r with
      | Normal body =>
        match member body "current" with
        | Normal current => if truthy current then Some current else None
        | Throw _ => None
        end
      | Throw _ => None
      end
    else None
  | FetchRejected _ => None
  end.

(** The observation [w] has the coordinates of [pos] and, as its five
    measurements, those of [current] with zero for the falsy ones. *)
Definition builtFrom (w : WeatherData number) (pos : Position number)
    (current : JSValue number) : Prop :=
  latitude w = pos_latitude pos ∧ longitude w = pos_longitude pos ∧
  ∀ name field, (name, field) ∈ measurements →
    ∃ v, member current name = Normal v ∧ field w = orZero v.

(** The array a BalloonPosition was read from. *)
Definition toTriple (p : ConstellationApi.BalloonPosition number) : JSValue number :=
  JArr [JNum (ConstellationApi.latitude p); JNum (ConstellationApi.longitude p);
        JNum (ConstellationApi.altitude p)].
End Notions.

(** * Properties *)

(** ** A single call of fetchWeatherData *)
Section SingleFetch.
Context {number : Type} {NUM : JSNumber number}.
Variable env : Env number.

Implicit Types (s : State number) (lat lon : number) (o : FetchOutcome number).

(** The uncached revision never touches the world after the request. *)
Lemma uncached_afterFetch_state lat lon o s :
  (WeatherApi.afterFetch lat lon o s).2 = s.
Proof.
  unfold WeatherApi.afterFetch.
  repeat case_match; reflexivity.
Qed.

(** Whatever the upstream does, the try/catch turns it into a value. *)
Lemma uncached_resumeFetch_normal lat lon (t : Task number) s :
  ∃ w, WeatherApi.resumeFetch lat lon t s = (Normal w, s).
Proof.
  destruct t as [w|o]; simpl; [by eexists|].
  pose proof (uncached_afterFetch_state lat lon o s) as Hs.
  destruct (WeatherApi.afterFetch lat lon o s) as [[w|e] s']; simpl in *; subst;
    by eexists.
Qed.

Lemma cached_resumeFetch_normal lat lon (t : Task number) s :
  ∃ w s', WeatherApiCached.resumeFetch env lat lon t s = (Normal w, s').
Proof.
  destruct t as [w|o]; simpl; [by eexists _, _|].
  destruct (WeatherApiCached.afterFetch env lat lon o s) as [[w|e] s']; simpl;
    by eexists _, _.
Qed.

(** The continuation of the cached revision issues no request, and
    changes the cache at most under the key of its own arguments. *)
Lemma cached_afterFetch_requests lat lon o s :
  requests (WeatherApiCached.afterFetch env lat lon o s).2 = requests s.
Proof.
  unfold WeatherApiCached.afterFetch, dateNow.
  repeat case_match; reflexivity.
Qed.

Lemma cached_resumeFetch_requests lat lon (t : Task number) s :
  requests (WeatherApiCached.resumeFetch env lat lon t s).2 = requests s.
Proof.
  destruct t as [w|o]; simpl; [done|].
  rewrite <- (cached_afterFetch_requests lat lon o s).
  by destruct (WeatherApiCached.afterFetch env lat lon o s) as [[w|e] s'].
Qed.

Lemma cached_beginFetch_cache lat lon s :
  weatherCache (WeatherApiCached.beginFetch env lat lon s).2 = weatherCache s.
Proof.
  unfold WeatherApiCached.beginFetch, dateNow, fetch.
  repeat case_match; reflexivity.
Qed.

(** A live entry: the whole call is a cache hit. *)
Lemma cached_hit lat lon s entry :
  weatherCache s !! positionKey lat lon = Some entry →
  clock env (ticks s) < expires entry →
  WeatherApiCached.fetchWeatherData env lat lon s
  = (Normal (Some (data entry)), (dateNow env s).2).
Proof.
  intros Hentry Hlive.
  unfold WeatherApiCached.fetchWeatherData, WeatherApiCached.beginFetch.
  rewrite Hentry. simpl.
  by rewrite bool_decide_eq_true_2.
Qed.

(** No live entry: the call is the request followed by its continuation. *)
Lemma cached_miss lat lon s :
  WeatherApiCached.missed env lat lon s →
  ∃ s1, weatherCache s1 = weatherCache s ∧ requests s1 = requests s ∧
    WeatherApiCached.beginFetch env lat lon s
    = (Awaiting (upstream env (length (requests s))
                   {| req_latitude := lat; req_longitude := lon |}),
       (fetch env {| req_latitude := lat; req_longitude := lon |} s1).2).
Proof.
  intros Hmiss. unfold WeatherApiCached.beginFetch.
  destruct (weatherCache s !! positionKey lat lon) as [entry|] eqn:Hentry.
  - specialize (Hmiss entry Hentry). simpl.
    rewrite bool_decide_eq_false_2 by lia.
    by eexists (dateNow env s).2.
  - by exists s.
Qed.

(** What [buildWeather] yields: the arguments as coordinates, and each
    measurement as [v || 0]. *)
Lemma buildWeather_inv lat lon (current : JSValue number) fields :
  buildWeather lat lon current = Normal fields →
  latitude fields = lat ∧ longitude fields = lon ∧
  ∀ name field, (name, field) ∈ measurements →
    ∃ v, member current name = Normal v ∧ field fields = orZero v.
Proof.
  unfold buildWeather. intros Hb.
  destruct (member current "temperature_2m") as [t|] eqn:Ht; [|done].
  destruct (member current "wind_speed_10m") as [ws|] eqn:Hws; [|done].
  destruct (member current "wind_direction_10m") as [wd|] eqn:Hwd; [|done].
  destruct (member current "relative_humidity_2m") as [h|] eqn:Hh; [|done].
  destruct (member current "surface_pressure") as [p|] eqn:Hp; [|done].
  simpl in Hb. injection Hb as <-. simpl.
  split_and!; [done..|].
  intros name field Hin. unfold measurements in Hin.
  repeat (apply elem_of_cons in Hin as [[= -> ->]|Hin]; [by eexists|]).
  by apply elem_of_nil in Hin.
Qed.

Lemma buildWeather_truthy lat lon (current : JSValue number) :
  truthy current = true → ∃ fields, buildWeather lat lon current = Normal fields.
Proof.
  intros Ht. unfold buildWeather.
  destruct current; try done; simpl; by eexists.
Qed.

(** The only way the continuation of the cached revision yields an
    observation: it stamps the fields it built and stores them. *)
Lemma cached_resume_some lat lon o s w s1 :
  WeatherApiCached.resumeFetch env lat lon (Awaiting o) s = (Normal (Some w), s1) →
  ∃ fields,
    w = withTimestamp fields (clock env (ticks s)) ∧
    latitude fields = lat ∧ longitude fields = lon ∧
    s1 = cacheSet (positionKey lat lon)
           {| data := w;
              expires := clock env (S (ticks s)) + WeatherApiCached.CACHE_TTL |}
           (dateNow env (dateNow env s).2).2.
Proof.
  unfold WeatherApiCached.resumeFetch, WeatherApiCached.afterFetch.
  destruct o as [e|r]; [done|].
  destruct (status r =? 429); [done|].
  destruct (negb (ok r)); [done|].
  destruct (json r) as [body|]; [|done].
  destruct (member body "current") as [current|]; [|done].
  destruct (negb (truthy current)); [done|].
  destruct (buildWeather lat lon current) as [fields|] eqn:Hb; [|done].
  simpl. intros [= <- <-].
  apply buildWeather_inv in Hb as (? & ? & _).
  by exists fields.
Qed.

(** The value the continuation yields depends on the clock and on the
    answer, not on what the cache holds. *)
Lemma cached_resume_cache_blind lat lon (t : Task number) s s' :
  ticks s = ticks s' →
  (WeatherApiCached.resumeFetch env lat lon t s).1
  = (WeatherApiCached.resumeFetch env lat lon t s').1.
Proof.
  intros Hticks. destruct t as [w|o]; [done|].
  unfold WeatherApiCached.resumeFetch, WeatherApiCached.afterFetch.
  destruct o as [e|r]; [done|].
  destruct (status r =? 429); [done|].
  destruct (negb (ok r)); [done|].
  destruct (json r) as [body|]; [|done].
  destruct (member body "current") as [current|]; [|done].
  destruct (negb (truthy current)); [done|].
  destruct (buildWeather lat lon current) as [fields|]; [|done].
  simpl. by rewrite Hticks.
Qed.

(** C2: for every cache entry, a call of the single-position fetch for
    the entry's key made strictly before the entry's expiry returns the
    cached observation and issues no request; a call made at or after the
    expiry issues a request, and what it returns no longer depends on the
    entry (any other expired entry in its place gives the same value). *)
Theorem cache_entry_served_until_expiry lat lon s entry :
  weatherCache s !! positionKey lat lon = Some entry →
  let now := clock env (ticks s) in
  let call := WeatherApiCached.fetchWeatherData env lat lon s in
  (now < expires entry →
     call.1 = Normal (Some (data entry)) ∧ requests call.2 = requests s) ∧
  (expires entry ≤ now →
     requests call.2
     = requests s ++ [{| req_latitude := lat; req_longitude := lon |}] ∧
     ∀ other, expires other ≤ now →
       (WeatherApiCached.fetchWeatherData env lat lon
          (cacheSet (positionKey lat lon) other s)).1 = call.1).
Proof.
  intros Hentry now call. split.
  - intros Hlive. subst call. by rewrite (cached_hit _ _ _ _ Hentry Hlive).
  - intros Hstale. subst call.
    unfold WeatherApiCached.fetchWeatherData at 1.
    unfold WeatherApiCached.beginFetch. rewrite Hentry. simpl.
    rewrite bool_decide_eq_false_2 by (subst now; lia).
    split.
    + by rewrite cached_resumeFetch_requests.
    + intros other Hother.
      unfold WeatherApiCached.fetchWeatherData, WeatherApiCached.beginFetch.
      rewrite Hentry. simpl. rewrite lookup_insert_eq.
      rewrite !bool_decide_eq_false_2 by (subst now; lia).
      by apply cached_resume_cache_blind.
Qed.

(** C6: two calls of the single-position fetch for the same position, the
    first one a miss that succeeds, the second one made before the entry
    stored by the first expires: both return the same observation and one
    request is issued in total. *)
Theorem repeated_fetch_served_from_cache lat lon s w s1 stored :
  WeatherApiCached.missed env lat lon s →
  WeatherApiCached.fetchWeatherData env lat lon s = (Normal (Some w), s1) →
  weatherCache s1 !! positionKey lat lon = Some stored →
  clock env (ticks s1) < expires stored →
  ∃ s2,
    WeatherApiCached.fetchWeatherData env lat lon s1 = (Normal (Some w), s2) ∧
    requests s2 = requests s ++ [{| req_latitude := lat; req_longitude := lon |}] ∧
    expires stored = clock env (pred (ticks s1)) + WeatherApiCached.CACHE_TTL.
Proof.
  intros Hmiss Hfirst Hstored Hlive.
  destruct (cached_miss lat lon s Hmiss) as (s0 & _ & Hreq & Hbegin).
  unfold WeatherApiCached.fetchWeatherData in Hfirst.
  rewrite Hbegin in Hfirst.
  apply cached_resume_some in Hfirst as (fields & Hw & _ & _ & Hs1).
  assert (stored = {| data := w;
                      expires := clock env (pred (ticks s1))
                                 + WeatherApiCached.CACHE_TTL |}) as ->.
  { rewrite Hs1 in Hstored. simpl in Hstored.
    rewrite lookup_insert_eq in Hstored. injection Hstored as <-.
    by rewrite Hs1. }
  eexists. rewrite (cached_hit _ _ _ _ Hstored Hlive). simpl.
  split_and!; [done| |done].
  rewrite Hs1. simpl. by rewrite Hreq.
Qed.

(** C9, amended: an observation the uncached revision returns carries the
    coordinates of the call.  In the cached revision that holds for a call
    that finds no live entry; a call that finds one returns the entry's
    observation as it was stored. *)
Theorem returned_coordinates lat lon s w :
  (WeatherApiCached.fetchWeatherData env lat lon s).1 = Normal (Some w) →
  (WeatherApiCached.missed env lat lon s → latitude w = lat ∧ longitude w = lon) ∧
  (∀ entry, weatherCache s !! positionKey lat lon = Some entry →
            clock env (ticks s) < expires entry → w = data entry) ∧
  (∀ w', (WeatherApi.fetchWeatherData env lat lon s).1 = Normal (Some w') →
         latitude w' = lat ∧ longitude w' = lon).
Proof.
  intros Hcall. split_and!.
  - intros Hmiss.
    destruct (cached_miss lat lon s Hmiss) as (s0 & _ & _ & Hbegin).
    unfold WeatherApiCached.fetchWeatherData in Hcall. rewrite Hbegin in Hcall.
    destruct (WeatherApiCached.resumeFetch _ _ _ _ _) as [c s2] eqn:Hres.
    simpl in Hcall. subst c.
    apply cached_resume_some in Hres as (fields & -> & <- & <- & _).
    done.
  - intros entry Hentry Hlive.
    rewrite (cached_hit _ _ _ _ Hentry Hlive) in Hcall. by injection Hcall.
  - intros w'. unfold WeatherApi.fetchWeatherData, WeatherApi.beginFetch. simpl.
    unfold WeatherApi.afterFetch.
    destruct (upstream _ _ _) as [e|r]; [done|].
    destruct (negb (ok r)); [done|].
    destruct (json r) as [body|]; [|done].
    destruct (member body "current") as [current|]; [|done].
    destruct (negb (truthy current)); [done|].
    destruct (buildWeather lat lon current) as [fields|] eqn:Hb; [|done].
    simpl. intros [= <-].
    by apply buildWeather_inv in Hb as (? & ? & _).
Qed.

Lemma measurement_withTimestamp name (field : WeatherData number → JSValue number)
    fields t :
  (name, field) ∈ measurements → field (withTimestamp fields t) = field fields.
Proof.
  unfold measurements. intros Hin.
  repeat (apply elem_of_cons in Hin as [[= -> ->]|Hin]; [done|]).
  by apply elem_of_nil in Hin.
Qed.

(** C10: a response with a success status whose body has no truthy
    [current] (in particular none at all) makes fetchWeatherData return
    null and leaves the cache as it was, in both revisions. *)
Theorem missing_current_is_absent lat lon s r body :
  ok r = true →
  json r = Normal body →
  (∀ current, member body "current" = Normal current → truthy current = false) →
  (∀ s1, WeatherApiCached.beginFetch env lat lon s = (Awaiting (Responded r), s1) →
         WeatherApiCached.fetchWeatherData env lat lon s = (Normal None, s1) ∧
         weatherCache s1 = weatherCache s) ∧
  (∀ s1, WeatherApi.beginFetch env lat lon s = (Awaiting (Responded r), s1) →
         WeatherApi.fetchWeatherData env lat lon s = (Normal None, s1) ∧
         weatherCache s1 = weatherCache s).
Proof.
  intros Hok Hjson Hcurrent.
  assert ((status r =? 429) = false) as H429.
  { unfold ok in Hok. apply andb_true_iff in Hok as [_ Hle]. lia. }
  split; intros s1 Hbegin.
  - split; [|by rewrite <- (cached_beginFetch_cache lat lon s), Hbegin].
    unfold WeatherApiCached.fetchWeatherData. rewrite Hbegin. simpl.
    unfold WeatherApiCached.afterFetch. rewrite H429, Hok, Hjson. simpl.
    destruct (member body "current") as [current|] eqn:Hm; [|done].
    by rewrite (Hcurrent current eq_refl).
  - split; [|by injection Hbegin as _ <-].
    unfold WeatherApi.fetchWeatherData. rewrite Hbegin. simpl.
    unfold WeatherApi.afterFetch. rewrite Hok, Hjson. simpl.
    destruct (member body "current") as [current|] eqn:Hm; [|done].
    by rewrite (Hcurrent current eq_refl).
Qed.

(** C7, amended: when the body of a successful response has a truthy
    [current], both revisions return an observation, and each of its five
    measurements is the value [v] of the property in [current] if [v] is
    truthy and zero otherwise (so zero when the property is missing, null,
    0, NaN, false or the empty string). *)
Theorem measurements_default_to_zero lat lon s r body current :
  ok r = true →
  json r = Normal body →
  member body "current" = Normal current →
  truthy current = true →
  let parsed (w : WeatherData number) :=
    ∀ name field, (name, field) ∈ measurements →
      ∃ v, member current name = Normal v ∧
           field w = if truthy v then v else JNum num_zero in
  (∀ s1, WeatherApiCached.beginFetch env lat lon s = (Awaiting (Responded r), s1) →
         ∃ w s2, WeatherApiCached.fetchWeatherData env lat lon s
                 = (Normal (Some w), s2) ∧ parsed w) ∧
  (∀ s1, WeatherApi.beginFetch env lat lon s = (Awaiting (Responded r), s1) →
         ∃ w, WeatherApi.fetchWeatherData env lat lon s = (Normal (Some w), s1) ∧
              parsed w).
Proof.
  intros Hok Hjson Hm Hcurrent parsed.
  assert ((status r =? 429) = false) as H429.
  { unfold ok in Hok. apply andb_true_iff in Hok as [_ Hle]. lia. }
  destruct (buildWeather_truthy lat lon current Hcurrent) as [fields Hb].
  pose proof (buildWeather_inv _ _ _ _ Hb) as (_ & _ & Hfields).
  split; intros s1 Hbegin.
  - unfold WeatherApiCached.fetchWeatherData. rewrite Hbegin. simpl.
    unfold WeatherApiCached.afterFetch.
    rewrite H429, Hok, Hjson, Hm, Hcurrent, Hb. simpl.
    eexists _, _. split; [done|].
    intros name field Hin. rewrite (measurement_withTimestamp name field) by done.
    exact (Hfields name field Hin).
  - unfold WeatherApi.fetchWeatherData. rewrite Hbegin. simpl.
    unfold WeatherApi.afterFetch.
    rewrite Hok, Hjson, Hm, Hcurrent, Hb. simpl.
    eexists. split; [done|]. exact Hfields.
Qed.
End SingleFetch.

(** The theorems above at concrete inputs. *)
Import Examples.

(** What one call makes of the answers the upstream can give. *)
Example answer_500 :
  WeatherApiCached.resumeFetch sunny (Milli 10001) (Milli 20000)
    (Awaiting (respond 500 fullBody)) emptyState = (Normal None, emptyState).
Proof. reflexivity. Qed.

Example answer_timeout :
  WeatherApiCached.resumeFetch sunny (Milli 10001) (Milli 20000)
    (Awaiting (FetchRejected AbortError)) emptyState = (Normal None, emptyState).
Proof. reflexivity. Qed.

Example answer_not_json :
  WeatherApiCached.resumeFetch sunny (Milli 10001) (Milli 20000)
    (Awaiting (Responded {| status := 200; json := Throw SyntaxError;
                            retryAfter := None; remaining := None |}))
    emptyState = (Normal None, emptyState).
Proof. reflexivity. Qed.

Example answer_null_body :
  WeatherApiCached.resumeFetch sunny (Milli 10001) (Milli 20000)
    (Awaiting (respond 200 JNull)) emptyState = (Normal None, emptyState).
Proof. reflexivity. Qed.

Example answer_full :
  WeatherApiCached.fetchWeatherData sunny (Milli 10001) (Milli 20000) emptyState
  = (Normal (Some (data warmEntry)),
     {| weatherCache := {["10.00,20.00" := warmEntry]}; ticks := 2;
        requests := [{| req_latitude := Milli 10001; req_longitude := Milli 20000 |}] |}).
Proof. reflexivity. Qed.

Lemma cache_entry_served_until_expiry_witness :
  weatherCache warmState !! positionKey (Milli 10004) (Milli 20000) = Some warmEntry ∧
  (WeatherApiCached.fetchWeatherData sunny (Milli 10004) (Milli 20000) warmState).1
  = Normal (Some (data warmEntry)) ∧
  requests (WeatherApiCached.fetchWeatherData sunny (Milli 10004) (Milli 20000)
              staleState).2
  = requests staleState ++ [{| req_latitude := Milli 10004; req_longitude := Milli 20000 |}].
Proof.
  assert (weatherCache warmState !! positionKey (Milli 10004) (Milli 20000)
          = Some warmEntry) as Hentry by (vm_compute; reflexivity).
  destruct (cache_entry_served_until_expiry sunny (Milli 10004) (Milli 20000)
              warmState warmEntry Hentry) as [Hlive _].
  destruct (cache_entry_served_until_expiry sunny (Milli 10004) (Milli 20000)
              staleState warmEntry Hentry) as [_ Hstale].
  split_and!.
  - exact Hentry.
  - apply Hlive. reflexivity.
  - apply Hstale. discriminate.
Defined.

Lemma repeated_fetch_served_from_cache_witness :
  WeatherApiCached.missed sunny (Milli 10001) (Milli 20000) emptyState ∧
  ∃ s2,
    WeatherApiCached.fetchWeatherData sunny (Milli 10001) (Milli 20000) warmState
    = (Normal (Some (data warmEntry)), s2) ∧
    requests s2 = [{| req_latitude := Milli 10001; req_longitude := Milli 20000 |}] ∧
    expires warmEntry = clock sunny (pred (ticks warmState)) + WeatherApiCached.CACHE_TTL.
Proof.
  assert (WeatherApiCached.missed sunny (Milli 10001) (Milli 20000) emptyState) as Hmiss.
  { intros entry Hentry. vm_compute in Hentry. discriminate. }
  split; [exact Hmiss|].
  apply (repeated_fetch_served_from_cache sunny (Milli 10001) (Milli 20000)
           emptyState (data warmEntry) warmState warmEntry Hmiss).
  - vm_compute; reflexivity.
  - vm_compute; reflexivity.
  - vm_compute; reflexivity.
Defined.

Lemma returned_coordinates_witness :
  (WeatherApiCached.fetchWeatherData sunny (Milli 10004) (Milli 20000) warmState).1
  = Normal (Some (data warmEntry)) ∧
  (∀ entry,
     weatherCache warmState !! positionKey (Milli 10004) (Milli 20000) = Some entry →
     clock sunny (ticks warmState) < expires entry → data warmEntry = data entry).
Proof.
  assert ((WeatherApiCached.fetchWeatherData sunny (Milli 10004) (Milli 20000)
             warmState).1 = Normal (Some (data warmEntry))) as Hcall
    by (vm_compute; reflexivity).
  split; [exact Hcall|].
  apply (returned_coordinates sunny (Milli 10004) (Milli 20000) warmState
           (data warmEntry) Hcall).
Defined.

(** C9 as stated fails in the cached revision: after fetchWeatherData(10.001,
    20) has filled the cache, fetchWeatherData(10.004, 20) returns an
    observation whose latitude is 10.001. *)
Lemma returned_coordinates_counterexample :
  ¬ (∀ (env : Env Decimal) lat lon s w,
       (WeatherApiCached.fetchWeatherData env lat lon s).1 = Normal (Some w) →
       latitude w = lat ∧ longitude w = lon).
Proof.
  intros Hclaim.
  destruct (Hclaim sunny (Milli 10004) (Milli 20000) warmState (data warmEntry))
    as [Hlat _].
  - vm_compute; reflexivity.
  - discriminate Hlat.
Qed.

Lemma missing_current_is_absent_witness :
  ok {| status := 200; json := Normal bareBody; retryAfter := None; remaining := None |}
  = true ∧
  WeatherApiCached.fetchWeatherData bare (Milli 10001) (Milli 20000) emptyState
  = (Normal None,
     (WeatherApiCached.beginFetch bare (Milli 10001) (Milli 20000) emptyState).2) ∧
  weatherCache (WeatherApiCached.beginFetch bare (Milli 10001) (Milli 20000)
                  emptyState).2 = weatherCache emptyState.
Proof.
  split; [reflexivity|].
  apply (missing_current_is_absent bare (Milli 10001) (Milli 20000) emptyState
           {| status := 200; json := Normal bareBody;
              retryAfter := None; remaining := None |} bareBody).
  - reflexivity.
  - reflexivity.
  - intros current Hm. vm_compute in Hm. injection Hm as <-. reflexivity.
  - reflexivity.
Defined.

Lemma measurements_default_to_zero_witness :
  truthy (JObj [("temperature_2m", JStr "N/A");
                ("wind_speed_10m", JNum (Milli 12000))] : JSValue Decimal) = true ∧
  ∃ w s2,
    WeatherApiCached.fetchWeatherData odd (Milli 10001) (Milli 20000) emptyState
    = (Normal (Some w), s2) ∧
    ∀ name field, (name, field) ∈ measurements →
      ∃ v, member (JObj [("temperature_2m", JStr "N/A");
                         ("wind_speed_10m", JNum (Milli 12000))]) name = Normal v ∧
           field w = if truthy v then v else JNum num_zero.
Proof.
  split; [reflexivity|].
  destruct (measurements_default_to_zero odd (Milli 10001) (Milli 20000) emptyState
              {| status := 200; json := Normal oddBody;
                 retryAfter := None; remaining := None |} oddBody
              (JObj [("temperature_2m", JStr "N/A");
                     ("wind_speed_10m", JNum (Milli 12000))]))
    as [Hcached _]; [reflexivity..|].
  exact (Hcached _ eq_refl).
Defined.

(** C7 as stated fails: a measurement that is present but not a number,
    here the string "N/A", is not replaced by zero. *)
Lemma measurements_default_to_zero_counterexample :
  ¬ (∀ (env : Env Decimal) lat lon s r body current v w,
       (WeatherApiCached.beginFetch env lat lon s).1 = Awaiting (Responded r) →
       ok r = true →
       json r = Normal body →
       member body "current" = Normal current →
       member current "temperature_2m" = Normal v →
       (∀ n, v ≠ JNum n) →
       (WeatherApiCached.fetchWeatherData env lat lon s).1 = Normal (Some w) →
       temperature w = JNum num_zero).
Proof.
  intros Hclaim.
  specialize (Hclaim odd (Milli 10001) (Milli 20000) emptyState
                {| status := 200; json := Normal oddBody;
                   retryAfter := None; remaining := None |}
                oddBody
                (JObj [("temperature_2m", JStr "N/A");
                       ("wind_speed_10m", JNum (Milli 12000))])
                (JStr "N/A") oddObservation).
  discriminate Hclaim; try reflexivity.
  intros n. discriminate.
Qed.

Example odd_run :
  WeatherApi.fetchWeatherData odd (Milli 10001) (Milli 20000) emptyState
  = (Normal (Some {| latitude := Milli 10001; longitude := Milli 20000;
                     temperature := JStr "N/A"; windSpeed := JNum (Milli 12000);
                     windDirection := JNum (Milli 0); humidity := JNum (Milli 0);
                     pressure := JNum (Milli 0); timestamp := None |}),
     {| weatherCache := ∅; ticks := 0;
        requests := [{| req_latitude := Milli 10001; req_longitude := Milli 20000 |}] |}).
Proof. reflexivity. Qed.

(** ** The batch loop, for any [fetchWeatherData] *)
Local Close Scope Z_scope.

Lemma ceilDiv_zero m : ceilDiv 0 m = 0.
Proof.
  unfold ceilDiv. destruct m as [|m]; [done|].
  apply Nat.div_small. lia.
Qed.

Lemma ceilDiv_step n m : 0 < m → 0 < n → ceilDiv n m = S (ceilDiv (n - m) m).
Proof.
  intros Hm Hn. unfold ceilDiv.
  destruct (decide (n ≤ m)) as [Hle|Hgt].
  - replace (n - m + m - 1) with (m - 1) by lia.
    rewrite (Nat.div_small (m - 1)) by lia.
    replace (n + m - 1) with (n - 1 + 1 * m) by lia.
    rewrite Nat.div_add by lia.
    rewrite Nat.div_small by lia. done.
  - replace (n + m - 1) with (n - m + m - 1 + 1 * m) by lia.
    rewrite Nat.div_add by lia. lia.
Qed.

(** [ceilDiv] is the ceiling of the quotient. *)
Lemma ceilDiv_spec n m : 0 < m → m * (ceilDiv n m) < n + m ∧ n ≤ m * ceilDiv n m.
Proof.
  intros Hm. unfold ceilDiv.
  pose proof (Nat.div_mod_eq (n + m - 1) m) as Heq.
  pose proof (Nat.mod_upper_bound (n + m - 1) m) as Hlt.
  lia.
Qed.

Lemma NoDup_fmap_eq {A B : Type} (f : A → B) (l : list A) x y :
  NoDup (f <$> l) → x ∈ l → y ∈ l → f x = f y → x = y.
Proof.
  induction l as [|a l IH]; intros Hnd Hx Hy Hf; [by apply elem_of_nil in Hx|].
  rewrite fmap_cons in Hnd. apply NoDup_cons in Hnd as [Hnotin Hnd].
  apply elem_of_cons in Hx as [->|Hx]; apply elem_of_cons in Hy as [->|Hy].
  - done.
  - destruct Hnotin. rewrite Hf. by apply list_elem_of_fmap_2.
  - destruct Hnotin. rewrite <- Hf. by apply list_elem_of_fmap_2.
  - by apply IH.
Qed.

Lemma NoDup_concat_chunk {A B : Type} (f : A → B) (chunks : list (list A))
    j1 j2 c1 c2 x1 x2 :
  NoDup (f <$> concat chunks) →
  chunks !! j1 = Some c1 → chunks !! j2 = Some c2 →
  x1 ∈ c1 → x2 ∈ c2 → f x1 = f x2 → j1 = j2.
Proof.
  revert j1 j2. induction chunks as [|c chunks IH]; intros j1 j2 Hnd H1 H2 Hx1 Hx2 Hf;
    [done|].
  simpl in Hnd. rewrite fmap_app in Hnd.
  apply NoDup_app in Hnd as (_ & Hdisj & Hnd).
  assert (∀ j c' x, chunks !! j = Some c' → x ∈ c' → f x ∈ f <$> concat chunks) as Hin.
  { intros j c' x Hj Hx. apply list_elem_of_fmap_2.
    apply list_elem_of_In, in_concat. exists c'.
    split; apply list_elem_of_In; [by eapply list_elem_of_lookup_2|done]. }
  destruct j1 as [|j1], j2 as [|j2]; simpl in *; simplify_eq.
  - done.
  - destruct (Hdisj (f x1)); [by apply list_elem_of_fmap_2|].
    rewrite Hf. by eapply Hin.
  - destruct (Hdisj (f x2)); [by apply list_elem_of_fmap_2|].
    rewrite <- Hf. by eapply Hin.
  - f_equal. by eapply IH.
Qed.

Lemma filter_absent {A B : Type} `{EqDecision B} (f : A → B) (l : list A) k :
  k ∉ f <$> l → filter (λ x, f x = k) l = [].
Proof.
  induction l as [|a l IH]; intros Hk; [done|].
  rewrite fmap_cons in Hk. apply not_elem_of_cons in Hk as [Hne Hk].
  rewrite filter_cons_False by done. by apply IH.
Qed.

Lemma NoDup_filter_le_1 {A B : Type} `{EqDecision B} (f : A → B) (l : list A) k :
  NoDup (f <$> l) → length (filter (λ x, f x = k) l) ≤ 1.
Proof.
  induction l as [|a l IH]; intros Hnd; [simpl; lia|].
  rewrite fmap_cons in Hnd. apply NoDup_cons in Hnd as [Hnotin Hnd].
  rewrite filter_cons. case_decide as Ha; [|by apply IH].
  subst k. rewrite filter_absent by done. simpl. lia.
Qed.

Section BatchProperties.
Context {number : Type} {NUM : JSNumber number}.
Variable beginFetch : number → number → State number → Task number * State number.
Variable resumeFetch : number → number → Task number → State number →
                       Completion (option (WeatherData number)) * State number.

Local Abbreviation startOne := (Batch.startOne beginFetch).
Local Abbreviation finishOne := (Batch.finishOne resumeFetch).
Local Abbreviation genuine := (Batch.genuine beginFetch resumeFetch).
Local Abbreviation iteration := (Batch.iteration beginFetch resumeFetch).
Local Abbreviation loop := (Batch.loop beginFetch resumeFetch).

Implicit Types (lk : Batch.Lookup number) (p : Batch.Progress number)
  (s : State number) (l batch : list (Position number)).

(** *** One batch *)

Lemma mapS_startOne batch s :
  (Batch.mapS startOne batch s).1.*1 = batch ∧
  Forall (λ started, ∃ s', started.2
            = (beginFetch (pos_latitude started.1) (pos_longitude started.1) s').1)
         (Batch.mapS startOne batch s).1.
Proof.
  revert s. induction batch as [|pos batch IH]; intros s; [done|].
  simpl. unfold Batch.startOne at 1 3.
  destruct (beginFetch _ _ s) as [task s1] eqn:Hb.
  specialize (IH s1). destruct (Batch.mapS startOne batch s1) as [tasks s2].
  simpl in *. destruct IH as [IH1 IH]. split; [f_equal; exact IH1|].
  constructor; [|done]. exists s. simpl. by rewrite Hb.
Qed.

Lemma mapS_finishOne (tasks : list (Position number * Task number)) s :
  Forall (λ started, ∃ s', started.2
            = (beginFetch (pos_latitude started.1) (pos_longitude started.1) s').1)
         tasks →
  Batch.lk_position <$> (Batch.mapS finishOne tasks s).1 = tasks.*1 ∧
  Forall genuine (Batch.mapS finishOne tasks s).1.
Proof.
  revert s. induction tasks as [|[pos task] tasks IH]; intros s Hall; [done|].
  apply Forall_cons in Hall as [Hbegin Hall].
  simpl. destruct (resumeFetch _ _ task s) as [c s1] eqn:Hr.
  specialize (IH s1 Hall). destruct (Batch.mapS finishOne tasks s1) as [lks s2].
  simpl in *. destruct IH as [IH1 IH]. split; [f_equal; exact IH1|].
  constructor; [|done]. split; simpl; [done|].
  exists s. by rewrite Hr.
Qed.

Lemma iteration_spec l M cb i p :
  ∃ lookups,
    Batch.lk_position <$> lookups = take M (drop i l) ∧
    Forall genuine lookups ∧
    Batch.weatherMap (iteration l M cb i p)
    = foldl Batch.collect (Batch.weatherMap p) (Batch.lk_result <$> lookups) ∧
    Batch.delivered (iteration l M cb i p)
    = (if cb then Batch.delivered p ++ [Batch.payload lookups] else Batch.delivered p) ∧
    Batch.settled (iteration l M cb i p) = Batch.settled p ++ lookups.
Proof.
  unfold Batch.iteration, Batch.slice.
  replace (i + M - i) with M by lia.
  pose proof (mapS_startOne (take M (drop i l)) (Batch.world p)) as [Hpos Hbegin].
  destruct (Batch.mapS startOne _ _) as [tasks s1]. simpl in *.
  pose proof (mapS_finishOne tasks s1 Hbegin) as [Hpos' Hgen].
  destruct (Batch.mapS finishOne _ _) as [lookups s2]. simpl in *.
  exists lookups. by rewrite Hpos', Hpos.
Qed.

(** *** The loop *)

Lemma loop_terminates l M cb fuel i p :
  0 < M → length l - i ≤ fuel → is_Some (loop l M cb fuel i p).
Proof.
  intros HM. revert i p. induction fuel as [|fuel IH]; intros i p Hfuel; simpl.
  - rewrite bool_decide_eq_false_2 by lia. by eexists.
  - case_bool_decide; [|by eexists]. apply IH. lia.
Qed.

Lemma loop_count l M cb fuel i p p' :
  0 < M → loop l M cb fuel i p = Some p' →
  length (Batch.delivered p')
  = length (Batch.delivered p) + (if cb then ceilDiv (length l - i) M else 0).
Proof.
  intros HM. revert i p. induction fuel as [|fuel IH]; intros i p; simpl.
  - case_bool_decide as Hi; [done|]. intros [= <-].
    replace (length l - i) with 0 by lia. rewrite ceilDiv_zero. by destruct cb; lia.
  - case_bool_decide as Hi.
    + intros Hloop. rewrite (IH _ _ Hloop).
      destruct (iteration_spec l M cb i p) as (lookups & _ & _ & _ & -> & _).
      destruct cb; [|done].
      rewrite length_app. simpl.
      rewrite (ceilDiv_step (length l - i) M) by lia.
      replace (length l - (i + M)) with (length l - i - M) by lia. lia.
    + intros [= <-].
      replace (length l - i) with 0 by lia. rewrite ceilDiv_zero. by destruct cb; lia.
Qed.

(** With maxConcurrent = 0 the index never moves: on a non-empty list no
    amount of fuel ends the loop. *)
Lemma loop_zero_diverges l cb fuel p :
  0 < length l → loop l 0 cb fuel 0 p = None.
Proof.
  intros Hl. revert p. induction fuel as [|fuel IH]; intros p; simpl;
    rewrite bool_decide_eq_true_2 by done; [done|apply IH].
Qed.

(** What the loop keeps true: the payloads are the batch maps of
    consecutive pieces of the list of lookups, [weatherMap] is what all
    lookups together collect to, and the lookups are those of the
    positions processed so far, in order. *)
Lemma loop_trace l M cb fuel i p p' chunks :
  loop l M cb fuel i p = Some p' →
  Batch.settled p = concat chunks →
  Batch.delivered p = (if cb then Batch.payload <$> chunks else []) →
  Batch.weatherMap p = Batch.payload (Batch.settled p) →
  Batch.lk_position <$> Batch.settled p = take i l →
  Forall genuine (Batch.settled p) →
  ∃ chunks',
    Batch.settled p' = concat chunks' ∧
    Batch.delivered p' = (if cb then Batch.payload <$> chunks' else []) ∧
    Batch.weatherMap p' = Batch.payload (Batch.settled p') ∧
    Batch.lk_position <$> Batch.settled p' = l ∧
    Forall genuine (Batch.settled p').
Proof.
  revert i p chunks.
  induction fuel as [|fuel IH]; intros i p chunks; simpl;
    (case_bool_decide as Hi;
     [|intros [= <-] Hs Hd Hw Hp Hg; exists chunks;
       by rewrite take_ge in Hp by lia]); [done|].
  intros Hloop Hs Hd Hw Hp Hg.
  destruct (iteration_spec l M cb i p) as (lookups & Hpos & Hgen & Hw' & Hd' & Hs').
  apply (IH _ _ (chunks ++ [lookups]) Hloop).
  - rewrite Hs', Hs, concat_app. simpl. by rewrite app_nil_r.
  - rewrite Hd', Hd. destruct cb; [|done]. by rewrite fmap_app.
  - rewrite Hw', Hs', Hw. unfold Batch.payload. by rewrite fmap_app, foldl_app.
  - by rewrite Hs', fmap_app, Hp, Hpos, take_take_drop.
  - rewrite Hs'. by apply Forall_app.
Qed.
End BatchProperties.

Section Payloads.
Context {number : Type} {NUM : JSNumber number}.
Variable beginFetch : number → number → State number → Task number * State number.
Variable resumeFetch : number → number → Task number → State number →
                       Completion (option (WeatherData number)) * State number.

Local Abbreviation genuine := (Batch.genuine beginFetch resumeFetch).
Local Abbreviation loop := (Batch.loop beginFetch resumeFetch).
Local Abbreviation positionOf := (Batch.lk_position (number := number)).

Implicit Types (lk : Batch.Lookup number) (p : Batch.Progress number)
  (s : State number) (l batch : list (Position number))
  (trace : list (Batch.Lookup number)).

(** A lookup that found something found it under the key of its own
    position. *)
Lemma genuine_key lk k w :
  genuine lk → Batch.lk_result lk = Fulfilled (Some (k, w)) →
  k = keyOf (positionOf lk).
Proof.
  intros [_ [s Hr]]. rewrite Hr. unfold Batch.settle.
  destruct (resumeFetch _ _ _ _).1 as [[w'|]|e]; by intros [=].
Qed.

Lemma payload_snoc trace lk :
  Batch.payload (trace ++ [lk])
  = Batch.collect (Batch.payload trace) (Batch.lk_result lk).
Proof. unfold Batch.payload. by rewrite fmap_app, foldl_app. Qed.

(** Every entry of a batch map was found by one of its lookups. *)
Lemma payload_lookup_1 trace k w :
  Batch.payload trace !! k = Some w →
  ∃ lk, lk ∈ trace ∧ Batch.lk_result lk = Fulfilled (Some (k, w)).
Proof.
  induction trace as [|lk trace IH] using rev_ind; [done|].
  rewrite payload_snoc. unfold Batch.collect.
  destruct (Batch.lk_result lk) as [[[k' w']|]|e] eqn:Hres.
  - destruct (decide (k' = k)) as [->|Hne].
    + rewrite lookup_insert_eq. intros [= ->]. exists lk.
      split; [apply elem_of_app; right; by apply list_elem_of_singleton|done].
    + rewrite lookup_insert_ne by done. intros (lk' & Hin & Hres')%IH.
      exists lk'. split; [apply elem_of_app; by left|done].
  - intros (lk' & Hin & Hres')%IH.
    exists lk'. split; [apply elem_of_app; by left|done].
  - intros (lk' & Hin & Hres')%IH.
    exists lk'. split; [apply elem_of_app; by left|done].
Qed.

(** With one lookup per key, whatever a lookup found is in the batch map. *)
Lemma payload_lookup_2 trace lk k w :
  Forall genuine trace →
  NoDup (keyOf ∘ positionOf <$> trace) →
  lk ∈ trace → Batch.lk_result lk = Fulfilled (Some (k, w)) →
  Batch.payload trace !! k = Some w.
Proof.
  induction trace as [|x trace IH] using rev_ind; intros Hgen Hnd Hin Hres;
    [by apply elem_of_nil in Hin|].
  apply Forall_app in Hgen as [Hgen Hx]. rewrite Forall_singleton in Hx.
  rewrite fmap_app in Hnd. apply NoDup_app in Hnd as (Hnd & Hdisj & _).
  rewrite payload_snoc.
  apply elem_of_app in Hin as [Hin| ->%list_elem_of_singleton].
  - specialize (IH Hgen Hnd Hin Hres). unfold Batch.collect.
    destruct (Batch.lk_result x) as [[[k' w']|]|e] eqn:Hresx; [|done..].
    rewrite lookup_insert_ne; [done|]. intros ->.
    apply (Hdisj ((keyOf ∘ positionOf) lk)).
    + by apply (list_elem_of_fmap_2 (keyOf ∘ positionOf)).
    + simpl. rewrite <- (genuine_key lk k w), (genuine_key x k w');
        [by apply list_elem_of_singleton| | | |]; try done.
      by eapply Forall_forall in Hgen.
  - rewrite Hres. simpl. by rewrite lookup_insert_eq.
Qed.

(** *** Requests, when [beginFetch] issues at most the request of its
    arguments and [resumeFetch] none *)
Hypothesis begin_requests : ∀ lat lon s, ∃ issued,
  requests (beginFetch lat lon s).2 = requests s ++ issued ∧
  issued `sublist_of` [{| req_latitude := lat; req_longitude := lon |}].
Hypothesis resume_requests : ∀ lat lon t s,
  requests (resumeFetch lat lon t s).2 = requests s.

Lemma mapS_startOne_requests batch s :
  ∃ issued,
    requests (Batch.mapS (Batch.startOne beginFetch) batch s).2
    = requests s ++ issued ∧
    requestKey <$> issued `sublist_of` keyOf <$> batch.
Proof.
  revert s. induction batch as [|pos batch IH]; intros s; simpl.
  - exists []. by rewrite app_nil_r.
  - unfold Batch.startOne at 1.
    destruct (begin_requests (pos_latitude pos) (pos_longitude pos) s)
      as (first & Hfirst & Hsub).
    destruct (beginFetch _ _ s) as [task s1]. simpl in Hfirst.
    destruct (IH s1) as (others & Hothers & Hsub').
    destruct (Batch.mapS _ batch s1) as [tasks s2]. simpl in *.
    exists (first ++ others). split.
    + by rewrite Hothers, Hfirst, app_assoc.
    + rewrite fmap_app.
      apply (sublist_app _ [keyOf pos]); [|done].
      by apply (fmap_sublist requestKey) in Hsub.
Qed.

Lemma mapS_finishOne_requests (tasks : list (Position number * Task number)) s :
  requests (Batch.mapS (Batch.finishOne resumeFetch) tasks s).2 = requests s.
Proof.
  revert s. induction tasks as [|[pos task] tasks IH]; intros s; [done|].
  simpl. pose proof (resume_requests (pos_latitude pos) (pos_longitude pos) task s)
    as Hr.
  destruct (resumeFetch _ _ task s) as [c s1]. simpl in Hr.
  specialize (IH s1). destruct (Batch.mapS _ tasks s1) as [lks s2].
  simpl in *. by rewrite IH.
Qed.

Lemma loop_requests l M cb fuel i p p' :
  loop l M cb fuel i p = Some p' →
  ∃ issued,
    requests (Batch.world p') = requests (Batch.world p) ++ issued ∧
    requestKey <$> issued `sublist_of` keyOf <$> drop i l.
Proof.
  revert i p. induction fuel as [|fuel IH]; intros i p; simpl;
    (case_bool_decide as Hi;
     [|intros [= <-]; exists []; rewrite app_nil_r; split;
       [done|apply sublist_nil_l]]); [done|].
  intros (later & Hlater & Hsub)%IH.
  assert (∃ now_,
    requests (Batch.world (Batch.iteration beginFetch resumeFetch l M cb i p))
    = requests (Batch.world p) ++ now_ ∧
    requestKey <$> now_ `sublist_of` keyOf <$> take M (drop i l))
    as (now_ & Hnow & Hsub').
  { unfold Batch.iteration, Batch.slice. replace (i + M - i) with M by lia.
    destruct (mapS_startOne_requests (take M (drop i l)) (Batch.world p))
      as (now_ & Hnow & Hsub').
    destruct (Batch.mapS (Batch.startOne _) _ _) as [tasks s1]. simpl in Hnow.
    pose proof (mapS_finishOne_requests tasks s1) as Hfin.
    destruct (Batch.mapS (Batch.finishOne _) _ _) as [lks s2]. simpl in *.
    exists now_. by rewrite Hfin. }
  exists (now_ ++ later). split.
  - by rewrite Hlater, Hnow, app_assoc.
  - rewrite fmap_app, <- (take_drop M (drop i l)), fmap_app, drop_drop.
    by apply sublist_app.
Qed.
End Payloads.

(** ** Deduplication and re-expansion in the cached revision *)
Section Dedup.
Context {number : Type} {NUM : JSNumber number}.

Implicit Types (pos : Position number) (positions : list (Position number))
  (unique : list (string * Position number)).

Lemma remember_foldl positions unique :
  NoDup unique.*1 →
  (∀ k pos, (k, pos) ∈ unique → k = keyOf pos) →
  NoDup (foldl WeatherApiCached.remember unique positions).*1 ∧
  (∀ k pos, (k, pos) ∈ foldl WeatherApiCached.remember unique positions →
            k = keyOf pos ∧ ((k, pos) ∈ unique ∨ pos ∈ positions)) ∧
  (∀ k, k ∈ unique.*1 → k ∈ (foldl WeatherApiCached.remember unique positions).*1) ∧
  (∀ pos, pos ∈ positions →
          keyOf pos ∈ (foldl WeatherApiCached.remember unique positions).*1).
Proof.
  revert unique. induction positions as [|a positions IH]; intros unique Hnd Hkey; simpl.
  - split_and!; [done| |done|].
    + intros k pos Hin. split; [by apply Hkey|by left].
    + intros pos Hin. by apply elem_of_nil in Hin.
  - assert (NoDup (WeatherApiCached.remember unique a).*1 ∧
            (∀ k pos, (k, pos) ∈ WeatherApiCached.remember unique a →
                      (k, pos) ∈ unique ∨ (k = keyOf a ∧ pos = a)) ∧
            (∀ k, k ∈ unique.*1 → k ∈ (WeatherApiCached.remember unique a).*1) ∧
            keyOf a ∈ (WeatherApiCached.remember unique a).*1)
      as (Hnd' & Hfrom & Hmono & Ha).
    { unfold WeatherApiCached.remember. case_bool_decide as Hseen.
      - split_and!; [done| |done|done]. intros k pos Hin. by left.
      - split_and!.
        + rewrite fmap_app. apply NoDup_app. split_and!; [done| |apply NoDup_singleton].
          intros k Hk ->%list_elem_of_singleton. done.
        + intros k pos [Hin|[= -> ->]%list_elem_of_singleton]%elem_of_app;
            [by left|by right].
        + intros k Hk. rewrite fmap_app. apply elem_of_app. by left.
        + rewrite fmap_app. apply elem_of_app. right.
          by apply list_elem_of_singleton. }
    destruct (IH (WeatherApiCached.remember unique a)) as (H1 & H2 & H3 & H4).
    { done. }
    { intros k pos [Hin|[-> ->]]%Hfrom; [by apply Hkey|done]. }
    split_and!; [done| | |].
    + intros k pos Hin. destruct (H2 k pos Hin) as [Hk [Hold|Hnew]].
      * split; [done|]. destruct (Hfrom k pos Hold) as [?|[-> ->]];
          [by left|right; by left].
      * split; [done|]. right. by right.
    + intros k Hk. by apply H3, Hmono.
    + intros pos [->|Hin]%elem_of_cons; [by apply H3|by apply H4].
Qed.

Lemma deduplicated_spec positions :
  NoDup (keyOf <$> WeatherApiCached.deduplicated positions) ∧
  (∀ pos, pos ∈ WeatherApiCached.deduplicated positions → pos ∈ positions) ∧
  (∀ pos, pos ∈ positions →
          keyOf pos ∈ keyOf <$> WeatherApiCached.deduplicated positions).
Proof.
  destruct (remember_foldl positions []) as (Hnd & Hkey & _ & Hall).
  { constructor. }
  { intros k pos Hin. by apply elem_of_nil in Hin. }
  unfold WeatherApiCached.deduplicated, WeatherApiCached.uniquePositions.
  assert (keyOf <$> (foldl WeatherApiCached.remember [] positions).*2
          = (foldl WeatherApiCached.remember [] positions).*1) as Hkeys.
  { revert Hkey. generalize (foldl WeatherApiCached.remember [] positions).
    intros unique. induction unique as [|[k pos] unique IH]; intros Hkey; [done|].
    rewrite !fmap_cons. simpl. f_equal.
    - symmetry. apply (Hkey k pos). by left.
    - apply IH. intros k' pos' Hin. apply Hkey. by right. }
  rewrite Hkeys. split_and!; [done| |done].
  intros pos (kp & -> & Hin)%list_elem_of_fmap. destruct kp as [k pos'].
  destruct (Hkey k pos' Hin) as [_ [Hnil|Hpos]]; [by apply elem_of_nil in Hnil|done].
Qed.

(** The last forEach copies exactly the entries of [weatherMap] whose key
    is the key of an input position. *)
Lemma expand_lookup (weatherMap finalMap : gmap string (WeatherData number))
    positions k :
  foldl (WeatherApiCached.expand weatherMap) finalMap positions !! k
  = match weatherMap !! k with
    | Some w => if bool_decide (k ∈ keyOf <$> positions) then Some w
                else finalMap !! k
    | None => finalMap !! k
    end.
Proof.
  revert finalMap. induction positions as [|pos positions IH]; intros finalMap; simpl.
  - by destruct (weatherMap !! k).
  - rewrite IH. unfold WeatherApiCached.expand.
    destruct (weatherMap !! k) as [w|] eqn:Hk.
    + destruct (decide (k = keyOf pos)) as [->|Hne].
      * rewrite Hk, lookup_insert_eq.
        rewrite (bool_decide_eq_true_2 (_ ∈ _ :: _)) by by left.
        by case_bool_decide.
      * assert (∀ m : gmap string (WeatherData number),
                  match weatherMap !! keyOf pos with
                  | Some weather => <[keyOf pos := weather]> m
                  | None => m
                  end !! k = m !! k) as ->.
        { intros m. destruct (weatherMap !! keyOf pos); [|done].
          by rewrite lookup_insert_ne. }
        case_bool_decide as Hin; case_bool_decide as Hin'; try done.
        -- destruct Hin'. by right.
        -- by apply elem_of_cons in Hin' as [?|?].
    + destruct (weatherMap !! keyOf pos) as [w'|] eqn:Hp; [|done].
      rewrite lookup_insert_ne; [done|]. intros <-. congruence.
Qed.
End Dedup.

(** ** Payloads of a run with one lookup per key *)
Section Partition.
Context {number : Type} {NUM : JSNumber number}.
Variable beginFetch : number → number → State number → Task number * State number.
Variable resumeFetch : number → number → Task number → State number →
                       Completion (option (WeatherData number)) * State number.

Local Abbreviation genuine := (Batch.genuine beginFetch resumeFetch).
Local Abbreviation positionOf := (Batch.lk_position (number := number)).

Implicit Types (lk : Batch.Lookup number) (trace : list (Batch.Lookup number))
  (chunks : list (list (Batch.Lookup number))).

Lemma chunk_of_concat chunks c :
  c ∈ chunks →
  Forall genuine (concat chunks) →
  NoDup (keyOf ∘ positionOf <$> concat chunks) →
  Forall genuine c ∧ NoDup (keyOf ∘ positionOf <$> c) ∧ (∀ lk, lk ∈ c → lk ∈ concat chunks).
Proof.
  induction chunks as [|c' chunks IH]; intros Hin Hgen Hnd; [by apply elem_of_nil in Hin|].
  simpl in *. apply Forall_app in Hgen as [Hgen1 Hgen2].
  rewrite fmap_app in Hnd. apply NoDup_app in Hnd as (Hnd1 & _ & Hnd2).
  apply elem_of_cons in Hin as [->|Hin].
  - split_and!; [done..|]. intros lk Hlk. apply elem_of_app. by left.
  - destruct (IH Hin Hgen2 Hnd2) as (? & ? & Hsub).
    split_and!; [done..|]. intros lk Hlk. apply elem_of_app. right. by apply Hsub.
Qed.

Lemma trace_partition trace chunks :
  Forall genuine trace →
  NoDup (keyOf ∘ positionOf <$> trace) →
  trace = concat chunks →
  (∀ k w, Batch.payload trace !! k = Some w ↔
          ∃ m, m ∈ Batch.payload <$> chunks ∧ m !! k = Some w) ∧
  (∀ j1 j2 m1 m2 k,
     (Batch.payload <$> chunks) !! j1 = Some m1 →
     (Batch.payload <$> chunks) !! j2 = Some m2 →
     is_Some (m1 !! k) → is_Some (m2 !! k) → j1 = j2).
Proof.
  intros Hgen Hnd ->. split.
  - intros k w. split.
    + intros (lk & Hin & Hres)%payload_lookup_1.
      apply list_elem_of_In, in_concat in Hin as (c & Hc%list_elem_of_In & Hlk%list_elem_of_In).
      destruct (chunk_of_concat chunks c Hc Hgen Hnd) as (Hgenc & Hndc & _).
      exists (Batch.payload c). split; [by apply list_elem_of_fmap_2|].
      by eapply (payload_lookup_2 beginFetch resumeFetch).
    + intros (m & (c & -> & Hc)%list_elem_of_fmap & Hm).
      destruct (chunk_of_concat chunks c Hc Hgen Hnd) as (_ & _ & Hsub).
      apply payload_lookup_1 in Hm as (lk & Hin & Hres).
      eapply (payload_lookup_2 beginFetch resumeFetch); eauto.
  - intros j1 j2 m1 m2 k H1 H2 [w1 Hw1] [w2 Hw2].
    apply list_lookup_fmap_Some_1 in H1 as (c1 & -> & H1).
    apply list_lookup_fmap_Some_1 in H2 as (c2 & -> & H2).
    apply payload_lookup_1 in Hw1 as (lk1 & Hin1 & Hres1).
    apply payload_lookup_1 in Hw2 as (lk2 & Hin2 & Hres2).
    destruct (chunk_of_concat chunks c1 (list_elem_of_lookup_2 _ _ _ H1) Hgen Hnd)
      as (Hgen1 & _ & _).
    destruct (chunk_of_concat chunks c2 (list_elem_of_lookup_2 _ _ _ H2) Hgen Hnd)
      as (Hgen2 & _ & _).
    apply (NoDup_concat_chunk (keyOf ∘ positionOf) chunks j1 j2 c1 c2 lk1 lk2);
      try done.
    simpl.
    rewrite <- (genuine_key beginFetch resumeFetch lk1 k w1),
            <- (genuine_key beginFetch resumeFetch lk2 k w2); try done.
    + by eapply Forall_forall in Hgen2.
    + by eapply Forall_forall in Hgen1.
Qed.
End Partition.

(** ** A whole run of the loop *)
Section Run.
Context {number : Type} {NUM : JSNumber number}.
Variable beginFetch : number → number → State number → Task number * State number.
Variable resumeFetch : number → number → Task number → State number →
                       Completion (option (WeatherData number)) * State number.
Hypothesis begin_requests : ∀ lat lon s, ∃ issued,
  requests (beginFetch lat lon s).2 = requests s ++ issued ∧
  issued `sublist_of` [{| req_latitude := lat; req_longitude := lon |}].
Hypothesis resume_requests : ∀ lat lon t s,
  requests (resumeFetch lat lon t s).2 = requests s.

Lemma loop_run (l : list (Position number)) M cb (s : State number) :
  0 < M →
  ∃ p,
    Batch.loop beginFetch resumeFetch l M cb (length l) 0
      {| Batch.weatherMap := ∅; Batch.delivered := []; Batch.settled := [];
         Batch.world := s |} = Some p ∧
    Batch.lk_position <$> Batch.settled p = l ∧
    Forall (Batch.genuine beginFetch resumeFetch) (Batch.settled p) ∧
    Batch.weatherMap p = Batch.payload (Batch.settled p) ∧
    (∃ chunks, Batch.settled p = concat chunks ∧
               Batch.delivered p = if cb then Batch.payload <$> chunks else []) ∧
    length (Batch.delivered p) = (if cb then ceilDiv (length l) M else 0) ∧
    (∃ issued, requests (Batch.world p) = requests s ++ issued ∧
               requestKey <$> issued `sublist_of` keyOf <$> l).
Proof.
  intros HM.
  destruct (loop_terminates beginFetch resumeFetch l M cb (length l) 0
              {| Batch.weatherMap := ∅; Batch.delivered := []; Batch.settled := [];
                 Batch.world := s |} HM) as [p Hloop]; [lia|].
  exists p. split; [done|].
  destruct (loop_trace _ _ _ _ _ _ _ _ _ [] Hloop)
    as (chunks & Hs & Hd & Hw & Hp & Hg); try done.
  { by destruct cb. }
  pose proof (loop_count _ _ _ _ _ _ _ _ _ HM Hloop) as Hcount.
  simpl in Hcount. rewrite Nat.sub_0_r in Hcount.
  destruct (loop_requests _ _ begin_requests resume_requests _ _ _ _ _ _ _ Hloop)
    as (issued & Hreq & Hsub).
  split_and!; [done..| | |]; eauto.
Qed.
End Run.

(** ** fetchWeatherForPositions *)
Section BatchFetcher.
Context {number : Type} {NUM : JSNumber number}.
Variable env : Env number.

Local Abbreviation positionOf := (Batch.lk_position (number := number)).
Local Abbreviation genuineCached :=
  (Batch.genuine (WeatherApiCached.beginFetch env) (WeatherApiCached.resumeFetch env)).
Local Abbreviation genuineUncached :=
  (Batch.genuine (WeatherApi.beginFetch env) WeatherApi.resumeFetch).

Implicit Types (s : State number) (lat lon : number) (o : FetchOutcome number)
  (positions : list (Position number)) (lk : Batch.Lookup number).

Lemma cached_begin_requests lat lon s :
  ∃ issued,
    requests (WeatherApiCached.beginFetch env lat lon s).2 = requests s ++ issued ∧
    issued `sublist_of` [{| req_latitude := lat; req_longitude := lon |}].
Proof.
  unfold WeatherApiCached.beginFetch, dateNow, fetch.
  destruct (weatherCache s !! positionKey lat lon) as [cached|]; simpl;
    [case_bool_decide|]; simpl.
  - exists []. rewrite app_nil_r. split; [done|apply sublist_nil_l].
  - by eexists [_].
  - by eexists [_].
Qed.

Lemma uncached_begin_requests lat lon s :
  ∃ issued,
    requests (WeatherApi.beginFetch env lat lon s).2 = requests s ++ issued ∧
    issued `sublist_of` [{| req_latitude := lat; req_longitude := lon |}].
Proof. by eexists [_]. Qed.

Lemma uncached_resume_requests lat lon (t : Task number) s :
  requests (WeatherApi.resumeFetch lat lon t s).2 = requests s.
Proof. destruct (uncached_resumeFetch_normal lat lon t s) as [w ->]. done. Qed.

(** A request that timed out, failed or was answered with a non-success
    status ends in null, with the world untouched. *)
Lemma cached_resume_failed lat lon o s :
  failed o = true →
  WeatherApiCached.resumeFetch env lat lon (Awaiting o) s = (Normal None, s).
Proof.
  unfold WeatherApiCached.resumeFetch, WeatherApiCached.afterFetch, failed.
  destruct o as [e|r]; [done|]. intros ->.
  by destruct (status r =? 429)%Z.
Qed.

Lemma uncached_resume_failed lat lon o s :
  failed o = true →
  WeatherApi.resumeFetch lat lon (Awaiting o) s = (Normal None, s).
Proof.
  unfold WeatherApi.resumeFetch, WeatherApi.afterFetch, failed.
  destruct o as [e|r]; [done|]. by intros ->.
Qed.

Lemma deduplicated_id positions :
  NoDup (keyOf <$> positions) → WeatherApiCached.deduplicated positions = positions.
Proof.
  unfold WeatherApiCached.deduplicated, WeatherApiCached.uniquePositions.
  assert (∀ unique : list (string * Position number),
            NoDup (unique.*1 ++ (keyOf <$> positions)) →
            (foldl WeatherApiCached.remember unique positions).*2
            = unique.*2 ++ positions) as Hgen.
  { induction positions as [|a positions IH]; intros unique Hnd; simpl.
    - by rewrite app_nil_r.
    - unfold WeatherApiCached.remember at 2.
      rewrite bool_decide_eq_false_2.
      + rewrite IH.
        * rewrite fmap_app. simpl. by rewrite <- app_assoc.
        * rewrite fmap_app. simpl. by rewrite <- app_assoc.
      + apply NoDup_app in Hnd as (_ & Hdisj & _). intros Hin.
        apply (Hdisj _ Hin). by left. }
  intros Hnd. by rewrite (Hgen []).
Qed.

(** The deduplicated list has one position per key of the input. *)
Lemma deduplicated_length positions :
  length (WeatherApiCached.deduplicated positions)
  = size (list_to_set (keyOf <$> positions) : gset string).
Proof.
  destruct (deduplicated_spec positions) as (Hnd & Hfrom & Hall).
  rewrite <- (length_fmap keyOf), <- (size_list_to_set (C := gset string)) by done.
  f_equal. apply set_eq. intros k. rewrite !elem_of_list_to_set. split.
  - intros (pos & -> & Hin)%list_elem_of_fmap. by apply list_elem_of_fmap_2, Hfrom.
  - intros (pos & -> & Hin)%list_elem_of_fmap. by apply Hall.
Qed.

Lemma cached_run positions M cb s :
  0 < M →
  ∃ out,
    WeatherApiCached.fetchWeatherForPositions env positions M cb s = Some out ∧
    positionOf <$> lookups out = WeatherApiCached.deduplicated positions ∧
    Forall genuineCached (lookups out) ∧
    NoDup (keyOf ∘ positionOf <$> lookups out) ∧
    result out = Batch.payload (lookups out) ∧
    (∃ chunks, lookups out = concat chunks ∧
               callbacks out = if cb then Batch.payload <$> chunks else []) ∧
    length (callbacks out)
    = (if cb then ceilDiv (length (WeatherApiCached.deduplicated positions)) M else 0) ∧
    (∃ issued, requests (final out) = requests s ++ issued ∧
               NoDup (requestKey <$> issued)).
Proof.
  intros HM. unfold WeatherApiCached.fetchWeatherForPositions.
  destruct (loop_run (WeatherApiCached.beginFetch env) (WeatherApiCached.resumeFetch env)
              cached_begin_requests (cached_resumeFetch_requests env)
              (WeatherApiCached.deduplicated positions) M cb s HM)
    as (p & -> & Hpos & Hgen & Hw & Hchunks & Hcount & issued & Hreq & Hsub).
  destruct (deduplicated_spec positions) as (Hnd & Hfrom & Hall).
  assert (NoDup (keyOf ∘ positionOf <$> Batch.settled p)) as Hnd'.
  { by rewrite list_fmap_compose, Hpos. }
  eexists. split; [done|]. simpl. split_and!; try done.
  - rewrite <- Hw. apply map_eq. intros k. rewrite expand_lookup, lookup_empty.
    destruct (Batch.weatherMap p !! k) as [w|] eqn:Hk; [|done].
    rewrite bool_decide_eq_true_2; [done|].
    rewrite Hw in Hk. apply payload_lookup_1 in Hk as (lk & Hin & Hres).
    rewrite (genuine_key (WeatherApiCached.beginFetch env)
               (WeatherApiCached.resumeFetch env) lk k w); [| |done].
    + apply list_elem_of_fmap_2, Hfrom. rewrite <- Hpos.
      by apply list_elem_of_fmap_2.
    + by eapply Forall_forall in Hgen.
  - exists issued. split; [done|]. exact (sublist_NoDup _ _ Hnd Hsub).
Qed.

Lemma uncached_run positions M cb s :
  0 < M →
  ∃ out,
    WeatherApi.fetchWeatherForPositions env positions M cb s = Some out ∧
    positionOf <$> lookups out = positions ∧
    Forall genuineUncached (lookups out) ∧
    result out = Batch.payload (lookups out) ∧
    (∃ chunks, lookups out = concat chunks ∧
               callbacks out = if cb then Batch.payload <$> chunks else []) ∧
    length (callbacks out) = (if cb then ceilDiv (length positions) M else 0).
Proof.
  intros HM. unfold WeatherApi.fetchWeatherForPositions.
  destruct (loop_run (WeatherApi.beginFetch env) WeatherApi.resumeFetch
              uncached_begin_requests uncached_resume_requests
              positions M cb s HM)
    as (p & -> & Hpos & Hgen & Hw & Hchunks & Hcount & _).
  eexists. split; [done|]. simpl. by split_and!.
Qed.

(** Lookups never reject, and a failed one settles to null. *)
Lemma genuineCached_settles lk :
  genuineCached lk →
  (∀ e, Batch.lk_result lk ≠ Rejected e) ∧
  (∀ o, Batch.lk_task lk = Awaiting o → failed o = true →
        Batch.lk_result lk = Fulfilled None).
Proof.
  intros [_ [s Hr]]. split.
  - intros e. rewrite Hr.
    destruct (cached_resumeFetch_normal env (pos_latitude (positionOf lk))
                (pos_longitude (positionOf lk)) (Batch.lk_task lk) s)
      as (w & s' & ->).
    by destruct w.
  - intros o Ho Hfail. rewrite Hr, Ho. by rewrite cached_resume_failed.
Qed.

Lemma genuineUncached_settles lk :
  genuineUncached lk →
  (∀ e, Batch.lk_result lk ≠ Rejected e) ∧
  (∀ o, Batch.lk_task lk = Awaiting o → failed o = true →
        Batch.lk_result lk = Fulfilled None).
Proof.
  intros [_ [s Hr]]. split.
  - intros e. rewrite Hr.
    destruct (uncached_resumeFetch_normal (pos_latitude (positionOf lk))
                (pos_longitude (positionOf lk)) (Batch.lk_task lk) s) as (w & ->).
    by destruct w.
  - intros o Ho Hfail. rewrite Hr, Ho. by rewrite uncached_resume_failed.
Qed.
End BatchFetcher.

Section Found.
Context {number : Type} {NUM : JSNumber number}.
Variable beginFetch : number → number → State number → Task number * State number.
Variable resumeFetch : number → number → Task number → State number →
                       Completion (option (WeatherData number)) * State number.

Local Abbreviation positionOf := (Batch.lk_position (number := number)).

(** With one lookup per key, the batch map holds under the key of a lookup
    what that lookup found, and nothing if it found nothing. *)
Lemma payload_found (trace : list (Batch.Lookup number)) lk :
  Forall (Batch.genuine beginFetch resumeFetch) trace →
  NoDup (keyOf ∘ positionOf <$> trace) →
  lk ∈ trace →
  Batch.payload trace !! keyOf (positionOf lk) = Batch.found lk.
Proof.
  intros Hgen Hnd Hlk.
  assert (Batch.genuine beginFetch resumeFetch lk) as Hglk
    by (rewrite Forall_forall in Hgen; by apply Hgen).
  destruct (Batch.found lk) as [w|] eqn:Hfound.
  - unfold Batch.found in Hfound.
    destruct (Batch.lk_result lk) as [[[k w']|]|e] eqn:Hres; try done.
    injection Hfound as ->.
    rewrite <- (genuine_key _ _ lk k w Hglk Hres).
    by eapply payload_lookup_2.
  - destruct (Batch.payload trace !! keyOf (positionOf lk)) as [w|] eqn:Hw; [|done].
    apply payload_lookup_1 in Hw as (lk' & Hlk' & Hres').
    assert (Batch.genuine beginFetch resumeFetch lk') as Hglk'
      by (rewrite Forall_forall in Hgen; by apply Hgen).
    pose proof (genuine_key _ _ lk' _ w Hglk' Hres') as Hkey.
    assert (lk' = lk) as ->.
    { by apply (NoDup_fmap_eq (keyOf ∘ positionOf) trace). }
    unfold Batch.found in Hfound. by rewrite Hres' in Hfound.
Qed.
End Found.

(** ** What a lookup waits for *)
Section TaskLog.
Context {number : Type} {NUM : JSNumber number}.
Variable beginFetch : number → number → State number → Task number * State number.
Variable resumeFetch : number → number → Task number → State number →
                       Completion (option (WeatherData number)) * State number.

(** [P] holds of the world throughout; [T] relates a task to the world
    from the moment the task is started and is kept by every later step. *)
Variable P : State number → Prop.
Variable T : State number → Position number → Task number → Prop.

Hypothesis begin_P : ∀ pos s, P s →
  P (beginFetch (pos_latitude pos) (pos_longitude pos) s).2.
Hypothesis resume_P : ∀ pos t s, P s →
  P (resumeFetch (pos_latitude pos) (pos_longitude pos) t s).2.
Hypothesis begin_T : ∀ pos s, P s →
  T (beginFetch (pos_latitude pos) (pos_longitude pos) s).2 pos
    (beginFetch (pos_latitude pos) (pos_longitude pos) s).1.
Hypothesis begin_later : ∀ pos' s pos t, P s → T s pos t →
  T (beginFetch (pos_latitude pos') (pos_longitude pos') s).2 pos t.
Hypothesis resume_later : ∀ pos' t' s pos t, P s → T s pos t →
  T (resumeFetch (pos_latitude pos') (pos_longitude pos') t' s).2 pos t.

Lemma mapS_startOne_log (batch : list (Position number)) s :
  P s →
  P (Batch.mapS (Batch.startOne beginFetch) batch s).2 ∧
  Forall (λ started, T (Batch.mapS (Batch.startOne beginFetch) batch s).2
                       started.1 started.2)
         (Batch.mapS (Batch.startOne beginFetch) batch s).1 ∧
  (∀ pos t, T s pos t → T (Batch.mapS (Batch.startOne beginFetch) batch s).2 pos t).
Proof.
  revert s. induction batch as [|pos batch IH]; intros s HP; [done|].
  simpl.
  pose proof (begin_P pos s HP) as HP1.
  pose proof (begin_T pos s HP) as HT1.
  pose proof (λ pos' t, begin_later pos s pos' t HP) as Hlater1.
  destruct (Batch.startOne beginFetch pos s) as [[pos0 task0] s0] eqn:Hstart.
  unfold Batch.startOne in Hstart.
  destruct (beginFetch _ _ s) as [task s1]. injection Hstart as <- <- <-. simpl in *.
  destruct (IH s1 HP1) as (HP2 & Hall & Hlater2).
  destruct (Batch.mapS _ batch s1) as [tasks s2]. simpl in *.
  split_and!; [done| |].
  - constructor; [by apply Hlater2|done].
  - intros pos' t Ht. apply Hlater2. by apply Hlater1.
Qed.

Lemma mapS_finishOne_log (tasks : list (Position number * Task number)) s :
  P s → Forall (λ started, T s started.1 started.2) tasks →
  P (Batch.mapS (Batch.finishOne resumeFetch) tasks s).2 ∧
  Forall (λ lk, T (Batch.mapS (Batch.finishOne resumeFetch) tasks s).2
                  (Batch.lk_position lk) (Batch.lk_task lk))
         (Batch.mapS (Batch.finishOne resumeFetch) tasks s).1 ∧
  (∀ pos t, T s pos t → T (Batch.mapS (Batch.finishOne resumeFetch) tasks s).2 pos t).
Proof.
  revert s. induction tasks as [|[pos task] tasks IH]; intros s HP Hall; [done|].
  apply Forall_cons in Hall as [Hhead Hall]. simpl in Hhead.
  simpl.
  pose proof (resume_P pos task s HP) as HP1.
  pose proof (λ pos' t, resume_later pos task s pos' t HP) as Hlater1.
  destruct (resumeFetch _ _ task s) as [c s1]. simpl in *.
  destruct (IH s1 HP1) as (HP2 & Hall2 & Hlater2).
  { eapply Forall_impl; [exact Hall|]. intros started. by apply Hlater1. }
  destruct (Batch.mapS _ tasks s1) as [lks s2]. simpl in *.
  split_and!; [done| |].
  - constructor; [|done]. simpl. apply Hlater2. by apply Hlater1.
  - intros pos' t Ht. apply Hlater2. by apply Hlater1.
Qed.

Lemma loop_log l M cb fuel i p p' :
  P (Batch.world p) →
  Forall (λ lk, T (Batch.world p) (Batch.lk_position lk) (Batch.lk_task lk))
         (Batch.settled p) →
  Batch.loop beginFetch resumeFetch l M cb fuel i p = Some p' →
  P (Batch.world p') ∧
  Forall (λ lk, T (Batch.world p') (Batch.lk_position lk) (Batch.lk_task lk))
         (Batch.settled p').
Proof.
  revert i p. induction fuel as [|fuel IH]; intros i p HP HT; simpl;
    (case_bool_decide; [|by intros [= <-]]); [done|].
  assert (P (Batch.world (Batch.iteration beginFetch resumeFetch l M cb i p)) ∧
          Forall (λ lk, T (Batch.world (Batch.iteration beginFetch resumeFetch l M cb i p))
                          (Batch.lk_position lk) (Batch.lk_task lk))
                 (Batch.settled (Batch.iteration beginFetch resumeFetch l M cb i p)))
    as [HP' HT']; [|by apply IH].
  unfold Batch.iteration.
  destruct (mapS_startOne_log (Batch.slice l i (i + M)) (Batch.world p) HP)
    as (HP1 & Hall1 & Hlater1).
  destruct (Batch.mapS (Batch.startOne _) _ _) as [tasks s1]. simpl in *.
  destruct (mapS_finishOne_log tasks s1 HP1 Hall1) as (HP2 & Hall2 & Hlater2).
  destruct (Batch.mapS (Batch.finishOne _) _ _) as [lks s2]. simpl in *.
  split; [done|]. apply Forall_app. split; [|done].
  eapply Forall_impl; [exact HT|]. intros lk Hlk. apply Hlater2. by apply Hlater1.
Qed.
End TaskLog.

Section CachedLog.
Context {number : Type} {NUM : JSNumber number}.
Variable env : Env number.

(** On an answer with a truthy [current] the continuation of the cached
    revision returns an observation with the coordinates of the call and
    the measurements of that [current]. *)
Lemma cached_resume_success lat lon (o : FetchOutcome number) current s :
  success o = Some current →
  ∃ w s',
    WeatherApiCached.resumeFetch env lat lon (Awaiting o) s = (Normal (Some w), s') ∧
    latitude w = lat ∧ longitude w = lon ∧
    ∀ name field, (name, field) ∈ measurements →
      ∃ v, member current name = Normal v ∧ field w = orZero v.
Proof.
  unfold success. destruct o as [e|r]; [done|].
  destruct (ok r) eqn:Hok; [|done].
  destruct (json r) as [body|] eqn:Hjson; [|done].
  destruct (member body "current") as [c|] eqn:Hm; [|done].
  destruct (truthy c) eqn:Hc; [|done]. intros [= ->].
  assert ((status r =? 429)%Z = false) as H429.
  { unfold ok in Hok. apply andb_true_iff in Hok as [_ Hle]. lia. }
  destruct (buildWeather_truthy lat lon current Hc) as [fields Hb].
  pose proof (buildWeather_inv _ _ _ _ Hb) as (Hlat & Hlon & Hfields).
  unfold WeatherApiCached.resumeFetch, WeatherApiCached.afterFetch.
  rewrite H429, Hok, Hjson, Hm, Hc, Hb. simpl.
  eexists _, _. split_and!; [done..|].
  intros name field Hin. rewrite (measurement_withTimestamp name field) by done.
  exact (Hfields name field Hin).
Qed.

(** On every other answer it returns null. *)
Lemma cached_resume_no_success lat lon (o : FetchOutcome number) s :
  success o = None →
  (WeatherApiCached.resumeFetch env lat lon (Awaiting o) s).1 = Normal None.
Proof.
  unfold success, WeatherApiCached.resumeFetch, WeatherApiCached.afterFetch.
  destruct o as [e|r]; [done|].
  destruct (status r =? 429)%Z; [done|].
  destruct (ok r); [|done]. simpl.
  destruct (json r) as [body|]; [|done].
  destruct (member body "current") as [current|]; [|done].
  by destruct (truthy current).
Qed.

(** A task of the cached revision that waits for an answer waits for the
    answer to a request of its own position, and that request is in the
    log from then on, behind the requests made before the run. *)
Lemma cached_loop_logged (l : list (Position number)) M cb fuel p (s : State number) :
  Batch.loop (WeatherApiCached.beginFetch env) (WeatherApiCached.resumeFetch env)
    l M cb fuel 0
    {| Batch.weatherMap := ∅; Batch.delivered := []; Batch.settled := [];
       Batch.world := s |} = Some p →
  Forall (λ lk, ∀ o, Batch.lk_task lk = Awaiting o →
            ∃ n, length (requests s) ≤ n ∧
                 requests (Batch.world p) !! n = Some (requestOf (Batch.lk_position lk)) ∧
                 o = upstream env n (requestOf (Batch.lk_position lk)))
         (Batch.settled p).
Proof.
  intros Hloop.
  apply (loop_log (WeatherApiCached.beginFetch env) (WeatherApiCached.resumeFetch env)
           (λ s', length (requests s) ≤ length (requests s'))
           (λ s' pos t, ∀ o, t = Awaiting o →
              ∃ n, length (requests s) ≤ n ∧
                   requests s' !! n = Some (requestOf pos) ∧
                   o = upstream env n (requestOf pos))) in Hloop; [by destruct Hloop| | | | | |done|done].
  - intros pos s' Hs'.
    destruct (cached_begin_requests env (pos_latitude pos) (pos_longitude pos) s')
      as (issued & -> & _). rewrite length_app. lia.
  - intros pos t s' Hs'. by rewrite cached_resumeFetch_requests.
  - intros pos s' Hs' o. unfold WeatherApiCached.beginFetch, dateNow, fetch.
    destruct (weatherCache s' !! _) as [cached|]; simpl; [case_bool_decide|]; simpl;
      [done| |]; intros [= <-]; exists (length (requests s'));
      (split_and!; [done| |done]); by rewrite lookup_app_r, Nat.sub_diag by lia.
  - intros pos' s' pos t Hs' Ht o Ho. destruct (Ht o Ho) as (n & Hn & Hreq & ->).
    exists n. split_and!; [done| |done].
    destruct (cached_begin_requests env (pos_latitude pos') (pos_longitude pos') s')
      as (issued & -> & _).
    rewrite lookup_app_l; [done|]. by eapply lookup_lt_Some.
  - intros pos' t' s' pos t Hs' Ht o Ho. rewrite cached_resumeFetch_requests.
    by apply Ht.
Qed.
End CachedLog.

Section BatchClaims.
Context {number : Type} {NUM : JSNumber number}.
Variable env : Env number.

Local Abbreviation positionOf := (Batch.lk_position (number := number)).

Implicit Types (s : State number) (positions : list (Position number))
  (lk : Batch.Lookup number).

(** C8: on an empty list fetchWeatherForPositions returns the empty map,
    calls the callback not once (passed or not), makes no lookup and
    leaves the world as it is, in both revisions and for every
    maxConcurrent. *)
Theorem empty_input_empty_result M cb s :
  WeatherApiCached.fetchWeatherForPositions env [] M cb s
  = Some {| result := ∅; callbacks := []; lookups := []; final := s |} ∧
  WeatherApi.fetchWeatherForPositions env [] M cb s
  = Some {| result := ∅; callbacks := []; lookups := []; final := s |}.
Proof. split; reflexivity. Qed.

(** C1: for every list of positions and every two of its positions with
    the same PositionKey, a call of fetchWeatherForPositions with
    maxConcurrent > 0 issues at most one request with that key and makes
    exactly one lookup for it.  When that lookup waits for an answer, the
    answer is the one the upstream gives to the request the run logged for
    the lookup's position.  The lookup succeeds when it is served from the
    cache or when that answer has a success status and a body with a truthy
    [current]; the returned map then holds one and the same observation
    under the key of both positions, with the coordinates of the lookup and
    the measurements of that [current].  On any other answer the map holds
    nothing under that key. *)
Theorem shared_key_fetched_once positions M cb s p1 p2 :
  0 < M → p1 ∈ positions → p2 ∈ positions → keyOf p1 = keyOf p2 →
  ∃ out issued lk,
    WeatherApiCached.fetchWeatherForPositions env positions M cb s = Some out ∧
    requests (final out) = requests s ++ issued ∧
    length (filter (λ r, requestKey r = keyOf p1) issued) ≤ 1 ∧
    lk ∈ lookups out ∧ keyOf (positionOf lk) = keyOf p1 ∧
    (∀ lk', lk' ∈ lookups out → keyOf (positionOf lk') = keyOf p1 → lk' = lk) ∧
    (∀ o, Batch.lk_task lk = Awaiting o →
       ∃ j, issued !! j = Some (requestOf (positionOf lk)) ∧
            o = upstream env (length (requests s) + j) (requestOf (positionOf lk))) ∧
    (∀ w, Batch.lk_task lk = Returned w →
       result out !! keyOf p1 = Some w ∧ result out !! keyOf p2 = Some w) ∧
    (∀ o current, Batch.lk_task lk = Awaiting o → success o = Some current →
       ∃ w, result out !! keyOf p1 = Some w ∧ result out !! keyOf p2 = Some w ∧
            latitude w = pos_latitude (positionOf lk) ∧
            longitude w = pos_longitude (positionOf lk) ∧
            ∀ name field, (name, field) ∈ measurements →
              ∃ v, member current name = Normal v ∧ field w = orZero v) ∧
    (∀ o, Batch.lk_task lk = Awaiting o → success o = None →
       result out !! keyOf p1 = None ∧ result out !! keyOf p2 = None) ∧
    (∀ w, Batch.found lk = Some w →
          result out !! keyOf p1 = Some w ∧ result out !! keyOf p2 = Some w) ∧
    ((∀ n req, requestKey req = keyOf p1 → is_Some (success (upstream env n req))) →
     ∃ w, result out !! keyOf p1 = Some w ∧ result out !! keyOf p2 = Some w).
Proof.
  intros HM Hp1 Hp2 Hkey.
  destruct (cached_run env positions M cb s HM)
    as (out & Hout & Hpos & Hgen & Hnd & Hres & _ & _ & issued & Hreq & Hnd').
  destruct (deduplicated_spec positions) as (_ & _ & Hall).
  pose proof (Hall p1 Hp1) as Hin.
  rewrite <- Hpos, <- list_fmap_compose in Hin.
  apply list_elem_of_fmap in Hin as (lk & Hlk & Hin). simpl in Hlk.
  assert (result out !! keyOf p1 = Batch.found lk) as Hshared.
  { rewrite Hres, Hlk. by eapply payload_found. }
  assert (Batch.genuine (WeatherApiCached.beginFetch env)
            (WeatherApiCached.resumeFetch env) lk) as [_ [s' Hsettled]]
    by (rewrite Forall_forall in Hgen; by apply Hgen).
  assert (∀ o, Batch.lk_task lk = Awaiting o →
            ∃ j, issued !! j = Some (requestOf (positionOf lk)) ∧
                 o = upstream env (length (requests s) + j) (requestOf (positionOf lk)))
    as Hanswer.
  { intros o Ho. pose proof Hout as Hrun.
    unfold WeatherApiCached.fetchWeatherForPositions in Hrun.
    destruct (Batch.loop _ _ _ _ _ _ _ _) as [p|] eqn:Hloop; [|done].
    injection Hrun as <-. simpl in *.
    apply cached_loop_logged in Hloop. rewrite Forall_forall in Hloop.
    destruct (Hloop lk Hin o Ho) as (n & Hn & Hlogged & ->).
    exists (n - length (requests s)).
    rewrite Hreq, lookup_app_r in Hlogged by done.
    split; [done|]. f_equal. lia. }
  assert (∀ w, Batch.lk_task lk = Returned w → Batch.found lk = Some w) as Hhit.
  { intros w Hw. unfold Batch.found. rewrite Hsettled, Hw. done. }
  assert (∀ o current, Batch.lk_task lk = Awaiting o → success o = Some current →
            ∃ w, Batch.found lk = Some w ∧
                 latitude w = pos_latitude (positionOf lk) ∧
                 longitude w = pos_longitude (positionOf lk) ∧
                 ∀ name field, (name, field) ∈ measurements →
                   ∃ v, member current name = Normal v ∧ field w = orZero v) as Hgood.
  { intros o current Ho Hsuccess.
    destruct (cached_resume_success env (pos_latitude (positionOf lk))
                (pos_longitude (positionOf lk)) o current s' Hsuccess)
      as (w & s2 & Hresume & Hfields).
    exists w. split; [|done]. unfold Batch.found. by rewrite Hsettled, Ho, Hresume. }
  exists out, issued, lk. rewrite <- Hkey, Hshared. split_and!; try done.
  - by apply NoDup_filter_le_1.
  - intros lk' Hin' Hlk'.
    apply (NoDup_fmap_eq (keyOf ∘ positionOf) (lookups out)); try done.
    simpl. congruence.
  - intros w Hw. by rewrite (Hhit w Hw).
  - intros o current Ho Hsuccess.
    destruct (Hgood o current Ho Hsuccess) as (w & -> & Hfields). by exists w.
  - intros o Ho Hnone. unfold Batch.found.
    by rewrite Hsettled, Ho, cached_resume_no_success.
  - intros Hup. destruct (Batch.lk_task lk) as [w|o] eqn:Htask.
    + exists w. by rewrite (Hhit w eq_refl).
    + destruct (Hanswer o eq_refl) as (j & _ & Ho).
      destruct (Hup (length (requests s) + j) (requestOf (positionOf lk)) (eq_sym Hlk))
        as [current Hsuccess].
      rewrite <- Ho in Hsuccess.
      destruct (Hgood o current eq_refl Hsuccess) as (w & -> & _). by exists w.
Qed.

(** C4: with a callback and maxConcurrent = M > 0, the cached revision
    calls the callback ceil(N / M) times for the N positions left after
    deduplication (all of them when their keys are pairwise distinct); the
    entries of the returned map are exactly the entries of the payloads;
    no key is in two payloads.  N is the number of distinct keys of the
    input.  The uncached revision does the same on a list whose keys are
    pairwise distinct. *)
Theorem callbacks_partition_result positions M s :
  0 < M →
  length (WeatherApiCached.deduplicated positions)
  = size (list_to_set (keyOf <$> positions) : gset string) ∧
  (∃ out,
     WeatherApiCached.fetchWeatherForPositions env positions M true s = Some out ∧
     length (callbacks out)
     = ceilDiv (length (WeatherApiCached.deduplicated positions)) M ∧
     (∀ k w, result out !! k = Some w ↔
             ∃ m, m ∈ callbacks out ∧ m !! k = Some w) ∧
     (∀ j1 j2 m1 m2 k,
        callbacks out !! j1 = Some m1 → callbacks out !! j2 = Some m2 →
        is_Some (m1 !! k) → is_Some (m2 !! k) → j1 = j2)) ∧
  (NoDup (keyOf <$> positions) →
     WeatherApiCached.deduplicated positions = positions ∧
     ∃ out,
       WeatherApi.fetchWeatherForPositions env positions M true s = Some out ∧
       length (callbacks out) = ceilDiv (length positions) M ∧
       (∀ k w, result out !! k = Some w ↔
               ∃ m, m ∈ callbacks out ∧ m !! k = Some w) ∧
       (∀ j1 j2 m1 m2 k,
          callbacks out !! j1 = Some m1 → callbacks out !! j2 = Some m2 →
          is_Some (m1 !! k) → is_Some (m2 !! k) → j1 = j2)).
Proof.
  intros HM. split_and!.
  - apply deduplicated_length.
  - destruct (cached_run env positions M true s HM)
      as (out & Hout & Hpos & Hgen & Hnd & Hres & (chunks & Hc & Hcb) & Hcount & _).
    destruct (trace_partition _ _ (lookups out) chunks Hgen Hnd Hc) as [Hunion Hdisj].
    exists out. rewrite Hres, Hcb. split_and!; try done. by rewrite <- Hcb.
  - intros Hdistinct. split; [by apply deduplicated_id|].
    destruct (uncached_run env positions M true s HM)
      as (out & Hout & Hpos & Hgen & Hres & (chunks & Hc & Hcb) & Hcount).
    assert (NoDup (keyOf ∘ positionOf <$> lookups out)) as Hnd.
    { by rewrite list_fmap_compose, Hpos. }
    destruct (trace_partition _ _ (lookups out) chunks Hgen Hnd Hc) as [Hunion Hdisj].
    exists out. rewrite Hres, Hcb. split_and!; try done. by rewrite <- Hcb.
Qed.

(** C5: fetchWeatherData never throws, whatever the upstream does.  With
    maxConcurrent positive fetchWeatherForPositions returns a map in both
    revisions; it makes a lookup for every position (every deduplicated
    position in the cached revision), none of which rejects; a lookup
    whose request timed out, failed or got a non-success status settles to
    null; every entry of the returned map was found by some lookup, and in
    the cached revision the key of a failed lookup is not in the map. *)
Theorem failed_fetch_contributes_nothing positions M cb s :
  0 < M →
  (∀ lat lon s0, ∃ w s1,
      WeatherApiCached.fetchWeatherData env lat lon s0 = (Normal w, s1)) ∧
  (∀ lat lon s0, ∃ w s1, WeatherApi.fetchWeatherData env lat lon s0 = (Normal w, s1)) ∧
  (∃ out,
     WeatherApiCached.fetchWeatherForPositions env positions M cb s = Some out ∧
     positionOf <$> lookups out = WeatherApiCached.deduplicated positions ∧
     (∀ lk e, lk ∈ lookups out → Batch.lk_result lk ≠ Rejected e) ∧
     (∀ lk o, lk ∈ lookups out → Batch.lk_task lk = Awaiting o → failed o = true →
              Batch.lk_result lk = Fulfilled None ∧
              result out !! keyOf (positionOf lk) = None) ∧
     (∀ k w, result out !! k = Some w →
             ∃ lk, lk ∈ lookups out ∧ Batch.lk_result lk = Fulfilled (Some (k, w)))) ∧
  (∃ out,
     WeatherApi.fetchWeatherForPositions env positions M cb s = Some out ∧
     positionOf <$> lookups out = positions ∧
     (∀ lk e, lk ∈ lookups out → Batch.lk_result lk ≠ Rejected e) ∧
     (∀ lk o, lk ∈ lookups out → Batch.lk_task lk = Awaiting o → failed o = true →
              Batch.lk_result lk = Fulfilled None) ∧
     (∀ k w, result out !! k = Some w →
             ∃ lk, lk ∈ lookups out ∧ Batch.lk_result lk = Fulfilled (Some (k, w)))).
Proof.
  intros HM. split_and!.
  - intros lat lon s0. unfold WeatherApiCached.fetchWeatherData.
    destruct (WeatherApiCached.beginFetch env lat lon s0) as [t s1].
    apply cached_resumeFetch_normal.
  - intros lat lon s0. unfold WeatherApi.fetchWeatherData.
    destruct (WeatherApi.beginFetch env lat lon s0) as [t s1].
    destruct (uncached_resumeFetch_normal lat lon t s1) as [w ->]. by eexists _, _.
  - destruct (cached_run env positions M cb s HM)
      as (out & Hout & Hpos & Hgen & Hnd & Hres & _).
    exists out. split_and!; try done.
    + intros lk e Hin. eapply Forall_forall in Hgen; [|done].
      by destruct (genuineCached_settles env lk Hgen) as [Hno _].
    + intros lk o Hin Ho Hfail.
      pose proof Hgen as Hlk. eapply Forall_forall in Hlk; [|done].
      destruct (genuineCached_settles env lk Hlk) as [_ Hnull].
      specialize (Hnull o Ho Hfail). split; [done|].
      destruct (result out !! keyOf (positionOf lk)) as [w|] eqn:Hk; [|done].
      rewrite Hres in Hk. apply payload_lookup_1 in Hk as (lk' & Hin' & Hres').
      assert (lk' = lk) as ->; [|congruence].
      apply (NoDup_fmap_eq (keyOf ∘ positionOf) (lookups out)); try done.
      simpl. symmetry.
      apply (genuine_key (WeatherApiCached.beginFetch env)
               (WeatherApiCached.resumeFetch env) lk' _ w); [|done].
      by eapply Forall_forall in Hgen.
    + intros k w. rewrite Hres. apply payload_lookup_1.
  - destruct (uncached_run env positions M cb s HM)
      as (out & Hout & Hpos & Hgen & Hres & _).
    exists out. split_and!; try done.
    + intros lk e Hin. eapply Forall_forall in Hgen; [|done].
      by destruct (genuineUncached_settles env lk Hgen) as [Hno _].
    + intros lk o Hin Ho Hfail. eapply Forall_forall in Hgen; [|done].
      destruct (genuineUncached_settles env lk Hgen) as [_ Hnull]. eauto.
    + intros k w. rewrite Hres. apply payload_lookup_1.
Qed.
End BatchClaims.

Lemma shared_key_fetched_once_witness :
  0 < 2 ∧ at_ 10001 20000 ∈ threePositions ∧ at_ 10004 20000 ∈ threePositions ∧
  keyOf (at_ 10001 20000) = keyOf (at_ 10004 20000) ∧
  ∃ out issued w,
    WeatherApiCached.fetchWeatherForPositions sunny threePositions 2 true emptyState
    = Some out ∧
    requests (final out) = requests emptyState ++ issued ∧
    length (filter (λ r, requestKey r = keyOf (at_ 10001 20000)) issued) ≤ 1 ∧
    result out !! keyOf (at_ 10001 20000) = Some w ∧
    result out !! keyOf (at_ 10004 20000) = Some w.
Proof.
  assert (at_ 10001 20000 ∈ threePositions) as H1 by (by left).
  assert (at_ 10004 20000 ∈ threePositions) as H2 by (right; by left).
  assert (keyOf (at_ 10001 20000) = keyOf (at_ 10004 20000)) as Hkey
    by (vm_compute; reflexivity).
  split_and!; [lia|done..|].
  destruct (shared_key_fetched_once sunny threePositions 2 true emptyState
              (at_ 10001 20000) (at_ 10004 20000))
    as (out & issued & lk & Hout & Hreq & Hone & _ & _ & _ & _ & _ & _ & _ & _ & Hup);
    [lia|done..|].
  destruct Hup as (w & Hw1 & Hw2).
  { intros n req _. by eexists. }
  by exists out, issued, w.
Defined.

Lemma callbacks_partition_result_witness :
  0 < 2 ∧
  ∃ out,
    WeatherApiCached.fetchWeatherForPositions sunny threePositions 2 true emptyState
    = Some out ∧
    length (callbacks out)
    = ceilDiv (length (WeatherApiCached.deduplicated threePositions)) 2 ∧
    (∀ k w, result out !! k = Some w ↔ ∃ m, m ∈ callbacks out ∧ m !! k = Some w) ∧
    (∀ j1 j2 m1 m2 k,
       callbacks out !! j1 = Some m1 → callbacks out !! j2 = Some m2 →
       is_Some (m1 !! k) → is_Some (m2 !! k) → j1 = j2).
Proof.
  split; [lia|].
  destruct (callbacks_partition_result sunny threePositions 2 emptyState)
    as (_ & Hcached & _); [lia|exact Hcached].
Defined.

Lemma failed_fetch_contributes_nothing_witness :
  0 < 2 ∧
  ∃ out,
    WeatherApiCached.fetchWeatherForPositions flaky threePositions 2 false emptyState
    = Some out ∧
    Batch.lk_position <$> lookups out = WeatherApiCached.deduplicated threePositions ∧
    (∀ lk e, lk ∈ lookups out → Batch.lk_result lk ≠ Rejected e) ∧
    (∀ lk o, lk ∈ lookups out → Batch.lk_task lk = Awaiting o → failed o = true →
             Batch.lk_result lk = Fulfilled None ∧
             result out !! keyOf (Batch.lk_position lk) = None) ∧
    (∀ k w, result out !! k = Some w →
            ∃ lk, lk ∈ lookups out ∧ Batch.lk_result lk = Fulfilled (Some (k, w))).
Proof.
  split; [lia|].
  destruct (failed_fetch_contributes_nothing flaky threePositions 2 false emptyState)
    as (_ & _ & Hcached & _); [lia|exact Hcached].
Defined.

(** The runs behind the witnesses, evaluated. *)
Example sunny_run :
  (λ out, (length (callbacks out), length (requests (final out)), size (result out),
           latitude <$> result out !! "10.00,20.00",
           latitude <$> result out !! "30.00,40.00"))
  <$> WeatherApiCached.fetchWeatherForPositions sunny threePositions 2 true emptyState
  = Some (1, 2, 2, Some (Milli 10001), Some (Milli 30000)).
Proof. vm_compute. reflexivity. Qed.

Example flaky_run :
  (λ out, (length (lookups out), size (result out),
           latitude <$> result out !! "10.00,20.00",
           latitude <$> result out !! "30.00,40.00"))
  <$> WeatherApiCached.fetchWeatherForPositions flaky threePositions 2 false emptyState
  = Some (2, 1, None, Some (Milli 30000)).
Proof. vm_compute. reflexivity. Qed.

(** Without deduplication the older revision asks twice for a shared key. *)
Example uncached_asks_twice :
  (λ out, requestKey <$> requests (final out))
  <$> WeatherApi.fetchWeatherForPositions sunny threePositions 2 true emptyState
  = Some ["10.00,20.00"; "10.00,20.00"; "30.00,40.00"].
Proof. vm_compute. reflexivity. Qed.

(** toFixed keeps the sign of a negative number that rounds to zero, so
    -0.001 and 0.001 do not share a key. *)
Example negative_zero_key :
  keyOf (at_ (-1) 20000) = "-0.00,20.00" ∧ keyOf (at_ 1 20000) = "0.00,20.00".
Proof. split; reflexivity. Qed.

(** maxConcurrent = 0 on a non-empty list: the loop does not end. *)
Example zero_batch_size_diverges :
  WeatherApiCached.fetchWeatherForPositions sunny threePositions 0 true emptyState = None.
Proof. vm_compute. reflexivity. Qed.

(** ** The rate-limit tracker *)
Local Open Scope Z_scope.

Section RateLimitClaims.
Context {number : Type} {NUM : JSNumber number}.
Variable env : Env number.

(** In the cached revision a 429 answer ends the call with null and
    leaves the world as the request left it. *)
Lemma cached_resume_429 lat lon (r : Response number) (s : State number) :
  status r = 429 →
  WeatherApiCached.resumeFetch env lat lon (Awaiting (Responded r)) s = (Normal None, s).
Proof.
  intros H429. unfold WeatherApiCached.resumeFetch, WeatherApiCached.afterFetch.
  by rewrite H429.
Qed.

(** The invariant of section 3 of the spec: a snapshot that reports
    isLimited = true carries a resetAt later than the time of recording. *)
Lemma limited_snapshot_resets_later fallback now (r : Response number) :
  RateLimit.isLimited (RateLimit.recordResponse fallback now r) = true →
  ∃ reset, RateLimit.resetAt (RateLimit.recordResponse fallback now r) = Some reset ∧
           now < reset.
Proof.
  unfold RateLimit.recordResponse, RateLimit.cooldown.
  destruct (RateLimit.quotaExhausted r); [|done]. intros _. eexists. split; [done|].
  destruct (retryAfter r) as [seconds|]; [|lia].
  destruct (0 <? seconds) eqn:Hpos; [|lia]. apply Z.ltb_lt in Hpos. lia.
Qed.

(** C3: a call whose request is answered with status 429, whatever else
    the answer carries, returns null and leaves the tracker reporting
    isLimited = true with a resetAt later than the time of recording; when
    the answer names a positive retry-after duration, resetAt is the time
    of recording plus that duration.  The cache is the one the call started
    with. *)
Theorem rate_limited_response_recorded fallback lat lon (s s1 : State number)
    (t : RateLimit.RateLimitState) (r : Response number) :
  WeatherApiCached.beginFetch env lat lon s = (Awaiting (Responded r), s1) →
  status r = 429 →
  ∃ s2 t' reset,
    RateLimit.fetchOne env fallback lat lon (s, t) = (Normal None, (s2, t')) ∧
    RateLimit.isLimited (RateLimit.currentState t') = true ∧
    RateLimit.resetAt (RateLimit.currentState t') = Some reset ∧
    clock env (ticks s1) < reset ∧
    (∀ seconds, retryAfter r = Some seconds → 0 < seconds →
       reset = clock env (ticks s1) + 1000 * seconds) ∧
    weatherCache s2 = weatherCache s.
Proof.
  intros Hbegin H429.
  unfold RateLimit.fetchOne, dateNow. rewrite Hbegin. cbv beta iota.
  rewrite cached_resume_429 by done.
  assert (RateLimit.isLimited
            (RateLimit.recordResponse fallback (clock env (ticks s1)) r) = true) as Hlimited.
  { unfold RateLimit.recordResponse, RateLimit.quotaExhausted. by rewrite H429. }
  destruct (limited_snapshot_resets_later fallback (clock env (ticks s1)) r Hlimited)
    as (reset & Hreset & Hlater).
  eexists _, _, reset. split; [done|].
  unfold RateLimit.currentState. split_and!; [done..| |].
  - intros seconds Hseconds Hpos. revert Hreset.
    unfold RateLimit.recordResponse, RateLimit.quotaExhausted, RateLimit.cooldown.
    rewrite H429, Hseconds. simpl.
    apply Z.ltb_lt in Hpos. rewrite Hpos. by intros [= <-].
  - by rewrite <- (cached_beginFetch_cache env lat lon s), Hbegin.
Qed.
End RateLimitClaims.

Lemma rate_limited_response_recorded_witness :
  status ({| status := 429; json := Throw SyntaxError;
             retryAfter := None; remaining := None |} : Response Decimal) = 429 ∧
  ∃ s2 t' reset,
    RateLimit.fetchOne
      {| clock := steadyClock;
         upstream := λ _ _, Responded {| status := 429; json := Throw SyntaxError;
                                          retryAfter := None; remaining := None |} |}
      30%positive (Milli 10001) (Milli 20000)
      (emptyState, {| RateLimit.isLimited := false; RateLimit.retryAfterSeconds := None;
                      RateLimit.resetAt := None |})
    = (Normal None, (s2, t')) ∧
    RateLimit.isLimited (RateLimit.currentState t') = true ∧
    RateLimit.resetAt (RateLimit.currentState t') = Some reset ∧
    1000000 < reset ∧
    (∀ seconds, None = Some seconds → 0 < seconds → reset = 1000000 + 1000 * seconds) ∧
    weatherCache s2 = weatherCache emptyState.
Proof.
  split; [reflexivity|].
  apply (rate_limited_response_recorded
           {| clock := steadyClock;
              upstream := λ _ _, Responded {| status := 429; json := Throw SyntaxError;
                                               retryAfter := None; remaining := None |} |}
           30%positive (Milli 10001) (Milli 20000) emptyState
           {| weatherCache := ∅; ticks := 0;
              requests := [{| req_latitude := Milli 10001; req_longitude := Milli 20000 |}] |}
           _ {| status := 429; json := Throw SyntaxError;
                retryAfter := None; remaining := None |}); reflexivity.
Defined.

(** The scenario of the spec: a 429 with Retry-After: 60 at time 1000000
    is recorded with resetAt sixty seconds later, whatever duration the
    tracker has of its own. *)
Example retry_after_sixty :
  (RateLimit.fetchOne limited 30%positive (Milli 10001) (Milli 20000)
     (emptyState, {| RateLimit.isLimited := false; RateLimit.retryAfterSeconds := None;
                     RateLimit.resetAt := None |})).2.2
  = {| RateLimit.isLimited := true; RateLimit.retryAfterSeconds := Some 60;
       RateLimit.resetAt := Some 1060000 |}.
Proof. reflexivity. Qed.

(** * Further properties of the code *)

(** ** What a call of fetchWeatherData does to the cache *)
Section CacheEffects.
Context {number : Type} {NUM : JSNumber number}.
Variable env : Env number.

Implicit Types (s : State number) (lat lon : number) (t : Task number).

Lemma cached_resume_cache lat lon t s :
  let '(c, s') := WeatherApiCached.resumeFetch env lat lon t s in
  match t, c with
  | Awaiting _, Normal (Some w) =>
    ∃ entry, weatherCache s' = <[positionKey lat lon := entry]> (weatherCache s) ∧
             data entry = w ∧ latitude w = lat ∧ longitude w = lon
  | _, _ => weatherCache s' = weatherCache s
  end.
Proof.
  destruct t as [w|o]; [done|].
  destruct (WeatherApiCached.resumeFetch env lat lon (Awaiting o) s) as [c s'] eqn:Hres.
  destruct c as [[w|]|e].
  - apply cached_resume_some in Hres as (fields & Hw & Hlat & Hlon & Hs').
    eexists. rewrite Hs'. simpl. split_and!; [done..| |]; by rewrite Hw.
  - revert Hres. unfold WeatherApiCached.resumeFetch, WeatherApiCached.afterFetch.
    unfold dateNow. repeat case_match; simpl; intros [= <-]; done.
  - destruct (cached_resumeFetch_normal env lat lon (Awaiting o) s) as (w & s0 & Heq).
    congruence.
Qed.

(** X1: a call of the cached fetchWeatherData changes the cache under no
    key but its own; when it returns null the cache is the one it started
    with; when it returns an observation, the cache holds that observation
    under the call's key afterwards. *)
Theorem fetch_touches_only_its_key lat lon s :
  let call := WeatherApiCached.fetchWeatherData env lat lon s in
  (∀ key, key ≠ positionKey lat lon →
          weatherCache call.2 !! key = weatherCache s !! key) ∧
  (call.1 = Normal None → weatherCache call.2 = weatherCache s) ∧
  (∀ w, call.1 = Normal (Some w) →
        ∃ entry, weatherCache call.2 !! positionKey lat lon = Some entry ∧
                 data entry = w).
Proof.
  intros call. subst call. unfold WeatherApiCached.fetchWeatherData.
  pose proof (cached_beginFetch_cache env lat lon s) as Hbegin.
  destruct (WeatherApiCached.beginFetch env lat lon s) as [t s1] eqn:Hb.
  simpl in Hbegin.
  pose proof (cached_resume_cache lat lon t s1) as Hres.
  destruct (WeatherApiCached.resumeFetch env lat lon t s1) as [c s2] eqn:Hr. simpl.
  destruct t as [w0|o].
  - injection Hr as <- <-. rewrite Hbegin. split_and!; [done..|].
    intros w [= <-]. revert Hb. unfold WeatherApiCached.beginFetch, dateNow, fetch.
    destruct (weatherCache s !! positionKey lat lon) as [cached|]; [|done].
    simpl. case_bool_decide; [|done]. intros [= <- <-]. by exists cached.
  - destruct c as [[w|]|e]; rewrite <- Hbegin.
    + destruct Hres as (entry & -> & Hdata & _). split_and!.
      * intros key Hne. by rewrite lookup_insert_ne.
      * done.
      * intros w' [= <-]. exists entry. by rewrite lookup_insert_eq.
    + rewrite Hres. by split_and!.
    + rewrite Hres. by split_and!.
Qed.
End CacheEffects.

(** ** Invariants of the batch loop *)
Local Close Scope Z_scope.

Section LoopInvariant.
Context {number : Type} {NUM : JSNumber number}.
Variable beginFetch : number → number → State number → Task number * State number.
Variable resumeFetch : number → number → Task number → State number →
                       Completion (option (WeatherData number)) * State number.
Variable l : list (Position number).

(** [P] holds of the world throughout, [T] of a task from the moment it is
    started, [Q] of a lookup once it has settled. *)
Variable P : State number → Prop.
Variable T : Position number → Task number → Prop.
Variable Q : Batch.Lookup number → Prop.

Hypothesis begin_keeps : ∀ pos s, pos ∈ l → P s →
  P (beginFetch (pos_latitude pos) (pos_longitude pos) s).2 ∧
  T pos (beginFetch (pos_latitude pos) (pos_longitude pos) s).1.
Hypothesis resume_keeps : ∀ pos t s, pos ∈ l → P s → T pos t →
  P (resumeFetch (pos_latitude pos) (pos_longitude pos) t s).2 ∧
  Q {| Batch.lk_position := pos; Batch.lk_task := t;
       Batch.lk_result :=
         Batch.settle (keyOf pos)
           (resumeFetch (pos_latitude pos) (pos_longitude pos) t s).1 |}.

Lemma mapS_startOne_keeps (batch : list (Position number)) s :
  (∀ pos, pos ∈ batch → pos ∈ l) → P s →
  P (Batch.mapS (Batch.startOne beginFetch) batch s).2 ∧
  Forall (λ started, started.1 ∈ l ∧ T started.1 started.2)
         (Batch.mapS (Batch.startOne beginFetch) batch s).1.
Proof.
  revert s. induction batch as [|pos batch IH]; intros s Hin HP; [done|].
  simpl. unfold Batch.startOne at 1 3.
  destruct (begin_keeps pos s) as [HP1 HT]; [apply Hin; by left|done|].
  destruct (beginFetch _ _ s) as [task s1]. simpl in *.
  destruct (IH s1) as [HP2 Hall]; [intros ??; apply Hin; by right|done|].
  destruct (Batch.mapS _ batch s1) as [tasks s2]. simpl in *.
  split; [done|]. constructor; [|done]. split; [apply Hin; by left|done].
Qed.

Lemma mapS_finishOne_keeps (tasks : list (Position number * Task number)) s :
  Forall (λ started, started.1 ∈ l ∧ T started.1 started.2) tasks → P s →
  P (Batch.mapS (Batch.finishOne resumeFetch) tasks s).2 ∧
  Forall Q (Batch.mapS (Batch.finishOne resumeFetch) tasks s).1.
Proof.
  revert s. induction tasks as [|[pos task] tasks IH]; intros s Hall HP; [done|].
  apply Forall_cons in Hall as [[Hin HT] Hall]. simpl in Hin, HT.
  simpl. destruct (resume_keeps pos task s Hin HP HT) as [HP1 HQ].
  destruct (resumeFetch _ _ task s) as [c s1]. simpl in *.
  destruct (IH s1 Hall HP1) as [HP2 HQs].
  destruct (Batch.mapS _ tasks s1) as [lks s2]. simpl in *.
  split; [done|]. by constructor.
Qed.

Lemma loop_keeps M cb fuel i p p' :
  P (Batch.world p) → Forall Q (Batch.settled p) →
  Batch.loop beginFetch resumeFetch l M cb fuel i p = Some p' →
  P (Batch.world p') ∧ Forall Q (Batch.settled p').
Proof.
  revert i p. induction fuel as [|fuel IH]; intros i p HP HQ; simpl;
    (case_bool_decide; [|by intros [= <-]]); [done|].
  apply IH.
  - unfold Batch.iteration.
    destruct (mapS_startOne_keeps (Batch.slice l i (i + M)) (Batch.world p))
      as [HP1 Hall]; [|done|].
    { intros pos Hin. unfold Batch.slice in Hin.
      by apply subseteq_take, subseteq_drop in Hin. }
    destruct (Batch.mapS (Batch.startOne _) _ _) as [tasks s1]. simpl in *.
    destruct (mapS_finishOne_keeps tasks s1 Hall HP1) as [HP2 _].
    by destruct (Batch.mapS (Batch.finishOne _) _ _) as [lks s2].
  - unfold Batch.iteration.
    destruct (mapS_startOne_keeps (Batch.slice l i (i + M)) (Batch.world p))
      as [HP1 Hall]; [|done|].
    { intros pos Hin. unfold Batch.slice in Hin.
      by apply subseteq_take, subseteq_drop in Hin. }
    destruct (Batch.mapS (Batch.startOne _) _ _) as [tasks s1]. simpl in *.
    destruct (mapS_finishOne_keeps tasks s1 Hall HP1) as [_ HQs].
    destruct (Batch.mapS (Batch.finishOne _) _ _) as [lks s2]. simpl in *.
    by apply Forall_app.
Qed.
End LoopInvariant.

(** ** The cache across a run of fetchWeatherForPositions *)
Section CacheAcrossRun.
Context {number : Type} {NUM : JSNumber number}.
Variable env : Env number.

Local Abbreviation positionOf := (Batch.lk_position (number := number)).

Implicit Types (s : State number) (positions : list (Position number))
  (lk : Batch.Lookup number).

Lemma wellKeyed_insert (cache : gmap string (CacheEntry number)) lat lon entry :
  wellKeyed cache →
  latitude (data entry) = lat → longitude (data entry) = lon →
  wellKeyed (<[positionKey lat lon := entry]> cache).
Proof.
  intros Hwk Hlat Hlon key e.
  destruct (decide (positionKey lat lon = key)) as [<-|Hne].
  - rewrite lookup_insert_eq. intros [= <-]. by rewrite Hlat, Hlon.
  - rewrite lookup_insert_ne by done. apply Hwk.
Qed.

Lemma cached_begin_returned lat lon s w :
  (WeatherApiCached.beginFetch env lat lon s).1 = Returned w →
  ∃ entry, weatherCache s !! positionKey lat lon = Some entry ∧ w = data entry ∧
           (clock env (ticks s) < expires entry)%Z.
Proof.
  unfold WeatherApiCached.beginFetch, dateNow, fetch.
  destruct (weatherCache s !! positionKey lat lon) as [cached|]; [|done].
  simpl. case_bool_decide; [|done]. intros [= <-]. by exists cached.
Qed.

(** X2: if every entry of the cache lies under the key of its own
    observation when fetchWeatherForPositions is called, the same holds
    after the call, and every observation in the returned map lies under the
    PositionKey of its own coordinates. *)
Theorem result_keys_match_coordinates positions M cb s :
  wellKeyed (weatherCache s) → 0 < M →
  ∃ out,
    WeatherApiCached.fetchWeatherForPositions env positions M cb s = Some out ∧
    wellKeyed (weatherCache (final out)) ∧
    ∀ key w, result out !! key = Some w →
             positionKey (latitude w) (longitude w) = key.
Proof.
  intros Hwk HM.
  destruct (cached_run env positions M cb s HM)
    as (out & Hout & Hpos & Hgen & Hnd & Hres & _).
  exists out. split; [done|].
  unfold WeatherApiCached.fetchWeatherForPositions in Hout.
  destruct (Batch.loop _ _ _ _ _ _ _ _) as [p|] eqn:Hloop; [|done].
  injection Hout as <-. simpl in *.
  destruct (loop_keeps (WeatherApiCached.beginFetch env) (WeatherApiCached.resumeFetch env)
              (WeatherApiCached.deduplicated positions)
              (λ s', wellKeyed (weatherCache s'))
              (λ pos t, ∀ w, t = Returned w →
                             positionKey (latitude w) (longitude w) = keyOf pos)
              (λ lk, ∀ w, Batch.found lk = Some w →
                          positionKey (latitude w) (longitude w) = keyOf (positionOf lk)))
    with (5 := Hloop) as [Hfinal Hfound]; try done.
  - intros pos s' _ Hwk'. split; [by rewrite cached_beginFetch_cache|].
    intros w Hret. apply cached_begin_returned in Hret as (entry & Hentry & -> & _).
    by apply Hwk'.
  - intros pos t s' _ Hwk' HT. destruct t as [w0|o].
    + simpl. split; [done|]. unfold Batch.found. simpl. intros w' [= <-]. by apply HT.
    + pose proof (cached_resume_cache env (pos_latitude pos) (pos_longitude pos)
                    (Awaiting o) s') as Hcache.
      destruct (WeatherApiCached.resumeFetch _ _ _ (Awaiting o) s') as [c s2]. simpl.
      destruct c as [[w|]|e]; simpl.
      * destruct Hcache as (entry & -> & Hdata & Hlat & Hlon). split.
        -- apply wellKeyed_insert; [done|by rewrite Hdata..].
        -- unfold Batch.found. simpl. intros w' [= <-]. by rewrite Hlat, Hlon.
      * rewrite Hcache. split; [done|]. by unfold Batch.found.
      * rewrite Hcache. split; [done|]. by unfold Batch.found.
  - split; [done|]. intros key w Hk. rewrite Hres in Hk.
    apply payload_lookup_1 in Hk as (lk & Hin & Hlk).
    rewrite (genuine_key (WeatherApiCached.beginFetch env)
               (WeatherApiCached.resumeFetch env) lk key w); [| |done].
    + eapply Forall_forall in Hfound; [|done]. apply Hfound.
      unfold Batch.found. by rewrite Hlk.
    + by eapply Forall_forall in Hgen.
Qed.
End CacheAcrossRun.

Section WarmRun.
Context {number : Type} {NUM : JSNumber number}.
Variable env : Env number.

Local Abbreviation positionOf := (Batch.lk_position (number := number)).

Implicit Types (s : State number) (positions : list (Position number))
  (lk : Batch.Lookup number).

(** Every task of a batch whose positions all have a live entry is a
    cache hit: one clock read each and nothing else. *)
Lemma mapS_startOne_warm (batch : list (Position number)) s :
  (∀ pos, pos ∈ batch →
     ∃ entry, weatherCache s !! keyOf pos = Some entry ∧
              ∀ n, ticks s ≤ n < ticks s + length batch →
                   (clock env n < expires entry)%Z) →
  weatherCache (Batch.mapS (Batch.startOne (WeatherApiCached.beginFetch env)) batch s).2
  = weatherCache s ∧
  requests (Batch.mapS (Batch.startOne (WeatherApiCached.beginFetch env)) batch s).2
  = requests s ∧
  ticks (Batch.mapS (Batch.startOne (WeatherApiCached.beginFetch env)) batch s).2
  = ticks s + length batch ∧
  Forall (λ started, ∃ entry, weatherCache s !! keyOf started.1 = Some entry ∧
                              started.2 = Returned (data entry))
         (Batch.mapS (Batch.startOne (WeatherApiCached.beginFetch env)) batch s).1.
Proof.
  revert s. induction batch as [|pos batch IH]; intros s Hlive; simpl.
  - split_and!; [done..|lia|done].
  - destruct (Hlive pos) as (entry & Hentry & Hbefore); [by left|].
    unfold Batch.startOne at 1 3 5 7.
    assert (WeatherApiCached.beginFetch env (pos_latitude pos) (pos_longitude pos) s
            = (Returned (data entry), (dateNow env s).2)) as ->.
    { unfold WeatherApiCached.beginFetch. fold (keyOf pos). rewrite Hentry. simpl.
      rewrite bool_decide_eq_true_2; [done|]. apply Hbefore. simpl. lia. }
    destruct (IH (dateNow env s).2) as (Hcache & Hreq & Hticks & Hall).
    { intros pos' Hin. destruct (Hlive pos') as (entry' & Hentry' & Hbefore');
        [by right|].
      exists entry'. split; [done|]. intros n Hn. apply Hbefore'. simpl in *. lia. }
    destruct (Batch.mapS _ batch _) as [tasks s2]. simpl in *.
    split_and!; [done..|lia|]. constructor; [by exists entry|done].
Qed.

Lemma mapS_finishOne_warm (cache : gmap string (CacheEntry number))
    (tasks : list (Position number * Task number)) s :
  Forall (λ started, ∃ entry, cache !! keyOf started.1 = Some entry ∧
                              started.2 = Returned (data entry)) tasks →
  (Batch.mapS (Batch.finishOne (WeatherApiCached.resumeFetch env)) tasks s).2 = s ∧
  Forall (λ lk, ∃ entry, cache !! keyOf (positionOf lk) = Some entry ∧
                         Batch.lk_result lk
                         = Fulfilled (Some (keyOf (positionOf lk), data entry)))
         (Batch.mapS (Batch.finishOne (WeatherApiCached.resumeFetch env)) tasks s).1.
Proof.
  induction tasks as [|[pos task] tasks IH]; intros Hall; [done|].
  apply Forall_cons in Hall as [(entry & Hentry & Htask) Hall].
  simpl in Hentry, Htask. subst task. simpl.
  destruct (IH Hall) as [Hs Hlks].
  destruct (Batch.mapS _ tasks s) as [lks s2]. simpl in *.
  split; [done|]. constructor; [by exists entry|done].
Qed.

Lemma loop_warm l M cb fuel i p p' s :
  (∀ pos, pos ∈ l →
     ∃ entry, weatherCache s !! keyOf pos = Some entry ∧
              ∀ n, ticks s ≤ n < ticks s + length l → (clock env n < expires entry)%Z) →
  weatherCache (Batch.world p) = weatherCache s →
  requests (Batch.world p) = requests s →
  ticks (Batch.world p) = ticks s + i `min` length l →
  Forall (λ lk, ∃ entry, weatherCache s !! keyOf (positionOf lk) = Some entry ∧
                         Batch.lk_result lk
                         = Fulfilled (Some (keyOf (positionOf lk), data entry)))
         (Batch.settled p) →
  Batch.loop (WeatherApiCached.beginFetch env) (WeatherApiCached.resumeFetch env)
    l M cb fuel i p = Some p' →
  weatherCache (Batch.world p') = weatherCache s ∧
  requests (Batch.world p') = requests s ∧
  ticks (Batch.world p') = ticks s + length l ∧
  Forall (λ lk, ∃ entry, weatherCache s !! keyOf (positionOf lk) = Some entry ∧
                         Batch.lk_result lk
                         = Fulfilled (Some (keyOf (positionOf lk), data entry)))
         (Batch.settled p').
Proof.
  intros Hlive. revert i p.
  induction fuel as [|fuel IH]; intros i p Hcache Hreq Hticks Hsettled; simpl;
    (case_bool_decide as Hi;
     [|intros [= <-]; split_and!; [done..|lia|done]]); [done|].
  apply IH; unfold Batch.iteration, Batch.slice; replace (i + M - i) with M by lia.
  all: destruct (mapS_startOne_warm (take M (drop i l)) (Batch.world p))
         as (Hcache1 & Hreq1 & Hticks1 & Hall1);
       [intros pos Hin;
        destruct (Hlive pos) as (entry & Hentry & Hbefore);
          [by apply subseteq_take, subseteq_drop in Hin|];
        exists entry; split; [by rewrite Hcache|];
        intros n Hn; apply Hbefore;
        rewrite length_take, length_drop in Hn; lia|].
  all: destruct (Batch.mapS (Batch.startOne _) _ _) as [tasks s1]; simpl in *.
  all: rewrite Hcache in Hall1.
  all: destruct (mapS_finishOne_warm (weatherCache s) tasks s1 Hall1) as [Hs2 Hlks].
  all: destruct (Batch.mapS (Batch.finishOne _) _ _) as [lks s2]; simpl in *; subst s2.
  - by rewrite Hcache1.
  - by rewrite Hreq1.
  - rewrite Hticks1, Hticks, length_take, length_drop. lia.
  - by apply Forall_app.
Qed.

(** X3: when the cache holds, for every input position, an entry that is
    still live at each of the clock reads of the run (one per distinct key
    of the input, starting with the read the world is at),
    fetchWeatherForPositions issues no request, leaves the cache as it is,
    reads the clock exactly that often and returns for every input position
    the cached observation. *)
Theorem warm_cache_needs_no_request positions M cb s :
  (∀ pos, pos ∈ positions →
     ∃ entry, weatherCache s !! keyOf pos = Some entry ∧
              ∀ n, ticks s ≤ n < ticks s + length (WeatherApiCached.deduplicated positions) →
                   (clock env n < expires entry)%Z) →
  0 < M →
  ∃ out,
    WeatherApiCached.fetchWeatherForPositions env positions M cb s = Some out ∧
    requests (final out) = requests s ∧
    weatherCache (final out) = weatherCache s ∧
    ticks (final out) = ticks s + length (WeatherApiCached.deduplicated positions) ∧
    ∀ pos, pos ∈ positions →
      ∃ entry, weatherCache s !! keyOf pos = Some entry ∧
               result out !! keyOf pos = Some (data entry).
Proof.
  intros Hlive HM.
  destruct (cached_run env positions M cb s HM)
    as (out & Hout & Hpos & Hgen & Hnd & Hres & _).
  destruct (deduplicated_spec positions) as (_ & Hfrom & Hall).
  exists out. split; [done|].
  unfold WeatherApiCached.fetchWeatherForPositions in Hout.
  destruct (Batch.loop _ _ _ _ _ _ _ _) as [p|] eqn:Hloop; [|done].
  injection Hout as <-. simpl in *.
  apply (loop_warm _ _ _ _ _ _ _ s) in Hloop as (Hcache & Hreq & Hticks & Hfound);
    [|intros pos Hin; apply Hlive; by apply Hfrom|done|done|simpl; lia|done].
  split_and!; [done..|]. intros pos Hin.
  destruct (Hlive pos Hin) as (entry & Hentry & _). exists entry. split; [done|].
  pose proof (Hall pos Hin) as Hkey.
  rewrite <- Hpos, <- list_fmap_compose in Hkey.
  apply list_elem_of_fmap in Hkey as (lk & Hlk & Hlkin). simpl in Hlk.
  pose proof Hfound as HQ. eapply Forall_forall in HQ; [|done].
  destruct HQ as (entry' & Hentry' & Hlkres).
  rewrite <- Hlk in Hentry'. rewrite Hentry in Hentry'. injection Hentry' as <-.
  rewrite Hres, Hlk.
  by eapply (payload_lookup_2 (WeatherApiCached.beginFetch env)
               (WeatherApiCached.resumeFetch env)).
Qed.
End WarmRun.

(** ** The requests of a run *)
Section AllRequests.
Context {number : Type} {NUM : JSNumber number}.
Variable beginFetch : number → number → State number → Task number * State number.
Variable resumeFetch : number → number → Task number → State number →
                       Completion (option (WeatherData number)) * State number.

(** For a [fetchWeatherData] that always asks. *)
Hypothesis begin_asks : ∀ lat lon s,
  requests (beginFetch lat lon s).2
  = requests s ++ [{| req_latitude := lat; req_longitude := lon |}].
Hypothesis resume_silent : ∀ lat lon t s,
  requests (resumeFetch lat lon t s).2 = requests s.

Lemma mapS_startOne_asks (batch : list (Position number)) s :
  requests (Batch.mapS (Batch.startOne beginFetch) batch s).2
  = requests s ++ (requestOf <$> batch).
Proof.
  revert s. induction batch as [|pos batch IH]; intros s; simpl.
  - by rewrite app_nil_r.
  - unfold Batch.startOne at 1.
    pose proof (begin_asks (pos_latitude pos) (pos_longitude pos) s) as Hfirst.
    destruct (beginFetch _ _ s) as [task s1]. simpl in Hfirst.
    specialize (IH s1). destruct (Batch.mapS _ batch s1) as [tasks s2]. simpl in *.
    by rewrite IH, Hfirst, <- app_assoc.
Qed.

Lemma loop_asks_all l M cb fuel i p p' :
  Batch.loop beginFetch resumeFetch l M cb fuel i p = Some p' →
  requests (Batch.world p') = requests (Batch.world p) ++ (requestOf <$> drop i l).
Proof.
  revert i p. induction fuel as [|fuel IH]; intros i p; simpl;
    (case_bool_decide as Hi;
     [|intros [= <-]; by rewrite drop_ge, app_nil_r by lia]); [done|].
  intros ->%IH.
  unfold Batch.iteration, Batch.slice. replace (i + M - i) with M by lia.
  pose proof (mapS_startOne_asks (take M (drop i l)) (Batch.world p)) as Hnow.
  destruct (Batch.mapS (Batch.startOne _) _ _) as [tasks s1]. simpl in Hnow.
  pose proof (mapS_finishOne_requests resumeFetch resume_silent tasks s1) as Hfin.
  destruct (Batch.mapS (Batch.finishOne _) _ _) as [lks s2]. simpl in *.
  rewrite Hfin, Hnow, <- app_assoc, <- fmap_app.
  by rewrite <- (drop_drop l M i), take_drop.
Qed.
End AllRequests.

Section RequestCounts.
Context {number : Type} {NUM : JSNumber number}.
Variable env : Env number.

Implicit Types (s : State number) (positions : list (Position number)).

Lemma uncached_begin_asks lat lon s :
  requests (WeatherApi.beginFetch env lat lon s).2
  = requests s ++ [{| req_latitude := lat; req_longitude := lon |}].
Proof. reflexivity. Qed.

(** X4: the revision without a cache issues exactly one request per input
    position, duplicates included, in the order of the input. *)
Theorem uncached_asks_for_every_position positions M cb s :
  0 < M →
  ∃ out,
    WeatherApi.fetchWeatherForPositions env positions M cb s = Some out ∧
    requests (final out) = requests s ++ (requestOf <$> positions).
Proof.
  intros HM.
  destruct (uncached_run env positions M cb s HM) as (out & Hout & _).
  exists out. split; [done|].
  unfold WeatherApi.fetchWeatherForPositions in Hout.
  destruct (Batch.loop _ _ _ _ _ _ _ _) as [p|] eqn:Hloop; [|done].
  injection Hout as <-. simpl.
  rewrite (loop_asks_all (WeatherApi.beginFetch env) WeatherApi.resumeFetch
             uncached_begin_asks uncached_resume_requests _ _ _ _ _ _ _ Hloop).
  by rewrite drop_0.
Qed.

(** X5: the revision that looks up the first twenty positions only issues
    exactly the requests of those, makes at most twenty lookups, calls no
    callback and returns only keys of those positions. *)
Theorem limited_asks_for_first_twenty positions M s :
  0 < M →
  ∃ out,
    WeatherApiLimited.fetchWeatherForPositions env positions M s = Some out ∧
    requests (final out) = requests s ++ (requestOf <$> take 20 positions) ∧
    Batch.lk_position <$> lookups out = take 20 positions ∧
    length (lookups out) ≤ 20 ∧
    callbacks out = [] ∧
    ∀ key w, result out !! key = Some w → key ∈ keyOf <$> take 20 positions.
Proof.
  intros HM. unfold WeatherApiLimited.fetchWeatherForPositions, Batch.slice.
  rewrite drop_0. replace (20 - 0) with 20 by lia.
  destruct (loop_run (WeatherApi.beginFetch env) WeatherApi.resumeFetch
              (uncached_begin_requests env) uncached_resume_requests
              (take 20 positions) M false s HM)
    as (p & Hloop & Hpos & Hgen & Hw & (chunks & _ & Hd) & _).
  rewrite Hloop. eexists. split; [done|]. simpl.
  split_and!; try done.
  - rewrite (loop_asks_all (WeatherApi.beginFetch env) WeatherApi.resumeFetch
               uncached_begin_asks uncached_resume_requests _ _ _ _ _ _ _ Hloop).
    by rewrite drop_0.
  - rewrite <- (length_fmap Batch.lk_position), Hpos, length_take. lia.
  - intros key w Hk. rewrite Hw in Hk.
    apply payload_lookup_1 in Hk as (lk & Hin & Hres).
    rewrite (genuine_key (WeatherApi.beginFetch env) WeatherApi.resumeFetch lk key w);
      [| |done].
    + rewrite <- Hpos, <- list_fmap_compose.
      by apply (list_elem_of_fmap_2 (keyOf ∘ Batch.lk_position)).
    + by eapply Forall_forall in Hgen.
Qed.
End RequestCounts.

Section ColdRun.
Context {number : Type} {NUM : JSNumber number}.
Variable env : Env number.

Implicit Types (s : State number) (positions batch : list (Position number)).

Lemma mapS_startOne_cold batch s :
  (∀ pos, pos ∈ batch → weatherCache s !! keyOf pos = None) →
  requests (Batch.mapS (Batch.startOne (WeatherApiCached.beginFetch env)) batch s).2
  = requests s ++ (requestOf <$> batch) ∧
  weatherCache (Batch.mapS (Batch.startOne (WeatherApiCached.beginFetch env)) batch s).2
  = weatherCache s.
Proof.
  revert s. induction batch as [|pos batch IH]; intros s Hcold; simpl.
  - by rewrite app_nil_r.
  - unfold Batch.startOne at 1 3.
    assert (WeatherApiCached.beginFetch env (pos_latitude pos) (pos_longitude pos) s
            = (Awaiting (upstream env (length (requests s)) (requestOf pos)),
               (fetch env (requestOf pos) s).2)) as ->.
    { unfold WeatherApiCached.beginFetch.
      fold (keyOf pos). by rewrite (Hcold pos) by by left. }
    destruct (IH (fetch env (requestOf pos) s).2) as [Hreq Hcache].
    { intros pos' Hin. simpl. apply Hcold. by right. }
    destruct (Batch.mapS _ batch _) as [tasks s2]. simpl in *.
    split; [by rewrite Hreq, <- app_assoc|done].
Qed.

Lemma mapS_finishOne_frame (tasks : list (Position number * Task number)) s :
  requests (Batch.mapS (Batch.finishOne (WeatherApiCached.resumeFetch env)) tasks s).2
  = requests s ∧
  ∀ key, key ∉ keyOf <$> tasks.*1 →
    weatherCache (Batch.mapS (Batch.finishOne (WeatherApiCached.resumeFetch env))
                    tasks s).2 !! key
    = weatherCache s !! key.
Proof.
  revert s. induction tasks as [|[pos task] tasks IH]; intros s; [done|].
  simpl.
  pose proof (cached_resumeFetch_requests env (pos_latitude pos) (pos_longitude pos)
                task s) as Hreq.
  pose proof (cached_resume_cache env (pos_latitude pos) (pos_longitude pos) task s)
    as Hcache.
  destruct (WeatherApiCached.resumeFetch env _ _ task s) as [c s1]. simpl in Hreq.
  destruct (IH s1) as [Hreq' Hframe].
  destruct (Batch.mapS _ tasks s1) as [lks s2]. simpl in *.
  split; [by rewrite Hreq', Hreq|].
  intros key Hkey. apply not_elem_of_cons in Hkey as [Hne Hkey].
  rewrite (Hframe key Hkey).
  destruct task as [w|o]; [by rewrite Hcache|].
  destruct c as [[w|]|e]; [|by rewrite Hcache..].
  destruct Hcache as (entry & -> & _). by rewrite lookup_insert_ne.
Qed.

Lemma loop_cold l M cb fuel i p p' :
  NoDup (keyOf <$> l) →
  (∀ pos, pos ∈ drop i l → weatherCache (Batch.world p) !! keyOf pos = None) →
  Batch.loop (WeatherApiCached.beginFetch env) (WeatherApiCached.resumeFetch env)
    l M cb fuel i p = Some p' →
  requests (Batch.world p') = requests (Batch.world p) ++ (requestOf <$> drop i l).
Proof.
  intros Hnd. revert i p. induction fuel as [|fuel IH]; intros i p Hcold; simpl;
    (case_bool_decide as Hi;
     [|intros [= <-]; by rewrite drop_ge, app_nil_r by lia]); [done|].
  assert (drop i l = take M (drop i l) ++ drop (i + M) l) as Hsplit.
  { by rewrite <- (drop_drop l M i), take_drop. }
  assert (requests (Batch.world (Batch.iteration (WeatherApiCached.beginFetch env)
                                   (WeatherApiCached.resumeFetch env) l M cb i p))
          = requests (Batch.world p) ++ (requestOf <$> take M (drop i l)) ∧
          ∀ pos, pos ∈ drop (i + M) l →
            weatherCache (Batch.world (Batch.iteration (WeatherApiCached.beginFetch env)
                                         (WeatherApiCached.resumeFetch env) l M cb i p))
            !! keyOf pos = None) as [Hnow Hcold'].
  { unfold Batch.iteration, Batch.slice. replace (i + M - i) with M by lia.
    destruct (mapS_startOne_cold (take M (drop i l)) (Batch.world p)) as [Hreq Hcache].
    { intros pos Hin. apply Hcold. rewrite Hsplit. apply elem_of_app. by left. }
    pose proof (mapS_startOne (WeatherApiCached.beginFetch env)
                  (take M (drop i l)) (Batch.world p)) as [Hpos _].
    destruct (Batch.mapS (Batch.startOne _) _ _) as [tasks s1]. simpl in *.
    destruct (mapS_finishOne_frame tasks s1) as [Hreq' Hframe].
    destruct (Batch.mapS (Batch.finishOne _) _ _) as [lks s2]. simpl in *.
    split; [by rewrite Hreq', Hreq|].
    intros pos Hin. rewrite Hframe, Hcache.
    - apply Hcold. rewrite Hsplit. apply elem_of_app. by right.
    - rewrite Hpos. intros Hkey.
      assert (NoDup (keyOf <$> drop i l)) as Hnd'.
      { rewrite fmap_drop. eapply sublist_NoDup; [done|apply sublist_drop]. }
      rewrite Hsplit, fmap_app in Hnd'. apply NoDup_app in Hnd' as (_ & Hdisj & _).
      apply (Hdisj _ Hkey). by apply list_elem_of_fmap_2. }
  intros ->%IH; [|done].
  by rewrite Hnow, <- app_assoc, <- fmap_app, <- Hsplit.
Qed.

(** X6: when the cache holds no entry for any key of the input, the cached
    revision issues exactly one request per distinct key, for the first
    position with that key, in the order of first appearance. *)
Theorem cold_cache_asks_once_per_key positions M cb s :
  (∀ pos, pos ∈ positions → weatherCache s !! keyOf pos = None) →
  0 < M →
  ∃ out,
    WeatherApiCached.fetchWeatherForPositions env positions M cb s = Some out ∧
    requests (final out)
    = requests s ++ (requestOf <$> WeatherApiCached.deduplicated positions) ∧
    length (requests (final out))
    = length (requests s) + size (list_to_set (keyOf <$> positions) : gset string).
Proof.
  intros Hcold HM.
  destruct (cached_run env positions M cb s HM) as (out & Hout & _).
  destruct (deduplicated_spec positions) as (Hnd & Hfrom & _).
  exists out. split; [done|].
  unfold WeatherApiCached.fetchWeatherForPositions in Hout.
  destruct (Batch.loop _ _ _ _ _ _ _ _) as [p|] eqn:Hloop; [|done].
  injection Hout as <-. simpl.
  rewrite (loop_cold _ _ _ _ _ _ _ Hnd) with (2 := Hloop).
  - rewrite drop_0. split; [done|].
    by rewrite length_app, length_fmap, deduplicated_length.
  - rewrite drop_0. intros pos Hin. simpl. by apply Hcold, Hfrom.
Qed.
End ColdRun.

(** ** Deduplication *)
Section FirstOccurrence.
Context {number : Type} {NUM : JSNumber number}.

Implicit Types (pos : Position number) (positions : list (Position number)).

Lemma uniquePositions_keys positions key :
  key ∈ (WeatherApiCached.uniquePositions positions).*1 ↔ key ∈ keyOf <$> positions.
Proof.
  destruct (remember_foldl positions []) as (_ & Hkey & _ & Hall).
  { constructor. }
  { intros k pos Hin. by apply elem_of_nil in Hin. }
  unfold WeatherApiCached.uniquePositions. split.
  - intros ([k pos] & -> & Hin)%list_elem_of_fmap. simpl.
    destruct (Hkey k pos Hin) as [-> [Hnil|Hpos]]; [by apply elem_of_nil in Hnil|].
    by apply list_elem_of_fmap_2.
  - intros (pos & -> & Hin)%list_elem_of_fmap. by apply Hall.
Qed.

Lemma deduplicated_snoc positions pos :
  WeatherApiCached.deduplicated (positions ++ [pos])
  = if bool_decide (keyOf pos ∈ keyOf <$> positions)
    then WeatherApiCached.deduplicated positions
    else WeatherApiCached.deduplicated positions ++ [pos].
Proof.
  unfold WeatherApiCached.deduplicated, WeatherApiCached.uniquePositions.
  rewrite foldl_app. simpl. unfold WeatherApiCached.remember at 1.
  fold (WeatherApiCached.uniquePositions positions).
  case_bool_decide as Hin; case_bool_decide as Hin'; try done.
  - by apply uniquePositions_keys in Hin.
  - by apply uniquePositions_keys in Hin'.
  - by rewrite fmap_app.
Qed.

(** X7: the deduplicated list keeps the order of the input, holds for
    each key the first input position with that key, and is left unchanged
    by a second deduplication. *)
Theorem deduplicated_keeps_first_occurrences positions :
  WeatherApiCached.deduplicated positions `sublist_of` positions ∧
  (∀ i pos, WeatherApiCached.deduplicated positions !! i = Some pos →
     ∃ j, positions !! j = Some pos ∧
          ∀ j' pos', j' < j → positions !! j' = Some pos' → keyOf pos' ≠ keyOf pos) ∧
  WeatherApiCached.deduplicated (WeatherApiCached.deduplicated positions)
  = WeatherApiCached.deduplicated positions.
Proof.
  split_and!.
  - induction positions as [|pos positions IH] using rev_ind; [done|].
    rewrite deduplicated_snoc. case_bool_decide.
    + by apply sublist_inserts_r.
    + by apply sublist_app.
  - induction positions as [|p positions IH] using rev_ind; [done|].
    rewrite deduplicated_snoc. intros i pos. case_bool_decide as Hseen.
    + intros (j & Hj & Hfirst)%IH. exists j.
      assert (j < length positions) as Hlt by by eapply lookup_lt_Some.
      split; [by rewrite lookup_app_l|].
      intros j' pos' Hj'. rewrite lookup_app_l by lia. by apply Hfirst.
    + intros [Hi|[Hlen Hi]]%lookup_app_Some.
      * apply IH in Hi as (j & Hj & Hfirst). exists j.
        assert (j < length positions) as Hlt by by eapply lookup_lt_Some.
        split; [by rewrite lookup_app_l|].
        intros j' pos' Hj'. rewrite lookup_app_l by lia. by apply Hfirst.
      * apply list_lookup_singleton_Some in Hi as [_ <-].
        exists (length positions). split.
        -- by rewrite lookup_app_r, Nat.sub_diag by lia.
        -- intros j' pos' Hj'. rewrite lookup_app_l by lia. intros Hpos' Hkey.
           apply Hseen. rewrite <- Hkey. apply list_elem_of_fmap_2.
           by eapply list_elem_of_lookup_2.
  - apply deduplicated_id. by destruct (deduplicated_spec positions) as [Hnd _].
Qed.
End FirstOccurrence.

(** ** The size of a batch *)
Section BatchSizes.
Context {number : Type} {NUM : JSNumber number}.
Variable beginFetch : number → number → State number → Task number * State number.
Variable resumeFetch : number → number → Task number → State number →
                       Completion (option (WeatherData number)) * State number.

Local Abbreviation positionOf := (Batch.lk_position (number := number)).

Lemma payload_size (chunk : list (Batch.Lookup number)) :
  size (Batch.payload chunk) ≤ length chunk.
Proof.
  induction chunk as [|lk chunk IH] using rev_ind.
  { unfold Batch.payload. simpl. by rewrite map_size_empty. }
  rewrite payload_snoc, length_app. simpl. unfold Batch.collect.
  destruct (Batch.lk_result lk) as [[[k w]|]|e]; [|lia..].
  rewrite map_size_insert. destruct (Batch.payload chunk !! k); simpl; lia.
Qed.

Lemma loop_chunks l M cb fuel i p p' (chunks : list (list (Batch.Lookup number))) :
  Batch.loop beginFetch resumeFetch l M cb fuel i p = Some p' →
  i = length chunks * M →
  Batch.delivered p = (if cb then Batch.payload <$> chunks else []) →
  (∀ j c, chunks !! j = Some c →
     positionOf <$> c = take M (drop (j * M) l) ∧
     Forall (Batch.genuine beginFetch resumeFetch) c) →
  ∃ chunks',
    Batch.delivered p' = (if cb then Batch.payload <$> chunks' else []) ∧
    ∀ j c, chunks' !! j = Some c →
      positionOf <$> c = take M (drop (j * M) l) ∧
      Forall (Batch.genuine beginFetch resumeFetch) c.
Proof.
  revert i p chunks. induction fuel as [|fuel IH]; intros i p chunks; simpl;
    (case_bool_decide as Hi; [|intros [= <-] _ Hd Hc; by exists chunks]); [done|].
  intros Hloop -> Hd Hc.
  destruct (iteration_spec beginFetch resumeFetch l M cb (length chunks * M) p)
    as (lookups & Hpos & Hgen & _ & Hd' & _).
  apply (IH _ _ (chunks ++ [lookups]) Hloop).
  - rewrite length_app. simpl. lia.
  - rewrite Hd', Hd. destruct cb; [|done]. by rewrite fmap_app.
  - intros j c [Hj|[Hlen Hj]]%lookup_app_Some; [by apply Hc|].
    apply list_lookup_singleton_Some in Hj as [Hj <-].
    replace j with (length chunks) by lia. done.
Qed.
End BatchSizes.

Section BoundedBatches.
Context {number : Type} {NUM : JSNumber number}.
Variable env : Env number.

(** X8: with a callback, the j-th payload of the cached revision has at
    most maxConcurrent entries, and their keys are keys of the positions
    j*M .. j*M + M - 1 of the deduplicated list. *)
Theorem payloads_follow_batches (positions : list (Position number)) M
    (s : State number) :
  0 < M →
  ∃ out,
    WeatherApiCached.fetchWeatherForPositions env positions M true s = Some out ∧
    ∀ j m, callbacks out !! j = Some m →
      size m ≤ M ∧
      ∀ key, is_Some (m !! key) →
        key ∈ keyOf <$> take M (drop (j * M) (WeatherApiCached.deduplicated positions)).
Proof.
  intros HM.
  destruct (cached_run env positions M true s HM) as (out & Hout & _ & Hgen & _).
  exists out. split; [done|].
  unfold WeatherApiCached.fetchWeatherForPositions in Hout.
  destruct (Batch.loop _ _ _ _ _ _ _ _) as [p|] eqn:Hloop; [|done].
  injection Hout as <-. simpl in *.
  destruct (loop_chunks _ _ _ _ _ _ _ _ _ [] Hloop) as (chunks & Hd & Hshape); try done.
  intros j m Hj. rewrite Hd in Hj.
  apply list_lookup_fmap_Some_1 in Hj as (c & -> & Hc).
  destruct (Hshape j c Hc) as [Hpos Hgenc]. split.
  - etrans; [apply payload_size|].
    rewrite <- (length_fmap Batch.lk_position), Hpos, length_take. lia.
  - intros key [w Hw]. apply payload_lookup_1 in Hw as (lk & Hin & Hres).
    rewrite <- Hpos, <- list_fmap_compose.
    assert (Batch.genuine (WeatherApiCached.beginFetch env)
              (WeatherApiCached.resumeFetch env) lk) as Hlk.
    { rewrite Forall_forall in Hgenc. by apply Hgenc. }
    rewrite (genuine_key _ _ lk key w Hlk Hres).
    by apply (list_elem_of_fmap_2 (keyOf ∘ Batch.lk_position)).
Qed.
End BoundedBatches.

(** ** The map the component builds from the callbacks *)
Section Merging.
Context {number : Type} {NUM : JSNumber number}.

Lemma mergeBatch_union (prev batchData : gmap string (WeatherData number)) :
  App.mergeBatch prev batchData = batchData ∪ prev.
Proof.
  unfold App.mergeBatch.
  apply (map_fold_weak_ind (λ updated m, updated = m ∪ prev)).
  - by rewrite (left_id_L ∅ (∪)).
  - intros key value m updated _ ->. by rewrite insert_union_l.
Qed.

Lemma collect_union (m : gmap string (WeatherData number)) results :
  foldl Batch.collect m results = foldl Batch.collect ∅ results ∪ m.
Proof.
  induction results as [|r results IH] using rev_ind; simpl.
  - by rewrite (left_id_L ∅ (∪)).
  - rewrite !foldl_app. simpl. rewrite IH. unfold Batch.collect.
    destruct r as [[[key weather]|]|e]; [|done..]. by rewrite insert_union_l.
Qed.

Lemma payload_app (t1 t2 : list (Batch.Lookup number)) :
  Batch.payload (t1 ++ t2) = Batch.payload t2 ∪ Batch.payload t1.
Proof.
  unfold Batch.payload. by rewrite fmap_app, foldl_app, collect_union.
Qed.

Lemma merged_payloads (chunks : list (list (Batch.Lookup number))) :
  foldl App.mergeBatch ∅ (Batch.payload <$> chunks) = Batch.payload (concat chunks).
Proof.
  induction chunks as [|c chunks IH] using rev_ind; [done|].
  rewrite fmap_app, foldl_app, concat_app. simpl.
  by rewrite mergeBatch_union, IH, app_nil_r, payload_app.
Qed.
End Merging.

Section Component.
Context {number : Type} {NUM : JSNumber number}.
Variable env : Env number.

Local Abbreviation positionOf := (Batch.lk_position (number := number)).

Lemma payload_prefix (t1 t2 : list (Batch.Lookup number)) :
  Forall (Batch.genuine (WeatherApiCached.beginFetch env)
            (WeatherApiCached.resumeFetch env)) (t1 ++ t2) →
  NoDup (keyOf ∘ positionOf <$> t1 ++ t2) →
  Batch.payload t1 ⊆ Batch.payload (t1 ++ t2).
Proof.
  intros Hgen Hnd. apply map_subseteq_spec. intros key weather Hin.
  apply payload_lookup_1 in Hin as (lk & Hin & Hres).
  eapply payload_lookup_2; [exact Hgen|exact Hnd| |exact Hres].
  apply elem_of_app. by left.
Qed.

(** X9: loadWeather always finishes; the map the component has built
    once every callback has been applied is the map
    fetchWeatherForPositions returns, and the map after any number of
    callbacks is contained in it: an entry shown is never changed or
    removed by a later batch. *)
Theorem merged_batches_reach_result
    (positions : list (ConstellationApi.BalloonPosition number)) (s : State number) :
  ∃ weatherData out,
    App.loadWeather env positions s = Some (weatherData, final out) ∧
    WeatherApiCached.fetchWeatherForPositions env
      ((λ p, {| pos_latitude := ConstellationApi.latitude p;
                pos_longitude := ConstellationApi.longitude p |}) <$> positions)
      20 true s = Some out ∧
    weatherData = result out ∧
    ∀ n, foldl App.mergeBatch ∅ (take n (callbacks out)) ⊆ weatherData.
Proof.
  unfold App.loadWeather.
  destruct (cached_run env
              ((λ p, {| pos_latitude := ConstellationApi.latitude p;
                        pos_longitude := ConstellationApi.longitude p |}) <$> positions)
              20 true s) as (out & Hout & _ & Hgen & Hnd & Hres & (chunks & Hc & Hcb) & _);
    [lia|].
  rewrite Hout. simpl. eexists _, out. split_and!; [done..| |].
  - by rewrite Hcb, merged_payloads, <- Hc.
  - intros n. rewrite Hcb, merged_payloads, <- fmap_take, merged_payloads, <- Hc.
    rewrite Hc in Hgen, Hnd. rewrite Hc.
    rewrite <- (take_drop n chunks) at 2. rewrite concat_app.
    rewrite <- (take_drop n chunks), concat_app in Hgen, Hnd.
    by apply payload_prefix.
Qed.
End Component.

(** ** The constellation client *)
Section Parsing.
Context {number : Type} {NUM : JSNumber number} {ORD : JSOrder number}.

Local Abbreviation valid := (λ v : JSValue number, ConstellationApi.isValidPosition v = true).

Lemma within_number (v : JSValue number) lo hi :
  ConstellationApi.within v lo hi = true → ∃ n, v = JNum n.
Proof. destruct v; try done. by eexists. Qed.

Lemma valid_triple (v : JSValue number) :
  ConstellationApi.isValidPosition v = true →
  ∃ lat lon alt,
    v = JArr [JNum lat; JNum lon; JNum alt] ∧
    ConstellationApi.within (JNum lat) (-90) 90 = true ∧
    ConstellationApi.within (JNum lon) (-180) 180 = true ∧
    ConstellationApi.within (JNum alt) (-500) 50000 = true.
Proof.
  destruct v as [| | | | |items|]; try done.
  destruct items as [|a [|b [|c [|d items]]]]; try done. simpl.
  intros [[Ha Hb]%andb_true_iff Hc]%andb_true_iff.
  destruct (within_number _ _ _ Ha) as [lat ->].
  destruct (within_number _ _ _ Hb) as [lon ->].
  destruct (within_number _ _ _ Hc) as [alt ->].
  by exists lat, lon, alt.
Qed.

Lemma parse_items (items : list (JSValue number)) hoursAgo :
  toTriple <$> omap (ConstellationApi.toBalloon hoursAgo) (filter valid items)
  = filter valid items.
Proof.
  induction items as [|v items IH]; [done|].
  rewrite filter_cons. case_decide as Hv; [|done].
  destruct (valid_triple v Hv) as (lat & lon & alt & -> & _). simpl.
  f_equal. exact IH.
Qed.

(** X10: parseConstellationResponse keeps exactly the entries of the array
    that isValidPosition accepts, in their order and with their three
    numbers unchanged; every position it returns carries the hour it was
    called with and coordinates inside the three ranges; anything that is
    not an array gives the empty list. *)
Theorem parsed_positions_are_the_valid_entries (data : JSValue number) hoursAgo :
  match data with
  | JArr items =>
    toTriple <$> ConstellationApi.parseConstellationResponse data hoursAgo
    = filter valid items
  | _ => ConstellationApi.parseConstellationResponse data hoursAgo = []
  end ∧
  Forall (λ p,
    ConstellationApi.timestamp p = hoursAgo ∧
    ConstellationApi.within (JNum (ConstellationApi.latitude p)) (-90) 90 = true ∧
    ConstellationApi.within (JNum (ConstellationApi.longitude p)) (-180) 180 = true ∧
    ConstellationApi.within (JNum (ConstellationApi.altitude p)) (-500) 50000 = true)
    (ConstellationApi.parseConstellationResponse data hoursAgo).
Proof.
  split.
  - destruct data; try done. apply parse_items.
  - apply Forall_forall. intros p Hp.
    destruct data as [| | | | |items|]; try by apply elem_of_nil in Hp.
    simpl in Hp. apply list_elem_of_omap in Hp as (v & Hv & Hp).
    apply list_elem_of_filter in Hv as [Hv _].
    destruct (valid_triple v Hv) as (lat & lon & alt & -> & Hlat & Hlon & Halt).
    simpl in Hp. by injection Hp as <-.
Qed.
End Parsing.

Section HourFetch.
Context {number : Type} {NUM : JSNumber number} {ORD : JSOrder number}.
Variable web : ConstellationApi.Web number.

Import ConstellationApi.

Lemma readPositions_parsed hoursAgo (response : Response number) found :
  readPositions hoursAgo response = Normal found →
  found = [] ∨ ∃ data, ok response = true ∧ json response = Normal data ∧
                       found = parseConstellationResponse data hoursAgo.
Proof.
  unfold readPositions. destruct (ok response); simpl; [|intros [= <-]; by left].
  destruct (json response) as [data|e]; simpl; [|done].
  intros [= <-]. right. by exists data.
Qed.

(** Where the rest of a call ends, whatever the first answer was. *)
Lemma resumeHour_spec hoursAgo (o : FetchOutcome number) (st : Session) :
  ∃ found extra,
    resumeHour web hoursAgo o st
    = (Normal found, {| asked := asked st ++ extra; reads := reads st |}) ∧
    (extra = [] ∨
     extra = [directUrl hoursAgo] ∧ ∃ r, o = Responded r ∧ status r = 404%Z) ∧
    (found = [] ∨
     ∃ response data,
       (o = Responded response ∧ status response ≠ 404%Z ∨
        (∃ r, o = Responded r ∧ status r = 404%Z) ∧
        answerOf web (directUrl hoursAgo) = Responded response) ∧
       ok response = true ∧ json response = Normal data ∧
       found = parseConstellationResponse data hoursAgo).
Proof.
  unfold resumeHour, afterProxy, ask. destruct st as [urls n]. simpl.
  destruct o as [e|response]; simpl.
  { exists [], []. rewrite app_nil_r. split_and!; [done|by left..]. }
  destruct (status response =? 404)%Z eqn:H404.
  - apply Z.eqb_eq in H404.
    assert (ok response = false) as -> by (unfold ok; rewrite H404; done).
    simpl. destruct (answerOf web (directUrl hoursAgo)) as [e|response2] eqn:Hdirect; simpl.
    { exists [], [directUrl hoursAgo]. split_and!; [done| |by left].
      right. split; [done|]. by exists response. }
    destruct (readPositions hoursAgo response2) as [found|e] eqn:Hread; simpl.
    + exists found, [directUrl hoursAgo]. split_and!; [done| |].
      * right. split; [done|]. by exists response.
      * apply readPositions_parsed in Hread as [->|(data & Hok & Hjson & ->)]; [by left|].
        right. exists response2, data. split_and!; try done.
        right. split; [by exists response|done].
    + exists [], [directUrl hoursAgo]. split_and!; [done| |by left].
      right. split; [done|]. by exists response.
  - apply Z.eqb_neq in H404. rewrite andb_false_r.
    destruct (readPositions hoursAgo response) as [found|e] eqn:Hread; simpl.
    + exists found, []. rewrite app_nil_r. split_and!; [done|by left|].
      apply readPositions_parsed in Hread as [->|(data & Hok & Hjson & ->)]; [by left|].
      right. exists response, data. split_and!; try done. by left.
    + exists [], []. rewrite app_nil_r. split_and!; [done|by left..].
Qed.

(** What a call returns does not depend on the session it runs in. *)
Lemma resumeHour_value hoursAgo (o : FetchOutcome number) (st st0 : Session) :
  (resumeHour web hoursAgo o st).1 = (resumeHour web hoursAgo o st0).1.
Proof.
  unfold resumeHour, afterProxy, ask. simpl.
  destruct o as [e|response]; [done|].
  destruct (negb (ok response) && (status response =? 404)%Z);
    [|by destruct (readPositions hoursAgo response)].
  destruct (answerOf web (directUrl hoursAgo)) as [e|response2]; [done|].
  by destruct (readPositions hoursAgo response2).
Qed.

(** X11: fetchConstellationHour never rejects and reads no clock.  It asks
    the proxy first and the direct URL only after a 404 from the proxy, so
    it makes one or two requests.  What it returns is empty or the parse of
    the body of the last response, which was then a success. *)
Theorem hour_fetch_falls_back_on_404 hoursAgo (st : Session) :
  ∃ found st',
    fetchConstellationHour web hoursAgo st = (Normal found, st') ∧
    reads st' = reads st ∧
    (asked st' = asked st ++ [proxyUrl hoursAgo] ∨
     asked st' = asked st ++ [proxyUrl hoursAgo; directUrl hoursAgo] ∧
     ∃ r, answerOf web (proxyUrl hoursAgo) = Responded r ∧ status r = 404%Z) ∧
    (found = [] ∨
     ∃ response data,
       (answerOf web (proxyUrl hoursAgo) = Responded response ∧ status response ≠ 404%Z ∨
        (∃ r, answerOf web (proxyUrl hoursAgo) = Responded r ∧ status r = 404%Z) ∧
        answerOf web (directUrl hoursAgo) = Responded response) ∧
       ok response = true ∧ json response = Normal data ∧
       found = parseConstellationResponse data hoursAgo).
Proof.
  unfold fetchConstellationHour, beginHour, ask.
  destruct (resumeHour_spec hoursAgo (answerOf web (proxyUrl hoursAgo))
              {| asked := asked st ++ [proxyUrl hoursAgo]; reads := reads st |})
    as (found & extra & -> & Hextra & Hfound).
  exists found. eexists. split_and!; [done..| |done]. simpl.
  destruct Hextra as [->|[-> Hr]].
  - left. by rewrite app_nil_r.
  - right. by rewrite <- app_assoc.
Qed.
End HourFetch.

Section Sorting.
Context {A : Type}.

Lemma sortBy_sorted (compare : A → A → Z) (l : list A) :
  StronglySorted (λ a b, compare a b ≤ 0)%Z l → sortBy compare l = l.
Proof.
  induction 1 as [|x l _ IH Hx]; [done|].
  unfold sortBy in *. simpl. rewrite IH.
  destruct l as [|y l]; [done|]. simpl.
  apply Forall_cons in Hx as [Hxy _].
  by apply Z.leb_le in Hxy as ->.
Qed.

Lemma StronglySorted_filter (R : relation A) (P : A → Prop) `{!∀ x, Decision (P x)}
    (l : list A) :
  StronglySorted R l → StronglySorted R (filter P l).
Proof.
  induction 1 as [|x l _ IH Hx]; [constructor|].
  rewrite filter_cons. case_decide; [|done].
  constructor; [done|].
  apply Forall_forall. intros y [_ Hy]%list_elem_of_filter.
  rewrite Forall_forall in Hx. by apply Hx.
Qed.

Lemma StronglySorted_impl (R R' : relation A) (l : list A) :
  (∀ x y, R x y → R' x y) → StronglySorted R l → StronglySorted R' l.
Proof.
  intros HR. induction 1 as [|x l _ IH Hx]; constructor; [done|].
  eapply Forall_impl; [exact Hx|]. apply HR.
Qed.

Lemma StronglySorted_fmap_inv {B : Type} (f : A → B) (R : relation B) (l : list A) :
  StronglySorted R (f <$> l) → StronglySorted (λ a b, R (f a) (f b)) l.
Proof.
  induction l as [|x l IH]; [constructor|].
  rewrite fmap_cons. intros [Hx Hl]%StronglySorted_cons.
  constructor; [by apply IH|]. by rewrite Forall_fmap in Hx.
Qed.

Lemma StronglySorted_seq start len : StronglySorted lt (seq start len).
Proof.
  revert start. induction len as [|len IH]; intros start; simpl; constructor; [done|].
  apply Forall_forall. intros y Hy%elem_of_seq. lia.
Qed.
End Sorting.

Section History.
Context {number : Type} {NUM : JSNumber number} {ORD : JSOrder number}.
Variable web : ConstellationApi.Web number.

Import ConstellationApi.

Lemma mapW_begin (hs : list nat) (st : Session) :
  mapW (λ h st, let '(o, st') := beginHour web h st in ((h, o), st')) hs st
  = ((λ h, (h, answerOf web (proxyUrl h))) <$> hs,
     {| asked := asked st ++ (proxyUrl <$> hs); reads := reads st |}).
Proof.
  unfold beginHour, ask. revert st. induction hs as [|h hs IH]; intros st; simpl.
  - destruct st. simpl. by rewrite app_nil_r.
  - rewrite IH. simpl. by rewrite <- app_assoc.
Qed.

Lemma finishHour_spec h (st : Session) :
  ∃ d extra,
    finishHour web (h, answerOf web (proxyUrl h)) st
    = (Normal d, {| asked := asked st ++ extra; reads := S (reads st) |}) ∧
    hour d = h ∧
    (∀ st0, (fetchConstellationHour web h st0).1 = Normal (positions d)) ∧
    takenAt d = (timeAt web (reads st) - Z.of_nat h * 60 * 60 * 1000)%Z ∧
    (extra = [] ∨ extra = [directUrl h]).
Proof.
  unfold finishHour.
  pose proof (resumeHour_value web h (answerOf web (proxyUrl h)) st) as Hvalue.
  destruct (resumeHour_spec web h (answerOf web (proxyUrl h)) st)
    as (found & extra & Hresume & Hextra & _).
  rewrite Hresume in *. simpl in *.
  eexists _, extra. split_and!; [done..| | |]; simpl; [|done|].
  - intros st0. unfold fetchConstellationHour, beginHour, ask. by rewrite <- Hvalue.
  - destruct Hextra as [->|[-> _]]; [by left|by right].
Qed.

Lemma mapW_finish (hs : list nat) (st : Session) :
  ∃ ds more,
    mapW (finishHour web) ((λ h, (h, answerOf web (proxyUrl h))) <$> hs) st
    = (Normal <$> ds, {| asked := asked st ++ more; reads := reads st + length hs |}) ∧
    hour <$> ds = hs ∧
    Forall (λ d,
      (∀ st0, (fetchConstellationHour web (hour d) st0).1 = Normal (positions d)) ∧
      ∃ n, reads st ≤ n < reads st + length hs ∧
           takenAt d = (timeAt web n - Z.of_nat (hour d) * 60 * 60 * 1000)%Z) ds ∧
    Forall (λ url, ∃ h, h ∈ hs ∧ url = directUrl h) more.
Proof.
  revert st. induction hs as [|h hs IH]; intros st.
  - exists [], []. destruct st. simpl. rewrite app_nil_r, Nat.add_0_r. by split_and!.
  - rewrite fmap_cons. cbn [mapW].
    destruct (finishHour_spec h st) as (d & extra & -> & Hh & Hpos & Htime & Hextra).
    destruct (IH {| asked := asked st ++ extra; reads := S (reads st) |})
      as (ds & more & -> & Hhs & Hds & Hmore).
    exists (d :: ds), (extra ++ more). simpl. split_and!.
    + do 2 f_equal; [by rewrite app_assoc|lia].
    + rewrite Hh. f_equal. exact Hhs.
    + constructor.
      * rewrite Hh. split; [done|]. exists (reads st). split; [lia|done].
      * eapply Forall_impl; [exact Hds|]. simpl. intros d' [Hd' (n & Hn & Hat)].
        split; [done|]. exists n. split; [lia|done].
    + apply Forall_app. split.
      * destruct Hextra as [-> | ->]; [constructor|].
        apply Forall_singleton. exists h. split; [apply elem_of_cons; by left|done].
      * eapply Forall_impl; [exact Hmore|]. simpl. intros url (h' & Hh' & ->).
        exists h'. split; [apply elem_of_cons; by right|done].
Qed.

Lemma allOf_normal {B : Type} (values : list B) :
  allOf (Normal <$> values) = Normal values.
Proof.
  induction values as [|v values IH]; [done|].
  rewrite fmap_cons. cbn [allOf]. by rewrite IH.
Qed.

(** X12: fetchConstellationHistory never rejects.  It asks the proxy for
    the hours 0 to 23 before anything else and a direct URL at most
    afterwards, and reads the clock twenty-four times.  The list it returns
    is in strictly increasing order of hour; it holds an entry for exactly
    those hours below 24 whose fetch returned a non-empty list, with that
    list as its positions and a time of the clock less the hour in
    milliseconds. *)
Theorem history_lists_nonempty_hours_in_order (st : Session) :
  ∃ history st',
    fetchConstellationHistory web st = (Normal history, st') ∧
    StronglySorted lt (hour <$> history) ∧
    Forall (λ d,
      hour d < 24 ∧ positions d ≠ [] ∧
      (∀ st0, (fetchConstellationHour web (hour d) st0).1 = Normal (positions d)) ∧
      ∃ n, reads st ≤ n < reads st + 24 ∧
           takenAt d = (timeAt web n - Z.of_nat (hour d) * 60 * 60 * 1000)%Z) history ∧
    (∀ h found st0,
       h < 24 → (fetchConstellationHour web h st0).1 = Normal found → found ≠ [] →
       ∃ d, d ∈ history ∧ hour d = h) ∧
    reads st' = reads st + 24 ∧
    ∃ more,
      asked st' = asked st ++ (proxyUrl <$> seq 0 24) ++ more ∧
      Forall (λ url, ∃ h, h < 24 ∧ url = directUrl h) more.
Proof.
  unfold fetchConstellationHistory. cbv zeta. rewrite mapW_begin.
  destruct (mapW_finish (seq 0 24)
              {| asked := asked st ++ (proxyUrl <$> seq 0 24); reads := reads st |})
    as (ds & more & -> & Hhs & Hds & Hmore).
  rewrite allOf_normal. simpl in Hds.
  assert (StronglySorted (λ a b, hour a < hour b) ds) as Hlt.
  { apply StronglySorted_fmap_inv. rewrite Hhs. apply StronglySorted_seq. }
  assert (StronglySorted (λ a b, Z.of_nat (hour a) - Z.of_nat (hour b) ≤ 0)%Z ds) as Hsorted.
  { eapply StronglySorted_impl; [|exact Hlt]. simpl. lia. }
  eexists _, _. split; [reflexivity|].
  rewrite sortBy_sorted by by apply StronglySorted_filter.
  rewrite Forall_forall in Hds. simpl. split_and!.
  - apply (StronglySorted_fmap _ (λ a b, hour a < hour b) lt); [done|].
    by apply StronglySorted_filter.
  - apply Forall_forall. intros d [Hlen Hd]%list_elem_of_filter.
    destruct (Hds d Hd) as [Hfetch Htime]. split_and!;
      [|intros Hnil; rewrite Hnil in Hlen; simpl in Hlen; lia|done..].
    assert (hour d ∈ seq 0 24) as Hin%elem_of_seq; [|lia].
    rewrite <- Hhs. by apply list_elem_of_fmap_2.
  - intros h found st0 Hh Hfound Hne.
    assert (h ∈ hour <$> ds) as (d & -> & Hd)%list_elem_of_fmap.
    { rewrite Hhs. apply elem_of_seq. lia. }
    exists d. split; [|done]. apply list_elem_of_filter. split; [|done].
    destruct (Hds d Hd) as [Hfetch _]. rewrite Hfetch in Hfound.
    injection Hfound as <-. destruct (positions d); [done|simpl; lia].
  - done.
  - exists more. split; [by rewrite <- app_assoc|].
    eapply Forall_impl; [exact Hmore|]. cbv beta. intros url (h & Hh%elem_of_seq & ->).
    exists h. split; [lia|done].
Qed.
End History.

(** ** The proxy functions *)
Section Proxies.
Context {number : Type} {NUM : JSNumber number}.
Variable fetch : string → NetlifyFunctions.UpstreamOutcome number.

Import NetlifyFunctions.

Lemma two_digits (n : Z) :
  (0 ≤ n ≤ 23)%Z →
  padStart 2 "0"%char (pretty n) = (if (n <? 10)%Z then "0" +:+ pretty n else pretty n) ∧
  String.length (padStart 2 "0"%char (pretty n)) = 2.
Proof.
  intros Hn. assert (∃ k, k < 24 ∧ n = Z.of_nat k) as (k & Hk & ->).
  { exists (Z.to_nat n). lia. }
  clear Hn. do 24 (destruct k as [|k]; [by vm_compute|]). lia.
Qed.

(** X13: the constellation proxy asks upstream only for a GET whose hour
    parses to an integer from 0 to 23 (the text "00" when the parameter is
    missing or empty), and then for the file named by the two digits of
    that hour.  It answers 200 only with the data of an upstream response
    that was a success and whose body could be read; without a request the
    answer is 405 or 400. *)
Theorem constellation_proxy_relays_valid_hours (parseInt : string → option Z)
    (event : Event) :
  let reply := (constellationHandler parseInt fetch event).1 in
  let sent := (constellationHandler parseInt fetch event).2 in
  (∀ url, sent = Some url →
     httpMethod event = "GET" ∧
     ∃ text n,
       (param event "hour" = Some text ∧ text ≠ "" ∨
        text = "00" ∧ present (param event "hour") = false) ∧
       parseInt text = Some n ∧ (0 ≤ n ≤ 23)%Z ∧
       url = "https://a.windbornesystems.com/treasure/"
             +:+ (if (n <? 10)%Z then "0" +:+ pretty n else pretty n) +:+ ".json") ∧
  (sent = None → statusCode reply = 405%Z ∨ statusCode reply = 400%Z) ∧
  (statusCode reply = 200%Z →
     ∃ url response data,
       sent = Some url ∧ fetch url = UpstreamResponded response ∧
       up_ok response = true ∧ up_json response = Normal data ∧
       body reply = DataBody data) ∧
  (∀ data, body reply = DataBody data → statusCode reply = 200%Z) ∧
  (statusCode reply ≠ 405%Z → headers reply = corsJson).
Proof.
  unfold constellationHandler.
  destruct (String.eqb (httpMethod event) "GET") eqn:Hget; simpl.
  2: { split_and!; try done. by left. }
  apply String.eqb_eq in Hget.
  set (text := if present (param event "hour") then default "00" (param event "hour")
               else "00").
  assert (param event "hour" = Some text ∧ text ≠ "" ∨
          text = "00" ∧ present (param event "hour") = false) as Htext.
  { subst text. unfold present. destruct (param event "hour") as [s|]; [|by right].
    simpl. destruct (String.eqb s "") eqn:Hs; simpl; [by right|].
    left. split; [done|]. by apply String.eqb_neq in Hs. }
  destruct (parseInt text) as [n|] eqn:Hparse; simpl.
  2: { split_and!; try done. by right. }
  destruct ((n <? 0)%Z || (23 <? n)%Z) eqn:Hrange; simpl.
  { split_and!; try done. by right. }
  apply orb_false_iff in Hrange as [H0%Z.ltb_ge H23%Z.ltb_ge].
  destruct (two_digits n) as [Hdigits _]; [lia|].
  split_and!.
  - intros url [= <-]. split; [done|]. exists text, n. by rewrite Hdigits.
  - done.
  - destruct (fetch _) as [e|response] eqn:Hfetch; simpl; [done|].
    destruct (up_ok response) eqn:Hok; simpl.
    + destruct (up_json response) as [data|e] eqn:Hjson; simpl; [|done].
      intros _. by eexists _, response, data.
    + intros Hstatus. unfold up_ok in Hok. rewrite Hstatus in Hok. done.
  - destruct (fetch _) as [e|response]; simpl; [done|].
    destruct (up_ok response); simpl; [|done].
    by destruct (up_json response).
  - intros _. destruct (fetch _) as [e|response]; simpl; [done|].
    destruct (up_ok response); simpl; [|done].
    by destruct (up_json response).
Qed.

(** X14: for a GET with both coordinates, once the upstream has answered
    with a body that can be read, the weather proxy relays the status of
    the upstream whatever it is, the body, and each of the three rate-limit
    headers exactly when the upstream sent it non-empty; the reply carries
    no header beyond these and the two fixed ones. *)
Theorem weather_proxy_forwards_rate_limit_headers (event : Event)
    (latitude longitude : string) (response : Upstream number) (data : JSValue number) :
  httpMethod event = "GET" →
  param event "latitude" = Some latitude → latitude ≠ "" →
  param event "longitude" = Some longitude → longitude ≠ "" →
  fetch (weatherUrl latitude longitude) = UpstreamResponded response →
  up_json response = Normal data →
  ∃ reply,
    weatherHandler fetch event = (reply, Some (weatherUrl latitude longitude)) ∧
    statusCode reply = up_status response ∧
    body reply = DataBody data ∧
    (∀ name, name ∈ ["Retry-After"; "X-RateLimit-Remaining"; "X-RateLimit-Reset"] →
       headers reply !! name
       = if present (up_header response name) then up_header response name else None) ∧
    headers reply !! "Access-Control-Allow-Origin" = Some "*" ∧
    headers reply !! "Content-Type" = Some "application/json" ∧
    ∀ name, is_Some (headers reply !! name) →
      name ∈ ["Access-Control-Allow-Origin"; "Content-Type"; "Retry-After";
              "X-RateLimit-Remaining"; "X-RateLimit-Reset"].
Proof.
  intros Hget Hlat Hlat' Hlon Hlon' Hfetch Hjson. unfold weatherHandler.
  rewrite Hget, Hlat, Hlon. simpl.
  apply String.eqb_neq in Hlat', Hlon'. rewrite Hlat', Hlon'. simpl.
  rewrite Hfetch, Hjson. eexists. split; [reflexivity|]. simpl.
  unfold forward, present, corsJson.
  split_and!; [done..| | | |].
  - intros name Hname. repeat apply elem_of_cons in Hname as [->|Hname];
      [..|by apply elem_of_nil in Hname];
      repeat (case_match; simplify_eq; simpl);
      by simplify_map_eq.
  - repeat (case_match; simplify_eq; simpl); by simplify_map_eq.
  - repeat (case_match; simplify_eq; simpl); by simplify_map_eq.
  - intros name [v Hv].
    destruct (decide (name = "Access-Control-Allow-Origin")) as [->|?]; [set_solver|].
    destruct (decide (name = "Content-Type")) as [->|?]; [set_solver|].
    destruct (decide (name = "Retry-After")) as [->|?]; [set_solver|].
    destruct (decide (name = "X-RateLimit-Remaining")) as [->|?]; [set_solver|].
    destruct (decide (name = "X-RateLimit-Reset")) as [->|?]; [set_solver|].
    exfalso. repeat (case_match; simplify_eq; simpl in * ); by simplify_map_eq.
Qed.

(** X15: the weather proxy asks upstream only for a GET that carries a
    non-empty latitude and a non-empty longitude, and the URL then holds
    the two texts as they came.  Without a request it answers 200 (to
    OPTIONS only), 405 or 400; when the request fails or the body cannot be
    read it answers 500. *)
Theorem weather_proxy_asks_only_with_coordinates (event : Event) :
  let reply := (weatherHandler fetch event).1 in
  let sent := (weatherHandler fetch event).2 in
  (∀ url, sent = Some url →
     httpMethod event = "GET" ∧
     ∃ latitude longitude,
       param event "latitude" = Some latitude ∧ latitude ≠ "" ∧
       param event "longitude" = Some longitude ∧ longitude ≠ "" ∧
       url = weatherUrl latitude longitude ∧
       ((∃ e, fetch url = UpstreamRejected e) ∨
        (∃ response e, fetch url = UpstreamResponded response ∧
                       up_json response = Throw e) →
        statusCode reply = 500%Z)) ∧
  (sent = None →
     statusCode reply = 200%Z ∧ httpMethod event = "OPTIONS" ∧ body reply = EmptyBody ∨
     statusCode reply = 405%Z ∨ statusCode reply = 400%Z).
Proof.
  unfold weatherHandler.
  destruct (String.eqb (httpMethod event) "OPTIONS") eqn:Hoptions; simpl.
  { apply String.eqb_eq in Hoptions. split; [done|]. intros _. by left. }
  destruct (String.eqb (httpMethod event) "GET") eqn:Hget; simpl.
  2: { split; [done|]. intros _. right. by left. }
  apply String.eqb_eq in Hget. unfold present.
  destruct (param event "latitude") as [latitude|]; simpl.
  2: { split; [done|]. intros _. right. by right. }
  destruct (String.eqb latitude "") eqn:Hlat; simpl.
  { split; [done|]. intros _. right. by right. }
  destruct (param event "longitude") as [longitude|]; simpl.
  2: { split; [done|]. intros _. right. by right. }
  destruct (String.eqb longitude "") eqn:Hlon; simpl.
  { split; [done|]. intros _. right. by right. }
  apply String.eqb_neq in Hlat, Hlon. split; [|done].
  intros url [= <-]. split; [done|]. exists latitude, longitude.
  split_and!; [done..|].
  intros [[e ->]|(response & e & -> & ->)]; done.
Qed.
End Proxies.

(** ** What the component shows for a balloon *)
Section LookupsFound.
Context {number : Type} {NUM : JSNumber number}.
Variable env : Env number.

Implicit Types (lk : Batch.Lookup number).

(** What a lookup of the cached revision found, read off its task. *)
Lemma cached_lookup_found lk :
  Batch.genuine (WeatherApiCached.beginFetch env) (WeatherApiCached.resumeFetch env) lk →
  (∀ w, Batch.lk_task lk = Returned w → Batch.found lk = Some w) ∧
  (∀ o current, Batch.lk_task lk = Awaiting o → success o = Some current →
     ∃ w, Batch.found lk = Some w ∧ builtFrom w (Batch.lk_position lk) current) ∧
  (∀ o, Batch.lk_task lk = Awaiting o → success o = None → Batch.found lk = None).
Proof.
  intros [_ [s Hsettled]]. unfold Batch.found. rewrite Hsettled. split_and!.
  - by intros w ->.
  - intros o current -> Hsuccess.
    destruct (cached_resume_success env (pos_latitude (Batch.lk_position lk))
                (pos_longitude (Batch.lk_position lk)) o current s Hsuccess)
      as (w & s2 & -> & Hbuilt).
    by exists w.
  - intros o -> Hnone. by rewrite cached_resume_no_success.
Qed.

(** The continuation of the revision without a cache yields an observation
    exactly on the answers with a truthy [current]. *)
Lemma uncached_resume_some lat lon (o : FetchOutcome number) s w :
  (WeatherApi.resumeFetch lat lon (Awaiting o) s).1 = Normal (Some w) →
  ∃ current, success o = Some current ∧
             builtFrom w {| pos_latitude := lat; pos_longitude := lon |} current.
Proof.
  unfold WeatherApi.resumeFetch, WeatherApi.afterFetch, success.
  destruct o as [e|r]; [done|].
  destruct (ok r); [|done]. simpl.
  destruct (json r) as [body|]; [|done].
  destruct (member body "current") as [current|]; [|done].
  destruct (truthy current); [|done]. simpl.
  destruct (buildWeather lat lon current) as [fields|] eqn:Hb; [|done].
  simpl. intros [= <-]. exists current. split; [done|].
  by apply buildWeather_inv in Hb.
Qed.

Lemma uncached_resume_success lat lon (o : FetchOutcome number) current s :
  success o = Some current →
  ∃ w, (WeatherApi.resumeFetch lat lon (Awaiting o) s).1 = Normal (Some w) ∧
       builtFrom w {| pos_latitude := lat; pos_longitude := lon |} current.
Proof.
  unfold WeatherApi.resumeFetch, WeatherApi.afterFetch, success.
  destruct o as [e|r]; [done|].
  destruct (ok r); [|done]. simpl.
  destruct (json r) as [body|]; [|done].
  destruct (member body "current") as [c|]; [|done].
  destruct (truthy c) eqn:Hc; [|done]. simpl. intros [= ->].
  destruct (buildWeather_truthy lat lon current Hc) as [fields Hb].
  rewrite Hb. simpl. exists fields. split; [done|].
  by apply buildWeather_inv in Hb.
Qed.

Lemma uncached_resume_no_success lat lon (o : FetchOutcome number) s :
  success o = None → (WeatherApi.resumeFetch lat lon (Awaiting o) s).1 = Normal None.
Proof.
  unfold WeatherApi.resumeFetch, WeatherApi.afterFetch, success.
  destruct o as [e|r]; [done|].
  destruct (ok r); [|done]. simpl.
  destruct (json r) as [body|]; [|done].
  destruct (member body "current") as [current|]; [|done].
  by destruct (truthy current).
Qed.

(** What a lookup of the revision without a cache found, read off its
    task, which always waits for an answer. *)
Lemma uncached_lookup_found lk :
  Batch.genuine (WeatherApi.beginFetch env) WeatherApi.resumeFetch lk →
  ∃ o, Batch.lk_task lk = Awaiting o ∧
       (∀ w, Batch.found lk = Some w →
          ∃ current, success o = Some current ∧
                     builtFrom w (Batch.lk_position lk) current) ∧
       (∀ current, success o = Some current → is_Some (Batch.found lk)) ∧
       (success o = None → Batch.found lk = None).
Proof.
  intros [[s1 Htask] [s Hsettled]]. unfold WeatherApi.beginFetch, fetch in Htask.
  simpl in Htask. rewrite Htask in Hsettled.
  eexists. split; [exact Htask|].
  unfold Batch.found. rewrite Hsettled. clear Hsettled Htask. split_and!.
  - intros w Hw.
    destruct (WeatherApi.resumeFetch _ _ _ s).1 as [[w'|]|e] eqn:Hresume; try done.
    simpl in Hw. injection Hw as ->.
    apply uncached_resume_some in Hresume. by destruct (Batch.lk_position lk).
  - intros current Hsuccess.
    destruct (uncached_resume_success (pos_latitude (Batch.lk_position lk))
                (pos_longitude (Batch.lk_position lk)) _ current s Hsuccess)
      as (w & -> & _).
    by eexists.
  - intros Hnone. by rewrite uncached_resume_no_success.
Qed.
End LookupsFound.

Section Overwritten.
Context {number : Type} {NUM : JSNumber number}.
Variable beginFetch : number → number → State number → Task number * State number.
Variable resumeFetch : number → number → Task number → State number →
                       Completion (option (WeatherData number)) * State number.

(** Whatever a lookup found, the batch map has an entry under its key:
    that observation or one a later lookup for the key found. *)
Lemma payload_found_some (trace : list (Batch.Lookup number)) lk w :
  Forall (Batch.genuine beginFetch resumeFetch) trace →
  lk ∈ trace → Batch.found lk = Some w →
  is_Some (Batch.payload trace !! keyOf (Batch.lk_position lk)).
Proof.
  induction trace as [|x trace IH] using rev_ind; intros Hgen Hin Hfound;
    [by apply elem_of_nil in Hin|].
  apply Forall_app in Hgen as [Hgen Hx]. rewrite Forall_singleton in Hx.
  rewrite payload_snoc. unfold Batch.collect.
  apply elem_of_app in Hin as [Hin| ->%list_elem_of_singleton].
  - specialize (IH Hgen Hin Hfound).
    destruct (Batch.lk_result x) as [[[k w']|]|e]; [|done..].
    destruct (decide (k = keyOf (Batch.lk_position lk))) as [->|Hne].
    + rewrite lookup_insert_eq. by eexists.
    + by rewrite lookup_insert_ne.
  - unfold Batch.found in Hfound.
    destruct (Batch.lk_result x) as [[[k w']|]|e] eqn:Hres; try done.
    rewrite <- (genuine_key _ _ x k w' Hx Hres), lookup_insert_eq. by eexists.
Qed.
End Overwritten.

Section ShownWeather.
Context {number : Type} {NUM : JSNumber number}.
Variable env : Env number.

(** X16: the revision of the component whose getWeather looks up the exact
    key, after loadWeather on a list of balloons.  With the weather service
    that deduplicates, getWeather gives for a balloon of the list what the
    one lookup for the key of that balloon returned: the cached observation
    if it was served from the cache, the observation built from the answer
    if the answer had a truthy [current], and null on any other answer.
    With the weather service that looks up every position, what getWeather
    gives was built from a successful answer to a lookup for that key, and
    it gives null only if every lookup for that key got another answer. *)
Theorem shown_weather_is_what_the_lookup_found
    (positions : list (ConstellationApi.BalloonPosition number)) (s : State number)
    (balloon : ConstellationApi.BalloonPosition number) :
  balloon ∈ positions →
  let key := positionKey (ConstellationApi.latitude balloon)
                         (ConstellationApi.longitude balloon) in
  (∃ weatherData out lk,
     AppExact.loadWeather (WeatherApiCached.fetchWeatherForPositions env) positions s
     = Some (weatherData, final out) ∧
     lk ∈ lookups out ∧ keyOf (Batch.lk_position lk) = key ∧
     (∀ lk', lk' ∈ lookups out →
             keyOf (Batch.lk_position lk') = keyOf (Batch.lk_position lk) → lk' = lk) ∧
     (∀ w, Batch.lk_task lk = Returned w →
           AppExact.getWeather weatherData balloon = Some w) ∧
     (∀ o current, Batch.lk_task lk = Awaiting o → success o = Some current →
        ∃ w, AppExact.getWeather weatherData balloon = Some w ∧
             builtFrom w (Batch.lk_position lk) current) ∧
     (∀ o, Batch.lk_task lk = Awaiting o → success o = None →
           AppExact.getWeather weatherData balloon = None) ∧
     AppExact.getWeather weatherData balloon = Batch.found lk) ∧
  (∃ weatherData out,
     AppExact.loadWeather (WeatherApi.fetchWeatherForPositions env) positions s
     = Some (weatherData, final out) ∧
     (∀ w, AppExact.getWeather weatherData balloon = Some w →
        ∃ lk o current,
          lk ∈ lookups out ∧ keyOf (Batch.lk_position lk) = key ∧
          Batch.lk_task lk = Awaiting o ∧ success o = Some current ∧
          builtFrom w (Batch.lk_position lk) current) ∧
     (AppExact.getWeather weatherData balloon = None →
      ∀ lk o, lk ∈ lookups out → keyOf (Batch.lk_position lk) = key →
              Batch.lk_task lk = Awaiting o → success o = None)).
Proof.
  intros Hballoon key. unfold AppExact.loadWeather, AppExact.getWeather.
  set (asPosition := λ p : ConstellationApi.BalloonPosition number,
         {| pos_latitude := ConstellationApi.latitude p;
            pos_longitude := ConstellationApi.longitude p |}).
  subst key.
  change (positionKey (ConstellationApi.latitude balloon)
            (ConstellationApi.longitude balloon)) with (keyOf (asPosition balloon)).
  split.
  - destruct (cached_run env (asPosition <$> positions) 10 true s)
      as (out & Hout & Hpos & Hgen & Hnd & Hres & (chunks & Hc & Hcb) & _); [lia|].
    rewrite Hout. simpl.
    destruct (deduplicated_spec (asPosition <$> positions)) as (_ & _ & Hall).
    assert (keyOf (asPosition balloon) ∈ keyOf ∘ Batch.lk_position <$> lookups out)
      as (lk & Hkey & Hlk)%list_elem_of_fmap.
    { rewrite list_fmap_compose, Hpos. apply Hall. by apply list_elem_of_fmap_2. }
    assert (foldl App.mergeBatch ∅ (callbacks out) !! keyOf (asPosition balloon)
            = Batch.found lk) as Hshown.
    { rewrite Hcb, merged_payloads, <- Hc, Hkey. simpl. by eapply payload_found. }
    destruct (cached_lookup_found env lk) as (Hhit & Hgood & Hbad).
    { rewrite Forall_forall in Hgen. by apply Hgen. }
    exists (foldl App.mergeBatch ∅ (callbacks out)), out, lk.
    rewrite Hshown. split_and!; [done..| | | | | |done].
    + symmetry. exact Hkey.
    + intros lk' Hlk' Hsame.
      by apply (NoDup_fmap_eq (keyOf ∘ Batch.lk_position) (lookups out)).
    + exact Hhit.
    + exact Hgood.
    + exact Hbad.
  - destruct (uncached_run env (asPosition <$> positions) 10 true s)
      as (out & Hout & Hpos & Hgen & Hres & (chunks & Hc & Hcb) & _); [lia|].
    rewrite Hout. simpl. eexists _, out. split; [done|].
    rewrite Hcb, merged_payloads, <- Hc. rewrite Forall_forall in Hgen. split.
    + intros w (lk & Hlk & Hlkres)%payload_lookup_1.
      pose proof (genuine_key _ _ lk _ w (Hgen lk Hlk) Hlkres) as Hkey.
      destruct (uncached_lookup_found env lk (Hgen lk Hlk)) as (o & Htask & Hsome & _).
      destruct (Hsome w) as (current & Hsuccess & Hbuilt).
      { unfold Batch.found. by rewrite Hlkres. }
      by exists lk, o, current.
    + intros Hnone lk o Hlk Hkey Htask.
      destruct (uncached_lookup_found env lk (Hgen lk Hlk))
        as (o' & Htask' & _ & Hsome & _).
      rewrite Htask in Htask'. injection Htask' as <-.
      destruct (success o) as [current|] eqn:Hsuccess; [|done]. exfalso.
      destruct (Hsome current eq_refl) as [w Hfound].
      destruct (payload_found_some (WeatherApi.beginFetch env) WeatherApi.resumeFetch
                  (lookups out) lk w) as [w' Hw']; try done.
      { by apply Forall_forall. }
      rewrite Hkey, Hnone in Hw'. done.
Qed.
End ShownWeather.

(** ** The further properties at concrete inputs *)
Import MoreExamples.

Lemma result_keys_match_coordinates_witness :
  wellKeyed (weatherCache emptyState) ∧ 0 < 2 ∧
  ∃ out,
    WeatherApiCached.fetchWeatherForPositions sunny threePositions 2 true emptyState
    = Some out ∧
    wellKeyed (weatherCache (final out)) ∧
    ∀ key w, result out !! key = Some w →
             positionKey (latitude w) (longitude w) = key.
Proof.
  assert (wellKeyed (weatherCache emptyState)) as Hkeyed.
  { intros key entry Hentry. simpl in Hentry. by rewrite lookup_empty in Hentry. }
  split; [exact Hkeyed|]. split; [lia|].
  apply (result_keys_match_coordinates sunny threePositions 2 true emptyState Hkeyed).
  lia.
Defined.

Lemma warm_cache_needs_no_request_witness :
  0 < 2 ∧
  ∃ out,
    WeatherApiCached.fetchWeatherForPositions sunny
      [at_ 10001 20000; at_ 10004 20000] 2 true warmState = Some out ∧
    requests (final out) = requests warmState ∧
    weatherCache (final out) = weatherCache warmState ∧
    ticks (final out)
    = ticks warmState
      + length (WeatherApiCached.deduplicated [at_ 10001 20000; at_ 10004 20000]) ∧
    ∀ pos, pos ∈ [at_ 10001 20000; at_ 10004 20000] →
      ∃ entry, weatherCache warmState !! keyOf pos = Some entry ∧
               result out !! keyOf pos = Some (data entry).
Proof.
  split; [lia|].
  apply (warm_cache_needs_no_request sunny [at_ 10001 20000; at_ 10004 20000] 2 true
           warmState); [|lia].
  intros pos Hpos. exists warmEntry.
  assert (∀ n, ticks warmState ≤ n
               < ticks warmState
                 + length (WeatherApiCached.deduplicated
                             [at_ 10001 20000; at_ 10004 20000]) →
               (clock sunny n < expires warmEntry)%Z) as Hbefore.
  { intros n Hn. vm_compute in Hn. simpl. unfold steadyClock. lia. }
  apply elem_of_cons in Hpos as [->|Hpos];
    [|apply elem_of_cons in Hpos as [->|Hpos]; [|by apply elem_of_nil in Hpos]].
  - split; [vm_compute; reflexivity|exact Hbefore].
  - split; [vm_compute; reflexivity|exact Hbefore].
Defined.

Lemma uncached_asks_for_every_position_witness :
  0 < 2 ∧
  ∃ out,
    WeatherApi.fetchWeatherForPositions sunny threePositions 2 true emptyState = Some out ∧
    requests (final out) = requests emptyState ++ (requestOf <$> threePositions).
Proof.
  split; [lia|].
  apply (uncached_asks_for_every_position sunny threePositions 2 true emptyState). lia.
Defined.

Lemma limited_asks_for_first_twenty_witness :
  0 < 8 ∧
  ∃ out,
    WeatherApiLimited.fetchWeatherForPositions sunny
      ((λ n, at_ (1000 * Z.of_nat n) 0) <$> seq 0 25) 8 emptyState = Some out ∧
    length (requests (final out)) = 20.
Proof.
  split; [lia|].
  destruct (limited_asks_for_first_twenty sunny
              ((λ n, at_ (1000 * Z.of_nat n) 0) <$> seq 0 25) 8 emptyState)
    as (out & Hout & Hrequests & _); [lia|].
  exists out. split; [exact Hout|]. rewrite Hrequests. reflexivity.
Defined.

Lemma cold_cache_asks_once_per_key_witness :
  0 < 2 ∧
  ∃ out,
    WeatherApiCached.fetchWeatherForPositions sunny threePositions 2 true emptyState
    = Some out ∧
    requests (final out)
    = requests emptyState ++ (requestOf <$> WeatherApiCached.deduplicated threePositions) ∧
    length (requests (final out))
    = length (requests emptyState)
      + size (list_to_set (keyOf <$> threePositions) : gset string).
Proof.
  split; [lia|].
  apply (cold_cache_asks_once_per_key sunny threePositions 2 true emptyState); [|lia].
  intros pos _. simpl. apply lookup_empty.
Defined.

Lemma payloads_follow_batches_witness :
  0 < 2 ∧
  ∃ out,
    WeatherApiCached.fetchWeatherForPositions sunny threePositions 2 true emptyState
    = Some out ∧
    ∀ j m, callbacks out !! j = Some m →
      size m ≤ 2 ∧
      ∀ key, is_Some (m !! key) →
        key ∈ keyOf <$> take 2 (drop (j * 2) (WeatherApiCached.deduplicated threePositions)).
Proof.
  split; [lia|].
  apply (payloads_follow_batches sunny threePositions 2 emptyState). lia.
Defined.

Lemma weather_proxy_forwards_rate_limit_headers_witness :
  ∃ reply,
    NetlifyFunctions.weatherHandler throttled
      (getEvent [("latitude", "10.5"); ("longitude", "20.25")])
    = (reply, Some (NetlifyFunctions.weatherUrl "10.5" "20.25")) ∧
    NetlifyFunctions.statusCode reply = 429%Z ∧
    NetlifyFunctions.headers reply !! "Retry-After" = Some "60" ∧
    NetlifyFunctions.headers reply !! "X-RateLimit-Remaining" = None.
Proof.
  destruct (weather_proxy_forwards_rate_limit_headers throttled
              (getEvent [("latitude", "10.5"); ("longitude", "20.25")])
              "10.5" "20.25"
              {| NetlifyFunctions.up_status := 429;
                 NetlifyFunctions.up_json := Normal (JObj [("error", JBool true)]);
                 NetlifyFunctions.up_header := λ name,
                   if String.eqb name "Retry-After" then Some "60"
                   else if String.eqb name "X-RateLimit-Remaining" then Some ""
                   else None |}
              (JObj [("error", JBool true)]))
    as (reply & Hreply & Hstatus & _ & Hforward & _);
    [reflexivity|vm_compute; reflexivity|discriminate|vm_compute; reflexivity
    |discriminate|reflexivity|reflexivity|].
  exists reply. split; [exact Hreply|]. split; [exact Hstatus|]. split.
  - apply (Hforward "Retry-After"). apply elem_of_cons. by left.
  - apply (Hforward "X-RateLimit-Remaining").
    apply elem_of_cons. right. apply elem_of_cons. by left.
Defined.

Lemma shown_weather_is_what_the_lookup_found_witness :
  ∃ weatherData out lk,
    AppExact.loadWeather (WeatherApiCached.fetchWeatherForPositions sunny)
      [{| ConstellationApi.latitude := Milli 10001; ConstellationApi.longitude := Milli 20000;
          ConstellationApi.altitude := Milli 12000000; ConstellationApi.timestamp := 0 |}]
      emptyState = Some (weatherData, final out) ∧
    lk ∈ lookups out ∧
    (∀ o current, Batch.lk_task lk = Awaiting o → success o = Some current →
       ∃ w, AppExact.getWeather weatherData
              {| ConstellationApi.latitude := Milli 10001;
                 ConstellationApi.longitude := Milli 20000;
                 ConstellationApi.altitude := Milli 12000000;
                 ConstellationApi.timestamp := 0 |} = Some w ∧
            builtFrom w (Batch.lk_position lk) current).
Proof.
  destruct (shown_weather_is_what_the_lookup_found sunny
              [{| ConstellationApi.latitude := Milli 10001;
                  ConstellationApi.longitude := Milli 20000;
                  ConstellationApi.altitude := Milli 12000000;
                  ConstellationApi.timestamp := 0 |}]
              emptyState
              {| ConstellationApi.latitude := Milli 10001;
                 ConstellationApi.longitude := Milli 20000;
                 ConstellationApi.altitude := Milli 12000000;
                 ConstellationApi.timestamp := 0 |})
    as [(weatherData & out & lk & Hload & Hlk & _ & _ & _ & Hgood & _) _].
  { apply elem_of_cons. by left. }
  exists weatherData, out, lk. split; [exact Hload|]. split; [exact Hlk|exact Hgood].
Defined.

(** ** The models at work *)

(** The second entry of [treasure] has latitude 95 and the third is a
    string: two positions are left. *)
Example treasure_parsed :
  toTriple <$> ConstellationApi.parseConstellationResponse treasure 3
  = [JArr [JNum (Milli 10500); JNum (Milli 20250); JNum (Milli 12000000)];
     JArr [JNum (Milli 30000); JNum (Milli 40000); JNum (Milli 50000000)]].
Proof. vm_compute. reflexivity. Qed.

(** With [patchy], the proxy serves hour 0; every other hour goes on to
    the direct URL, which serves hour 1 only. *)
Example patchy_history :
  ∃ history st,
    ConstellationApi.fetchConstellationHistory patchy freshSession = (Normal history, st) ∧
    ConstellationApi.hour <$> history = [0; 1] ∧
    length ∘ ConstellationApi.positions <$> history = [2; 2] ∧
    length (ConstellationApi.asked st) = 47 ∧
    ConstellationApi.reads st = 24.
Proof. eexists _, _. split; [vm_compute; reflexivity|]. vm_compute. done. Qed.

Example proxy_pads_the_hour :
  (NetlifyFunctions.constellationHandler parseDigits
     (λ _, NetlifyFunctions.UpstreamRejected (number := Decimal) NetworkError)
     (getEvent [("hour", "7")])).2
  = Some "https://a.windbornesystems.com/treasure/07.json".
Proof. vm_compute. reflexivity. Qed.
